(** * DuckTrack: the recording session engine

    A shallow embedding of [ducktrack/recorder.py] (the [Recorder] thread,
    its input handlers, the macOS fallback monitor) and of the parts of
    [ducktrack/obs_client.py] the recorder calls.

    Conventions.
    - A Python object attribute is a field of [World]; a method is a
      computation in the monad [M], which threads the world, reads the
      environment [Env] and may raise a Python exception.
    - Every call that leaves the process (OBS web socket, metadata manager,
      file system, pynput, Qt signal) goes through [call]; the environment
      decides, per call instance, whether it raises.  Each call, each queue
      operation and each [logger.error]/[logger.warning] is appended to the
      world's [trace].
    - Wall-clock readings ([time.time()]) are integers in milliseconds, so
      the source's [> 2] and [> 5] seconds read [> seconds 2], [> seconds 5].
    - The durable log is the list of dictionaries handed to
      [events_file.write(json.dumps(...))], in write order. *)

From Stdlib Require Import List String Ascii ZArith Bool Arith Lia.
Import ListNotations.
Local Open Scope string_scope.
Local Open Scope Z_scope.

Set Implicit Arguments.

(** ** Python values, dictionaries, exceptions *)

Inductive Value :=
| VNum (z : Z)
| VStr (s : string)
| VBool (b : bool)
| VNone.

(** An event is the dictionary literal of the source, keys in insertion
    order (the order [json.dumps] prints them). *)
Definition Event := list (string * Value).

Fixpoint dict_get (k : string) (d : Event) : option Value :=
  match d with
  | [] => None
  | (k', v) :: d' => if String.eqb k k' then Some v else dict_get k d'
  end.

Definition action_of (e : Event) : string :=
  match dict_get "action" e with
  | Some (VStr a) => a
  | _ => ""
  end.

Definition has_action (a : string) (e : Event) : bool :=
  String.eqb (action_of e) a.

(** [sub in s] on Python strings. *)
Definition contains (sub s : string) : bool :=
  match String.index 0 sub s with
  | Some _ => true
  | None => false
  end.

(** The exception classes the source tells apart; every one is a subclass
    of [Exception]. *)
Inductive Exc :=
| TypeError (msg : string)
| AttributeError (msg : string)
| ValueError (msg : string)
| OBSSDKRequestError (msg : string)
| Empty
| Exception (msg : string).

Definition is_TypeError (e : Exc) : bool :=
  match e with TypeError _ => true | _ => false end.

Definition is_OBSSDKRequestError (e : Exc) : bool :=
  match e with OBSSDKRequestError _ => true | _ => false end.

Definition str (e : Exc) : string :=
  match e with
  | TypeError m | AttributeError m | ValueError m
  | OBSSDKRequestError m | Exception m => m
  | Empty => EmptyString
  end.

(** ["_ThreadHandle" in str(e) and "not callable" in str(e)] *)
Definition thread_handle_message (e : Exc) : bool :=
  contains "_ThreadHandle" (str e) && contains "not callable" (str e).

Inductive System := Darwin | Windows | Linux.

Definition is_Darwin (s : System) : bool :=
  match s with Darwin => true | _ => false end.

Definition seconds (n : Z) : Z := n * 1000.

(** ** Calls that leave the process *)

Inductive Call :=
(* MetadataManager *)
| metadata_init
| metadata_collect
| metadata_end_collect
| metadata_add_obs_record_state_timings
| metadata_save_metadata
(* obsws_python *)
| obs_connect
| obs_get_profile_list
| obs_configure
| req_start_record
| req_stop_record
| req_set_current_profile
| req_pause_record
| req_resume_record
(* the events file; a flush is told apart by the record it follows *)
| make_recording_path
| file_open
| file_write (e : Event)
| file_flush (after : option Event)
| file_close
(* pynput and the fallback monitor's thread *)
| listener_smoke_test
| osascript_permission_probe
| mouse_Listener_new
| keyboard_Listener_new
| listeners_test
| osascript_mouse_position
| mouse_listener_start
| keyboard_listener_start
| mouse_listener_stop
| keyboard_listener_stop
| monitor_thread_start
| monitor_thread_join
(* Qt and time *)
| sleep (ms : Z)
| recording_stopped_emit.

Inductive Level := ERROR | WARNING.

Inductive Effect :=
| Called (c : Call) (raised : option Exc)
| Put (e : Event)
| Got (e : Event)
| Logged (lvl : Level) (msg : string).

Definition call_of (x : Effect) : option Call :=
  match x with Called c _ => Some c | _ => None end.

Fixpoint calls (t : list Effect) : list Call :=
  match t with
  | [] => []
  | Called c _ :: t' => c :: calls t'
  | _ :: t' => calls t'
  end.

Fixpoint puts (t : list Effect) : list Event :=
  match t with
  | [] => []
  | Put e :: t' => e :: puts t'
  | _ :: t' => puts t'
  end.

Fixpoint gots (t : list Effect) : list Event :=
  match t with
  | [] => []
  | Got e :: t' => e :: gots t'
  | _ :: t' => gots t'
  end.

(** ** The world: one [Recorder] object, its threads, and what it did *)

(** An attribute that [hasattr] may miss and that may hold [None]. *)
Inductive Attr (A : Type) :=
| Absent
| PyNone
| Obj (a : A).
Arguments Absent {A}.
Arguments PyNone {A}.

(** Truthiness of [hasattr(self, name) and self.name]. *)
Definition present {A} (x : Attr A) : bool :=
  match x with Obj _ => true | _ => false end.

(** A pynput listener, as far as the recorder looks at it. *)
Record Listener := mkListener { running : bool }.

Definition is_running (x : Attr Listener) : bool :=
  match x with Obj l => running l | _ => false end.

(** [MacOSInputMonitor]: its attributes and the local of [_run_monitor]. *)
Record Monitor := mkMonitor {
  mon_running : bool;
  monitor_thread : bool;          (* [self.monitor_thread] is not [None] *)
  permission_check_count : Z;
  max_permission_checks : Z;
  mon_last_sentinel_time : Z      (* [last_sentinel_time] of [_run_monitor] *)
}.

Record File := mkFile { lines : list Event; closed : bool }.

(** The locals of [Recorder.run] that live across loop iterations. *)
Record Locals := mkLocals {
  capture_method : string;
  listeners_working : bool;
  last_sentinel_time : Z;
  last_file_write_time : Z;
  events_count : Z
}.

(** Where the thread executing [Recorder.run] stands. *)
Inductive RunState :=
| NotStarted
| Looping (l : Locals)
| Returned
| Died (e : Exc).

Record World := mkWorld {
  use_fallback : bool;
  thread_handle_error_detected : bool;
  mouse_listener : Attr Listener;
  keyboard_listener : Attr Listener;
  macos_monitor : option Monitor;
  _is_recording : bool;
  _is_paused : bool;
  event_queue : list Event;
  events_file : option File;
  old_profile : bool;
  run_thread : RunState;
  trace : list Effect
}.

Definition set_use_fallback (b : bool) (w : World) : World :=
  mkWorld b (thread_handle_error_detected w) (mouse_listener w)
    (keyboard_listener w) (macos_monitor w) (_is_recording w) (_is_paused w)
    (event_queue w) (events_file w) (old_profile w) (run_thread w) (trace w).

Definition set_thread_handle_error_detected (b : bool) (w : World) : World :=
  mkWorld (use_fallback w) b (mouse_listener w)
    (keyboard_listener w) (macos_monitor w) (_is_recording w) (_is_paused w)
    (event_queue w) (events_file w) (old_profile w) (run_thread w) (trace w).

Definition set_mouse_listener (x : Attr Listener) (w : World) : World :=
  mkWorld (use_fallback w) (thread_handle_error_detected w) x
    (keyboard_listener w) (macos_monitor w) (_is_recording w) (_is_paused w)
    (event_queue w) (events_file w) (old_profile w) (run_thread w) (trace w).

Definition set_keyboard_listener (x : Attr Listener) (w : World) : World :=
  mkWorld (use_fallback w) (thread_handle_error_detected w) (mouse_listener w)
    x (macos_monitor w) (_is_recording w) (_is_paused w)
    (event_queue w) (events_file w) (old_profile w) (run_thread w) (trace w).

Definition set_macos_monitor (m : option Monitor) (w : World) : World :=
  mkWorld (use_fallback w) (thread_handle_error_detected w) (mouse_listener w)
    (keyboard_listener w) m (_is_recording w) (_is_paused w)
    (event_queue w) (events_file w) (old_profile w) (run_thread w) (trace w).

Definition set_is_recording (b : bool) (w : World) : World :=
  mkWorld (use_fallback w) (thread_handle_error_detected w) (mouse_listener w)
    (keyboard_listener w) (macos_monitor w) b (_is_paused w)
    (event_queue w) (events_file w) (old_profile w) (run_thread w) (trace w).

Definition set_is_paused (b : bool) (w : World) : World :=
  mkWorld (use_fallback w) (thread_handle_error_detected w) (mouse_listener w)
    (keyboard_listener w) (macos_monitor w) (_is_recording w) b
    (event_queue w) (events_file w) (old_profile w) (run_thread w) (trace w).

Definition set_event_queue (q : list Event) (w : World) : World :=
  mkWorld (use_fallback w) (thread_handle_error_detected w) (mouse_listener w)
    (keyboard_listener w) (macos_monitor w) (_is_recording w) (_is_paused w)
    q (events_file w) (old_profile w) (run_thread w) (trace w).

Definition set_events_file (f : option File) (w : World) : World :=
  mkWorld (use_fallback w) (thread_handle_error_detected w) (mouse_listener w)
    (keyboard_listener w) (macos_monitor w) (_is_recording w) (_is_paused w)
    (event_queue w) f (old_profile w) (run_thread w) (trace w).

Definition set_old_profile (b : bool) (w : World) : World :=
  mkWorld (use_fallback w) (thread_handle_error_detected w) (mouse_listener w)
    (keyboard_listener w) (macos_monitor w) (_is_recording w) (_is_paused w)
    (event_queue w) (events_file w) b (run_thread w) (trace w).

Definition set_run_thread (r : RunState) (w : World) : World :=
  mkWorld (use_fallback w) (thread_handle_error_detected w) (mouse_listener w)
    (keyboard_listener w) (macos_monitor w) (_is_recording w) (_is_paused w)
    (event_queue w) (events_file w) (old_profile w) r (trace w).

Definition emit (x : Effect) (w : World) : World :=
  mkWorld (use_fallback w) (thread_handle_error_detected w) (mouse_listener w)
    (keyboard_listener w) (macos_monitor w) (_is_recording w) (_is_paused w)
    (event_queue w) (events_file w) (old_profile w) (run_thread w)
    (trace w ++ [x]).

(** The durable log: what has been written to [events.jsonl]. *)
Definition log (w : World) : list Event :=
  match events_file w with
  | Some f => lines f
  | None => []
  end.

Definition log_open (w : World) : bool :=
  match events_file w with
  | Some f => negb (closed f)
  | None => false
  end.

(** ** The environment *)

Record Env := mkEnv {
  system : System;
  (** whether the call made as the [n]-th effect raises *)
  faults : nat -> Call -> option Exc;
  (** [time.perf_counter()] read when [n] effects have happened *)
  perf : nat -> Z;
  (** what [listener.running] reads once [start()] has returned *)
  mouse_runs : bool;
  keyboard_runs : bool;
  (** [result.returncode] of the [osascript] probe in
      [check_macos_permissions] *)
  probe_returncode : Z
}.

(** ** The monad of methods *)

Inductive Res (A : Type) :=
| Ok (a : A)
| Raise (e : Exc).
Arguments Raise {A} e.

Definition M (A : Type) : Type := Env -> World -> Res A * World.

Definition ret {A} (a : A) : M A := fun _ w => (Ok a, w).

Definition bind {A B} (c : M A) (k : A -> M B) : M B :=
  fun env w =>
    match c env w with
    | (Ok a, w') => k a env w'
    | (Raise e, w') => (Raise e, w')
    end.

Definition raise {A} (e : Exc) : M A := fun _ w => (Raise e, w).

Declare Scope py_scope.
Delimit Scope py_scope with py.
Notation "x <- c ;; k" := (bind c (fun x => k))
  (at level 61, c at next level, right associativity) : py_scope.
Notation "c ;; k" := (bind c (fun _ => k))
  (at level 61, right associativity) : py_scope.
Local Open Scope py_scope.

Definition read {A} (f : World -> A) : M A := fun _ w => (Ok (f w), w).
Definition ask {A} (f : Env -> A) : M A := fun env w => (Ok (f env), w).
Definition modify (f : World -> World) : M unit := fun _ w => (Ok tt, f w).

(** [try: body  except Exception as e: handler e] *)
Definition try_except {A} (body : M A) (handler : Exc -> M A) : M A :=
  fun env w =>
    match body env w with
    | (Ok a, w') => (Ok a, w')
    | (Raise e, w') => handler e env w'
    end.

(** [try: body  except <class> as e: handler e]: other classes propagate. *)
Definition try_except_class {A} (cls : Exc -> bool) (body : M A)
  (handler : Exc -> M A) : M A :=
  try_except body (fun e => if cls e then handler e else raise e).

Definition when (b : bool) (c : M unit) : M unit := if b then c else ret tt.

(** An outside call: the environment says whether this instance raises. *)
Definition call (c : Call) : M unit :=
  fun env w =>
    let r := faults env (List.length (trace w)) c in
    (match r with None => Ok tt | Some e => Raise e end, emit (Called c r) w).

Definition logger (lvl : Level) (msg : string) : M unit :=
  modify (emit (Logged lvl msg)).

Definition perf_counter : M Z :=
  fun env w => (Ok (perf env (List.length (trace w))), w).

(** [self.event_queue.put(event, block=False)]: [Queue()] is unbounded, so
    the put never raises [Full]. *)
Definition queue_put (e : Event) : M unit :=
  modify (fun w => emit (Put e) (set_event_queue (event_queue w ++ [e]) w)).

(** [self.event_queue.get(timeout=0.5)], at the moment the wait ends. *)
Definition queue_get : M Event :=
  q <- read event_queue ;;
  match q with
  | [] => raise Empty
  | e :: q' => modify (fun w => emit (Got e) (set_event_queue q' w)) ;; ret e
  end.

(** [self.events_file.write(json.dumps(e) + "\n")] *)
Definition events_file_write (e : Event) : M unit :=
  f <- read events_file ;;
  match f with
  | None => raise (AttributeError "events_file")
  | Some f =>
      if closed f then
        modify (emit (Called (file_write e)
                        (Some (ValueError "I/O operation on closed file")))) ;;
        raise (ValueError "I/O operation on closed file")
      else
        call (file_write e) ;;
        modify (set_events_file (Some (mkFile (lines f ++ [e]) false)))
  end.

(** [self.events_file.flush()] *)
Definition events_file_flush (after : option Event) : M unit :=
  f <- read events_file ;;
  match f with
  | None => raise (AttributeError "events_file")
  | Some f =>
      if closed f then
        modify (emit (Called (file_flush after)
                        (Some (ValueError "I/O operation on closed file")))) ;;
        raise (ValueError "I/O operation on closed file")
      else call (file_flush after)
  end.

(** [self.events_file.close()]: closing a closed file does nothing. *)
Definition events_file_close : M unit :=
  f <- read events_file ;;
  match f with
  | None => raise (AttributeError "events_file")
  | Some f =>
      if closed f then ret tt
      else call file_close ;;
           modify (set_events_file (Some (mkFile (lines f) true)))
  end.

(** The recurring pair [write(json.dumps(e) + "\n"); flush()]. *)
Definition write_record (e : Event) : M unit :=
  events_file_write e ;; events_file_flush (Some e).

(** [time.sleep] and a Qt signal's [emit] return normally: they are traced
    but the environment cannot make them raise. *)
Definition time_sleep (ms : Z) : M unit :=
  modify (emit (Called (sleep ms) None)).

Definition recording_stopped_signal : M unit :=
  modify (emit (Called recording_stopped_emit None)).

(** ** obs_client.py *)

Module OBSClient.

(** The connection loop of [__init__]: [for attempt in range(max_retries)],
    here by the number of attempts left. *)
Fixpoint connect (attempts_left : nat) : M unit :=
  match attempts_left with
  | O => ret tt
  | S n =>
      try_except (call obs_connect)
        (fun e =>
           logger ERROR "Failed to connect to OBS WebSocket" ;;
           match n with
           | S _ => time_sleep (seconds 2) ;; connect n
           | O =>
               logger ERROR "Maximum retry attempts reached" ;;
               raise (Exception
                 "Failed to connect to OBS WebSocket after multiple attempts")
           end)
  end.

Definition max_retries : nat := 3.

(** [__init__]: connect, then configure the profile; a request error
    while configuring is logged and the constructor returns. *)
Definition __init__ : M unit :=
  connect max_retries ;;
  try_except_class is_OBSSDKRequestError
    (call obs_get_profile_list ;;
     modify (set_old_profile true) ;;
     call obs_configure)
    (fun e => logger WARNING "Unable to get current profile").

Definition start_recording : M unit := call req_start_record.

Definition stop_recording : M unit :=
  call req_stop_record ;;
  has <- read old_profile ;;
  when has
    (try_except_class is_OBSSDKRequestError (call req_set_current_profile)
       (fun e => logger WARNING "Unable to restore original profile")).

Definition pause_recording : M unit := call req_pause_record.

Definition resume_recording : M unit := call req_resume_record.

End OBSClient.

(** ** Events the recorder builds *)

Definition bare_event (ts : Z) (a : string) : Event :=
  [("time_stamp", VNum ts); ("action", VStr a)].

Definition move_event (ts x y : Z) : Event :=
  [("time_stamp", VNum ts); ("action", VStr "move");
   ("x", VNum x); ("y", VNum y)].

Definition click_event (ts x y : Z) (button : string) (pressed : bool)
  : Event :=
  [("time_stamp", VNum ts); ("action", VStr "click");
   ("x", VNum x); ("y", VNum y);
   ("button", VStr button); ("pressed", VBool pressed)].

Definition scroll_event (ts x y dx dy : Z) : Event :=
  [("time_stamp", VNum ts); ("action", VStr "scroll");
   ("x", VNum x); ("y", VNum y); ("dx", VNum dx); ("dy", VNum dy)].

Definition key_event (ts : Z) (a name : string) : Event :=
  [("time_stamp", VNum ts); ("action", VStr a); ("name", VStr name)].

Definition sentinel_event (ts : Z) (a : string) (now : Z) : Event :=
  [("time_stamp", VNum ts); ("action", VStr a); ("timestamp", VNum now)].

Definition positioned_event (ts : Z) (a : string) (x y : Z) : Event :=
  [("time_stamp", VNum ts); ("action", VStr a);
   ("x", VNum x); ("y", VNum y)].

(** A pynput key: [char] may be missing or [None], [name] may be missing. *)
Record Key := mkKey { char : Attr string; name : option string }.

(** [key.char if hasattr(key, 'char') and key.char is not None else key.name] *)
Definition key_name (key : Key) : M string :=
  match char key with
  | Obj c => ret c
  | _ =>
      match name key with
      | Some n => ret n
      | None => raise (AttributeError "name")
      end
  end.

(** ** recorder.py: [MacOSInputMonitor]

    The monitor object is the recorder's [macos_monitor] attribute.  Its
    [on_click] callback is fixed at construction, so the methods take it as
    an argument ([None] when the constructor got no callback). *)

(** What [subprocess.run(['osascript', ...])] does on one poll: it raises,
    or completes with a return code and an output; [parts] is
    [stdout.strip().split(', ')], each part with what [int()] makes of it
    ([None] when [int()] raises [ValueError]). *)
Inductive Sample :=
| RunRaises (e : Exc)
| Completed (returncode : Z) (parts : list (option Z)).

Module MacOSInputMonitor.

Definition OnClick : Type :=
  Z -> Z -> Z -> option string -> option bool -> string -> M unit.

Definition __init__ : Monitor := mkMonitor false false 0 3 0.

Definition self : M Monitor :=
  m <- read macos_monitor ;;
  match m with
  | Some m => ret m
  | None => raise (AttributeError "macos_monitor")
  end.

Definition update (f : Monitor -> Monitor) : M unit :=
  modify (fun w =>
    match macos_monitor w with
    | Some m => set_macos_monitor (Some (f m)) w
    | None => w
    end).

Definition set_running (b : bool) (m : Monitor) : Monitor :=
  mkMonitor b (monitor_thread m) (permission_check_count m)
    (max_permission_checks m) (mon_last_sentinel_time m).

Definition set_monitor_thread (b : bool) (m : Monitor) : Monitor :=
  mkMonitor (mon_running m) b (permission_check_count m)
    (max_permission_checks m) (mon_last_sentinel_time m).

Definition set_permission_check_count (n : Z) (m : Monitor) : Monitor :=
  mkMonitor (mon_running m) (monitor_thread m) n
    (max_permission_checks m) (mon_last_sentinel_time m).

Definition set_last_sentinel_time (t : Z) (m : Monitor) : Monitor :=
  mkMonitor (mon_running m) (monitor_thread m) (permission_check_count m)
    (max_permission_checks m) t.

(** [start]; the new thread's first statement,
    [last_sentinel_time = time.time()], reads [now]. *)
Definition start (now : Z) : M bool :=
  _ <- self ;;
  update (set_running true) ;;
  update (set_monitor_thread true) ;;
  call monitor_thread_start ;;
  update (set_last_sentinel_time now) ;;
  ret true.

Definition stop : M unit :=
  _ <- self ;;
  update (set_running false) ;;
  m <- self ;;
  when (monitor_thread m) (call monitor_thread_join).

Definition _get_mouse_position (s : Sample) : M (Z * Z) :=
  try_except
    (match s with
     | RunRaises e =>
         modify (emit (Called osascript_mouse_position (Some e))) ;;
         raise e
     | Completed returncode parts =>
         modify (emit (Called osascript_mouse_position None)) ;;
         if negb (returncode =? 0) then
           logger WARNING "AppleScript failed" ;; ret (0, 0)
         else
           match parts with
           | [px; py] =>
               match px, py with
               | Some x, Some y => ret (x, y)
               | _, _ => raise (ValueError "invalid literal for int()")
               end
           | _ => ret (0, 0)
           end
     end)
    (fun e => logger ERROR "Error getting mouse position" ;; ret (0, 0)).

(** One turn of [while self.running:] in [_run_monitor], entered at
    wall-clock time [now]. *)
Definition _run_monitor (on_click : option OnClick) (now : Z) (s : Sample)
  : M unit :=
  try_except
    (m <- self ;;
     when (permission_check_count m <? max_permission_checks m)
       (try_except
          (xy <- _get_mouse_position s ;;
           when ((fst xy >? 0) || (snd xy >? 0))
             (match on_click with
              | Some f => f now (fst xy) (snd xy) None None "move"
              | None => ret tt
              end))
          (fun e =>
             logger WARNING "Mouse position detection failed" ;;
             m <- self ;;
             update (set_permission_check_count
                       (permission_check_count m + 1)) ;;
             m <- self ;;
             when (permission_check_count m >=? max_permission_checks m)
               (logger WARNING
                  "Giving up on mouse position detection after multiple failures"))) ;;
     m <- self ;;
     when (now - mon_last_sentinel_time m >? seconds 2)
       (match on_click with
        | Some f => f now 0 0 None None "sentinel"
        | None => ret tt
        end ;;
        update (set_last_sentinel_time now)) ;;
     time_sleep 500)
    (fun e => logger ERROR "Error in macOS monitor" ;; time_sleep 1000).

End MacOSInputMonitor.

(** ** recorder.py: [check_macos_permissions]

    The message boxes it shows are left out. *)
Definition check_macos_permissions : M bool :=
  sys <- ask system ;;
  if negb (is_Darwin sys) then ret true
  else
    try_except
      (call osascript_permission_probe ;;
       returncode <- ask probe_returncode ;;
       if negb (returncode =? 0) then
         logger WARNING "Accessibility permissions not granted" ;;
         ret false
       else
         try_except_class is_TypeError
           (call listener_smoke_test ;;
            ret true)
           (fun e =>
              if thread_handle_message e then
                logger WARNING "Detected pynput ThreadHandle error" ;;
                ret false
              else raise e))
      (fun e => logger ERROR "Error checking permissions" ;; ret false).

(** ** recorder.py: [Recorder] *)

Module Recorder.

(** ** [__init__] *)

(** [has_permissions = check_macos_permissions()] and what each branch
    of the constructor does with it. *)
Definition check_and_fall_back : M unit :=
  has_permissions <- check_macos_permissions ;;
  when (negb has_permissions) (modify (set_use_fallback true)).

Definition use_macos_monitor : M unit :=
  modify (set_macos_monitor (Some MacOSInputMonitor.__init__)) ;;
  modify (set_mouse_listener PyNone) ;;
  modify (set_keyboard_listener PyNone).

(** Lines 200-244: the probes made on macOS before anything is opened. *)
Definition probe_input_capture : M unit :=
  modify (set_use_fallback false) ;;
  modify (set_thread_handle_error_detected false) ;;
  sys <- ask system ;;
  when (is_Darwin sys)
    (try_except
       (call listener_smoke_test ;;
        has_permissions <- check_macos_permissions ;;
        when (negb has_permissions)
          (logger WARNING "Missing required permissions for event recording" ;;
           modify (set_use_fallback true)))
       (fun e =>
          if is_TypeError e then
            if thread_handle_message e then
              logger ERROR "Detected pynput ThreadHandle compatibility issue" ;;
              modify (set_thread_handle_error_detected true) ;;
              modify (set_use_fallback true)
            else
              logger WARNING "Unknown TypeError during pynput test" ;;
              check_and_fall_back
          else
            logger WARNING "Error in pynput test" ;;
            check_and_fall_back)).

(** Lines 261-334: construct the listeners, or the fallback monitor. *)
Definition create_listeners : M unit :=
  sys <- ask system ;;
  try_except
    (fallback <- read use_fallback ;;
     thde <- read thread_handle_error_detected ;;
     if is_Darwin sys && (fallback || thde) then
       use_macos_monitor
     else
       call mouse_Listener_new ;;
       modify (set_mouse_listener (Obj (mkListener false))) ;;
       call keyboard_Listener_new ;;
       modify (set_keyboard_listener (Obj (mkListener false))) ;;
       try_except_class is_TypeError
         (call listeners_test)
         (fun e =>
            if thread_handle_message e then
              logger ERROR "Cannot use standard listeners due to error" ;;
              modify (set_thread_handle_error_detected true) ;;
              modify (set_use_fallback true) ;;
              use_macos_monitor
            else raise e))
    (fun e =>
       logger ERROR "ERROR initializing input listeners" ;;
       when (is_Darwin sys)
         (use_macos_monitor ;;
          modify (set_use_fallback true))).

Definition __init__ : M unit :=
  probe_input_capture ;;
  call make_recording_path ;;
  modify (set_is_recording false) ;;
  modify (set_is_paused false) ;;
  modify (set_event_queue []) ;;
  call file_open ;;
  modify (set_events_file (Some (mkFile [] false))) ;;
  call metadata_init ;;
  OBSClient.__init__ ;;
  create_listeners.

(** ** The input handlers *)

(** [if not self._is_paused and self._is_recording:] *)
Definition accepting : M bool :=
  paused <- read _is_paused ;;
  recording <- read _is_recording ;;
  ret (negb paused && recording).

(** [_move_counter] only feeds [logger.info] and is left out. *)
Definition on_move (x y : Z) : M unit :=
  ok <- accepting ;;
  when ok
    (try_except
       (ts <- perf_counter ;;
        queue_put (move_event ts x y))
       (fun e => logger ERROR "Error capturing mouse move")).

Definition on_click (x y : Z) (button : string) (pressed : bool) : M unit :=
  ok <- accepting ;;
  when ok
    (try_except
       (ts <- perf_counter ;;
        queue_put (click_event ts x y button pressed))
       (fun e => logger ERROR "Error capturing mouse click")).

Definition on_scroll (x y dx dy : Z) : M unit :=
  ok <- accepting ;;
  when ok
    (try_except
       (ts <- perf_counter ;;
        queue_put (scroll_event ts x y dx dy))
       (fun e => logger ERROR "Error capturing scroll")).

Definition on_press (key : Key) : M unit :=
  ok <- accepting ;;
  when ok
    (try_except
       (n <- key_name key ;;
        ts <- perf_counter ;;
        queue_put (key_event ts "press" n))
       (fun e => logger ERROR "Error capturing key press")).

Definition on_release (key : Key) : M unit :=
  ok <- accepting ;;
  when ok
    (try_except
       (n <- key_name key ;;
        ts <- perf_counter ;;
        queue_put (key_event ts "release" n))
       (fun e => logger ERROR "Error capturing key release")).

(** The handler the fallback monitor calls; [now] is the reading of
    [time.time()] it takes for a sentinel. *)
Definition macos_on_input (now : Z) (x y : Z) (button : option string)
  (pressed : option bool) (event_type : string) : M unit :=
  ok <- accepting ;;
  when ok
    (try_except
       (ts <- perf_counter ;;
        queue_put
          (if String.eqb event_type "move" && ((x >? 0) || (y >? 0)) then
             move_event ts x y
           else if String.eqb event_type "click" then
             click_event ts x y
               (match button with
                | Some b => if String.eqb b "" then "unknown" else b
                | None => "unknown"
                end)
               (match pressed with Some p => p | None => true end)
           else if String.eqb event_type "sentinel" then
             sentinel_event ts "sentinel" now
           else
             positioned_event ts event_type x y))
       (fun e => logger ERROR "Error in macOS fallback input handler")).

(** ** Pause and resume *)

Definition pause_recording : M unit :=
  ok <- accepting ;;
  when ok
    (modify (set_is_paused true) ;;
     OBSClient.pause_recording ;;
     ts <- perf_counter ;;
     queue_put (bare_event ts "pause")).

Definition resume_recording : M unit :=
  paused <- read _is_paused ;;
  recording <- read _is_recording ;;
  when (paused && recording)
    (modify (set_is_paused false) ;;
     OBSClient.resume_recording ;;
     ts <- perf_counter ;;
     queue_put (bare_event ts "resume")).

(** ** [run]: the thread that owns the log

    [run] is split where other threads can be told to have run: what it
    does before the loop ([run_begin]), one turn of the loop
    ([run_iteration]), and what follows the loop ([run_end]); [run_thread]
    says where it stands.  The locals that live across turns are kept in
    the world, so an assignment made before an exception survives it as in
    Python. *)

Definition locals : M Locals :=
  r <- read run_thread ;;
  match r with
  | Looping l => ret l
  | _ => raise (Exception "run() is not executing")
  end.

Definition assign (f : Locals -> Locals) : M unit :=
  modify (fun w =>
    match run_thread w with
    | Looping l => set_run_thread (Looping (f l)) w
    | _ => w
    end).

Definition set_listeners_working (b : bool) (l : Locals) : Locals :=
  mkLocals (capture_method l) b (last_sentinel_time l)
    (last_file_write_time l) (events_count l).

Definition set_last_sentinel_time (t : Z) (l : Locals) : Locals :=
  mkLocals (capture_method l) (listeners_working l) t
    (last_file_write_time l) (events_count l).

Definition set_last_file_write_time (t : Z) (l : Locals) : Locals :=
  mkLocals (capture_method l) (listeners_working l) (last_sentinel_time l)
    t (events_count l).

Definition set_events_count (n : Z) (l : Locals) : Locals :=
  mkLocals (capture_method l) (listeners_working l) (last_sentinel_time l)
    (last_file_write_time l) n.

(** Lines 469-478: which input capture method the session uses. *)
Definition select_capture_method (sys : System) (w : World) : string :=
  if is_Darwin sys
     && (use_fallback w || thread_handle_error_detected w) then
    if thread_handle_error_detected w
    then "macOS_fallback_due_to_pynput_error"
    else "macOS_fallback_due_to_permissions"
  else if present (mouse_listener w) && present (keyboard_listener w) then
    "pynput_listeners"
  else
    "none".

Definition method_event (ts : Z) (method : string) : Event :=
  [("time_stamp", VNum ts); ("action", VStr "input_capture_method");
   ("method", VStr method)].

Definition fallback_event (ts : Z) (method : string) : Event :=
  [("time_stamp", VNum ts); ("action", VStr "macos_fallback_monitor_started");
   ("reason", VStr method)].

Definition listener_event (ts : Z) (mouse_running keyboard_running : bool)
  : Event :=
  [("time_stamp", VNum ts); ("action", VStr "input_listeners_started");
   ("mouse_running", VBool mouse_running);
   ("keyboard_running", VBool keyboard_running)].

Definition recovery_event (ts : Z) (e : Exc) : Event :=
  [("time_stamp", VNum ts); ("action", VStr "recovered_with_fallback_monitor");
   ("error", VStr (str e))].

Definition heartbeat_event (ts : Z) (method : string) (working : bool)
  : Event :=
  [("time_stamp", VNum ts); ("action", VStr "heartbeat");
   ("message", VStr "Recording active");
   ("capture_method", VStr method);
   ("listeners_working", VBool working)].

(** [listener.start()]: [running] then reads what the environment says. *)
Definition start_mouse_listener : M unit :=
  l <- read mouse_listener ;;
  match l with
  | Obj _ =>
      call mouse_listener_start ;;
      r <- ask mouse_runs ;;
      modify (set_mouse_listener (Obj (mkListener r)))
  | _ => raise (AttributeError "start")
  end.

Definition start_keyboard_listener : M unit :=
  l <- read keyboard_listener ;;
  match l with
  | Obj _ =>
      call keyboard_listener_start ;;
      r <- ask keyboard_runs ;;
      modify (set_keyboard_listener (Obj (mkListener r)))
  | _ => raise (AttributeError "start")
  end.

Definition stop_mouse_listener : M unit :=
  call mouse_listener_stop ;;
  modify (set_mouse_listener (Obj (mkListener false))).

Definition stop_keyboard_listener : M unit :=
  call keyboard_listener_stop ;;
  modify (set_keyboard_listener (Obj (mkListener false))).

(** Lines 488-549: start whatever backend the method names. *)
Definition start_listeners (now : Z) (method : string) : M unit :=
  if String.prefix "macOS_fallback" method then
    _ <- MacOSInputMonitor.start now ;;
    ts <- perf_counter ;;
    write_record (fallback_event ts method) ;;
    assign (set_listeners_working true)
  else if String.eqb method "pynput_listeners" then
    try_except_class is_TypeError
      (start_mouse_listener ;;
       start_keyboard_listener ;;
       m <- read mouse_listener ;;
       k <- read keyboard_listener ;;
       (if is_running m && is_running k
        then assign (set_listeners_working true)
        else assign (set_listeners_working false) ;;
             logger WARNING "pynput listeners failed to start properly") ;;
       ts <- perf_counter ;;
       write_record (listener_event ts (is_running m) (is_running k)))
      (fun e =>
         if thread_handle_message e then
           logger ERROR "pynput ThreadHandle error when starting listeners" ;;
           sys <- ask system ;;
           mon <- read macos_monitor ;;
           when (is_Darwin sys
                 && match mon with None => true | Some _ => false end)
             (modify (set_macos_monitor
                        (Some MacOSInputMonitor.__init__)) ;;
              _ <- MacOSInputMonitor.start now ;;
              assign (set_listeners_working true) ;;
              ts <- perf_counter ;;
              write_record (recovery_event ts e))
         else
           logger ERROR "Error starting pynput listeners" ;;
           assign (set_listeners_working false))
  else
    logger WARNING "No input listeners available, only recording screen" ;;
    assign (set_listeners_working false) ;;
    ts <- perf_counter ;;
    write_record (bare_event ts "input_listeners_unavailable").

(** Lines 612-618, and the thread returns. *)
Definition run_end : M unit :=
  ts <- perf_counter ;;
  try_except
    (write_record (bare_event ts "recording_ended"))
    (fun e => logger ERROR "Error writing final event") ;;
  modify (set_run_thread Returned).

(** Lines 456-563, up to the loop's first test; [now] is [time.time()]
    as read for [last_sentinel_time] and [last_file_write_time].  An
    exception of the guarded part skips the loop: [run_end] follows at
    once. *)
Definition run_begin (now : Z) : M unit :=
  modify (set_is_recording true) ;;
  call metadata_collect ;;
  OBSClient.start_recording ;;
  ts <- perf_counter ;;
  write_record (bare_event ts "recording_started") ;;
  sys <- ask system ;;
  method <- read (select_capture_method sys) ;;
  ts <- perf_counter ;;
  write_record (method_event ts method) ;;
  modify (set_run_thread (Looping (mkLocals method false 0 0 0))) ;;
  try_except
    (start_listeners now method ;;
     l <- locals ;;
     ts <- perf_counter ;;
     write_record (heartbeat_event ts method (listeners_working l)) ;;
     assign (set_last_sentinel_time now) ;;
     assign (set_last_file_write_time now))
    (fun e => logger ERROR "Error in recording thread" ;; run_end).

Definition is_Empty (e : Exc) : bool :=
  match e with Empty => true | _ => false end.

(** Lines 567-608: one turn of [while self._is_recording:], with
    [current_time = now].  The periodic [logger.info] heartbeat is left
    out. *)
Definition run_iteration (current_time : Z) : M unit :=
  try_except
    (l <- locals ;;
     when (current_time - last_file_write_time l >? seconds 5)
       (ts <- perf_counter ;;
        write_record (sentinel_event ts "direct_sentinel" current_time) ;;
        assign (set_last_file_write_time current_time)) ;;
     try_except_class is_Empty
       (event <- queue_get ;;
        write_record event ;;
        l <- locals ;;
        assign (set_events_count (events_count l + 1)) ;;
        assign (set_last_file_write_time current_time))
       (fun _ =>
          l <- locals ;;
          when (current_time - last_sentinel_time l >? seconds 2)
            (ts <- perf_counter ;;
             queue_put (sentinel_event ts "sentinel" current_time) ;;
             assign (set_last_sentinel_time current_time))))
    (fun e => logger ERROR "Error processing event" ;; time_sleep 100).

(** ** What the other threads do between two steps of the control thread *)

Inductive Input :=
| Move (x y : Z)
| Click (x y : Z) (button : string) (pressed : bool)
| Scroll (x y dx dy : Z)
| Press (key : Key)
| Release (key : Key).

Definition deliver (i : Input) : M unit :=
  match i with
  | Move x y => on_move x y
  | Click x y b p => on_click x y b p
  | Scroll x y dx dy => on_scroll x y dx dy
  | Press k => on_press k
  | Release k => on_release k
  end.

Inductive Background :=
| RunStarts (now : Z)               (* the thread enters [run] *)
| RunTurn (now : Z)                 (* the loop test, and what follows it *)
| Listener (i : Input)              (* a pynput listener calls a handler *)
| MonitorTurn (now : Z) (s : Sample). (* a turn of [_run_monitor] *)

(** A thread's computation: an exception that leaves it ends the thread. *)
Definition in_run_thread (c : M unit) (env : Env) (w : World) : World :=
  match c env w with
  | (Ok _, w') => w'
  | (Raise e, w') => set_run_thread (Died e) w'
  end.

Definition in_thread (c : M unit) (env : Env) (w : World) : World :=
  snd (c env w).

Definition background (b : Background) (env : Env) (w : World) : World :=
  match b with
  | RunStarts now =>
      match run_thread w with
      | NotStarted => in_run_thread (run_begin now) env w
      | _ => w
      end
  | RunTurn now =>
      match run_thread w with
      | Looping _ =>
          if _is_recording w
          then in_run_thread (run_iteration now) env w
          else in_run_thread run_end env w
      | _ => w
      end
  | Listener i =>
      if is_running (match i with
                     | Press _ | Release _ => keyboard_listener w
                     | _ => mouse_listener w
                     end)
      then in_thread (deliver i) env w
      else w
  | MonitorTurn now s =>
      match macos_monitor w with
      | Some m =>
          if mon_running m
          then in_thread
                 (MacOSInputMonitor._run_monitor (Some macos_on_input) now s)
                 env w
          else w
      | None => w
      end
  end.

Definition backgrounds (bs : list Background) (env : Env) (w : World)
  : World :=
  fold_left (fun w b => background b env w) bs w.

(** ** [stop_recording]

    [during_grace] is what the other threads do while the control
    thread is in [time.sleep(0.5)]. *)
Definition stop_listeners : M unit :=
  sys <- ask system ;;
  fallback <- read use_fallback ;;
  mon <- read macos_monitor ;;
  if is_Darwin sys && fallback
     && match mon with Some _ => true | None => false end
  then MacOSInputMonitor.stop
  else
    m <- read mouse_listener ;;
    when (is_running m) stop_mouse_listener ;;
    k <- read keyboard_listener ;;
    when (is_running k) stop_keyboard_listener.

(** Lines 629-674: what follows the grace delay. *)
Definition close_down : M unit :=
  try_except stop_listeners
    (fun e => logger ERROR "Error stopping listeners") ;;
  try_except (call metadata_end_collect)
    (fun e => logger ERROR "Error finalizing metadata") ;;
  try_except
    (OBSClient.stop_recording ;;
     call metadata_add_obs_record_state_timings)
    (fun e => logger ERROR "Error stopping OBS recording") ;;
  try_except
    (events_file_flush None ;;
     events_file_close)
    (fun e => logger ERROR "Error closing events file") ;;
  try_except (call metadata_save_metadata)
    (fun e => logger ERROR "Error saving metadata") ;;
  recording_stopped_signal.

(** [time.sleep(0.5)], and the other threads meanwhile. *)
Definition grace_delay (during_grace : list Background) : M unit :=
  time_sleep 500 ;;
  (fun env w => (Ok tt, backgrounds during_grace env w)).

Definition stop_recording (during_grace : list Background) : M unit :=
  recording <- read _is_recording ;;
  when recording
    (modify (set_is_recording false) ;;
     try_except
       (grace_delay during_grace ;;
        close_down)
       (fun e =>
          logger ERROR "Error during recording shutdown" ;;
          recording_stopped_signal)).

End Recorder.

(** The object before [__init__] has run: no attribute is set. *)
Definition blank : World :=
  mkWorld false false Absent Absent None false false [] None false
    NotStarted [].

(** ** Sessions: the control thread's calls, interleaved with the others *)

Inductive Step :=
| Bg (b : Recorder.Background)
| Pause
| Resume
| Stop (during_grace : list Recorder.Background).

(** A control-thread call: an exception goes to its caller (the Qt slot),
    the object stays as the call left it. *)
Definition control (c : M unit) (env : Env) (w : World) : World :=
  snd (c env w).

Definition step (s : Step) (env : Env) (w : World) : World :=
  match s with
  | Bg b => Recorder.background b env w
  | Pause => control Recorder.pause_recording env w
  | Resume => control Recorder.resume_recording env w
  | Stop g => control (Recorder.stop_recording g) env w
  end.

Definition steps (ss : list Step) (env : Env) (w : World) : World :=
  fold_left (fun w s => step s env w) ss w.

(** [Recorder(...)] followed by [.start()]: the object as the constructor
    leaves it; the thread enters [run] with the first [RunStarts]. *)
Definition constructed (env : Env) : Res unit * World :=
  Recorder.__init__ env blank.

(** An environment in which nothing raises. *)
Definition calm (sys : System) : Env :=
  mkEnv sys (fun _ _ => None) (fun n => Z.of_nat n) true true 0.

Local Open Scope list_scope.

(** ** Specifications of computations

    [hoare env P c Q E]: run from a world satisfying [P], [c] either
    returns [a] in a world satisfying [Q a] or raises [e] in a world
    satisfying [E e].  [keeps env I c]: [c] keeps the invariant [I],
    however it ends. *)

Definition hoare {A} (env : Env) (P : World -> Prop) (c : M A)
  (Q : A -> World -> Prop) (E : Exc -> World -> Prop) : Prop :=
  forall w, P w ->
    match c env w with
    | (Ok a, w') => Q a w'
    | (Raise e, w') => E e w'
    end.

Definition keeps {A} (env : Env) (I : World -> Prop) (c : M A) : Prop :=
  hoare env I c (fun _ => I) (fun _ => I).


(** An invariant that no trace entry disturbs. *)
Definition quiet (I : World -> Prop) : Prop :=
  forall x w, I w -> I (emit x w).

(** A projection of the world that no trace entry changes. *)
Definition tracks {A} (F : World -> A) : Prop :=
  forall x w, F (emit x w) = F w.


(** ** Vocabulary of the statements *)

(** What a world shows once [run] has been entered and the flag is down:
    no thread will raise the flag again. *)
Definition stopped (w : World) : Prop :=
  _is_recording w = false /\ run_thread w <> NotStarted.

(** Every call that raised is followed at once by a log entry. *)
Fixpoint raises_logged (t : list Effect) : bool :=
  match t with
  | [] => true
  | Called _ (Some _) :: rest =>
      match rest with
      | Logged _ _ :: _ => raises_logged rest
      | _ => false
      end
  | _ :: rest => raises_logged rest
  end.

Definition is_backend_stop (c : Call) : bool :=
  match c with
  | monitor_thread_join | mouse_listener_stop | keyboard_listener_stop => true
  | _ => false
  end.

Definition is_client_followup (c : Call) : bool :=
  match c with
  | req_set_current_profile | metadata_add_obs_record_state_timings => true
  | _ => false
  end.

Definition is_file_close (c : Call) : bool :=
  match c with file_close => true | _ => false end.

(** The calls of a teardown, in the order of [stop_recording]: stop the
    backend, finalize the metadata, stop the client and hand over its
    timings, flush and close the log, save the metadata, emit the signal. *)
Definition teardown_calls (cs : list Call) : Prop :=
  exists backend client closing,
    cs = backend ++ [metadata_end_collect; req_stop_record] ++ client
         ++ [file_flush None] ++ closing
         ++ [metadata_save_metadata; recording_stopped_emit]
    /\ forallb is_backend_stop backend = true
    /\ forallb is_client_followup client = true
    /\ forallb is_file_close closing = true.

(** The world when the grace delay of [stop_recording] ends. *)
Definition after_grace (g : list Recorder.Background) (env : Env) (w : World)
  : World :=
  Recorder.backgrounds g env
    (emit (Called (sleep 500) None) (set_is_recording false w)).

(** What one guarded step of the teardown does: it returns, it appends a
    trace whose calls are [first] followed by calls among [allowed], every
    raise in it is logged, and the flag, the log's lines and the run thread
    are as before. *)
Definition step_does (env : Env) (c : M unit) (first : list Call)
  (allowed : Call -> bool) : Prop :=
  forall w, events_file w <> None ->
    exists t rest,
      fst (c env w) = Ok tt
      /\ trace (snd (c env w)) = trace w ++ t
      /\ calls t = first ++ rest
      /\ forallb allowed rest = true
      /\ raises_logged t = true
      /\ _is_recording (snd (c env w)) = _is_recording w
      /\ run_thread (snd (c env w)) = run_thread w
      /\ log (snd (c env w)) = log w
      /\ events_file (snd (c env w)) <> None.

(** Once the flag is down and [run] has been entered, no thread raises the
    flag again or loses the file. *)
Definition halted (w : World) : Prop :=
  stopped w /\ events_file w <> None.


(** ** Concrete environments and worlds *)

(** The OBS web socket refuses every connection. *)
Definition unreachable : Env :=
  mkEnv Linux
    (fun _ c =>
       match c with
       | obs_connect => Some (Exception "connection refused")
       | _ => None
       end)
    (fun n => Z.of_nat n) true true 0.

(** A session on Linux in which nothing raises, just after the thread has
    entered [run]. *)
Definition recording_world : World :=
  steps [Bg (Recorder.RunStarts 0)] (calm Linux)
    (snd (constructed (calm Linux))).


Definition monitor_running (w : World) : bool :=
  match macos_monitor w with
  | Some m => mon_running m
  | None => false
  end.



(** The environment never makes a write or a flush of a record raise. *)
Definition reliable_log (env : Env) : Prop :=
  forall n e,
    faults env n (file_write e) = None
    /\ faults env n (file_flush (Some e)) = None.

(** The recording session of [recording_world], paused. *)
Definition paused_world : World :=
  steps [Pause] (calm Linux) recording_world.

(** The writer's thread in its loop, on an open log: the log is [L] and
    then direct sentinels, the queue is [q]. *)
Definition writing (L : list Event) (q : list Event) (w : World) : Prop :=
  (exists ds, log w = L ++ ds
              /\ forallb (has_action "direct_sentinel") ds = true)
  /\ log_open w = true
  /\ event_queue w = q
  /\ exists l, run_thread w = Looping l.

(** The client's pause raises; everything else works. *)
Definition pause_fails : Env :=
  mkEnv Linux
    (fun _ c =>
       match c with
       | req_pause_record => Some (OBSSDKRequestError "pause failed")
       | _ => None
       end)
    (fun n => Z.of_nat n) true true 0.

(** ** Backend selection, read off the trace of the constructor *)






(** The method [run] will record for the object the constructor made. *)
Definition selected_method (env : Env) : string :=
  Recorder.select_capture_method (system env) (snd (constructed env)).


(** On macOS the mouse listener cannot be constructed. *)
Definition darwin_listener_failure : Env :=
  mkEnv Darwin
    (fun _ c =>
       match c with
       | mouse_Listener_new => Some (Exception "no display")
       | _ => None
       end)
    (fun n => Z.of_nat n) true true 0.





(** ** The fallback monitor's sampling *)

Definition is_sampling (x : Effect) : bool :=
  match x with
  | Called osascript_mouse_position _ => true
  | _ => false
  end.

(** How often the pointer position has been asked for. *)
Definition samplings (t : list Effect) : nat :=
  List.length (filter is_sampling t).

(** Consecutive turns of [_run_monitor], each with the wall-clock time at
    which it is entered and what [subprocess.run] does in it. *)
Definition monitor_turns (turns : list (Z * Sample))
  : list Recorder.Background :=
  map (fun t => Recorder.MonitorTurn (fst t) (snd t)) turns.

(** The monitor runs, its counter is [c], its limit [mx], and the position
    has been asked for [k] times. *)
Definition sampling (c mx : Z) (k : nat) (w : World) : Prop :=
  exists m,
    macos_monitor w = Some m
    /\ mon_running m = true
    /\ permission_check_count m = c
    /\ max_permission_checks m = mx
    /\ samplings (trace w) = k.

(** A session on macOS that has fallen back to the monitor, just after the
    thread has entered [run]. *)
Definition fallback_session : World :=
  steps [Bg (Recorder.RunStarts 0)] darwin_listener_failure
    (snd (constructed darwin_listener_failure)).

(** [subprocess.run] raises in four consecutive turns of the monitor, half
    a second apart. *)
Definition four_failures : list (Z * Sample) :=
  [(500, RunRaises (Exception "osascript: not found"));
   (1000, RunRaises (Exception "osascript: not found"));
   (1500, RunRaises (Exception "osascript: not found"));
   (2000, RunRaises (Exception "osascript: not found"))].

(** ** The shape of the log *)

Definition begins (l : list Event) : Prop :=
  exists s rest, l = s :: rest /\ action_of s = "recording_started".

Definition bracketed (l : list Event) : Prop :=
  exists s body e,
    l = s :: body ++ [e]
    /\ action_of s = "recording_started"
    /\ action_of e = "recording_ended".

(** The records [run] writes outside every [try]. *)
Definition is_marker (e : Event) : bool :=
  has_action "recording_started" e
  || has_action "input_capture_method" e
  || has_action "recording_ended" e.

(** [run] gets as far as its guarded part, and the markers can be written:
    collecting the metadata, starting the client and writing or flushing a
    marker never raise.  Every other call may. *)
Definition markers_written (env : Env) : Prop :=
  (forall n, faults env n metadata_collect = None)
  /\ (forall n, faults env n req_start_record = None)
  /\ (forall n e, is_marker e = true ->
        faults env n (file_write e) = None
        /\ faults env n (file_flush (Some e)) = None).

(** The object before its thread is started, on a new log. *)
Definition fresh (w : World) : Prop :=
  run_thread w = NotStarted /\ events_file w = Some (mkFile [] false).

(** What the writer's thread owns: the log, its own state, the flag. *)
Definition frame (f : option File) (r : RunState) (b : bool) (w : World)
  : Prop :=
  events_file w = f /\ run_thread w = r /\ _is_recording w = b.

(** An invariant that looks at nothing but these. *)
Definition writer_only (I : World -> Prop) : Prop :=
  forall w w',
    events_file w' = events_file w -> run_thread w' = run_thread w ->
    _is_recording w' = _is_recording w -> I w -> I w'.

(** The thread is in [run], before the final record. *)
Definition in_loop (w : World) : Prop :=
  log_open w = true /\ (exists l, run_thread w = Looping l) /\ begins (log w).

(** The thread has left [run], having written the final record. *)
Definition finished (w : World) : Prop :=
  run_thread w = Returned /\ bracketed (log w).

Definition in_session (b : bool) (w : World) : Prop :=
  _is_recording w = b /\ (in_loop w \/ finished w).

Definition is_stop (s : Step) : bool :=
  match s with Stop _ => true | _ => false end.

Definition is_run_turn (b : Recorder.Background) : bool :=
  match b with Recorder.RunTurn _ => true | _ => false end.

(** The client's start raises; everything else works. *)
Definition start_fails : Env :=
  mkEnv Linux
    (fun _ c =>
       match c with
       | req_start_record => Some (OBSSDKRequestError "start failed")
       | _ => None
       end)
    (fun n => Z.of_nat n) true true 0.

(** ** The queue and the order of the log *)

(** The actions of the records that reach the log through the queue: what
    the handlers, the monitor, Pause, Resume and the loop itself put. *)
Definition from_queue (e : Event) : bool :=
  existsb (String.eqb (action_of e))
    ["move"; "click"; "scroll"; "press"; "release"; "sentinel"; "pause";
     "resume"].

(** [l1] is [l2] with some elements left out, the order kept. *)
Inductive subsequence {A : Type} : list A -> list A -> Prop :=
| subsequence_nil : subsequence [] []
| subsequence_skip x l1 l2 : subsequence l1 l2 -> subsequence l1 (x :: l2)
| subsequence_take x l1 l2 :
    subsequence l1 l2 -> subsequence (x :: l1) (x :: l2).

(** What was put is what was got, in that order, and then what waits. *)
Definition queue_is_fifo (w : World) : Prop :=
  puts (trace w) = gots (trace w) ++ event_queue w.

(** The queue's records in the log are records that were got, in the
    order in which they were got. *)
Definition log_in_order (w : World) : Prop :=
  subsequence (filter from_queue (log w)) (gots (trace w)).

(** Nothing has been put, got or written. *)
Definition untouched (w : World) : Prop :=
  puts (trace w) = [] /\ gots (trace w) = [] /\ event_queue w = []
  /\ log w = [].

(** [e] has been got and is not written yet. *)
Definition pending (e : Event) (w : World) : Prop :=
  exists g,
    gots (trace w) = g ++ [e]
    /\ subsequence (filter from_queue (log w)) g.

(** The session of [recording_world] after a move and a click that the
    writer has not got yet. *)
Definition busy_world : World :=
  steps [Bg (Recorder.Listener (Recorder.Move 3 4));
         Bg (Recorder.Listener (Recorder.Click 3 4 "left" true))]
    (calm Linux) recording_world.

(** ** The writer's clocks *)

(** [current_time - last_file_write_time > 5] and
    [current_time - last_sentinel_time > 2]. *)
Definition direct_due (now lw : Z) : bool := now - lw >? seconds 5.

Definition sentinel_due (now st : Z) : bool := now - st >? seconds 2.

(** The writer is in its loop on an open log with the lines [ls]; the
    queue holds [q]; the last sentinel was made at [st], the last write
    at [lw]. *)
Definition looping (ls q : list Event) (st lw : Z) (w : World) : Prop :=
  events_file w = Some (mkFile ls false)
  /\ event_queue w = q
  /\ exists l,
       run_thread w = Looping l
       /\ last_sentinel_time l = st
       /\ last_file_write_time l = lw.

Definition direct_record (now lw ts : Z) : list Event :=
  if direct_due now lw then [sentinel_event ts "direct_sentinel" now] else [].

(** What a turn entered at [now] makes of [ls], [q], [st] and [lw]. *)
Definition after_turn (now : Z) (ls q : list Event) (st lw : Z) (w : World)
  : Prop :=
  match q with
  | e :: q' =>
      exists ts, looping (ls ++ direct_record now lw ts ++ [e]) q' st now w
  | [] =>
      exists ts ts',
        looping (ls ++ direct_record now lw ts)
          (if sentinel_due now st
           then [sentinel_event ts' "sentinel" now] else [])
          (if sentinel_due now st then now else st)
          (if direct_due now lw then now else lw) w
  end.

(** Two moves that the writer writes 2.4 s apart: the first is in the
    queue when the loop starts at 0; the turns entered at 0, 0.5 s, 1 s
    and 1.5 s find the queue empty; the turn entered at 2 s gets the
    second move, which arrives at 2.4 s. *)
Definition quiet_spell : list Step :=
  [Bg (Recorder.RunStarts 0);
   Bg (Recorder.Listener (Recorder.Move 1 1));
   Bg (Recorder.RunTurn 0);
   Bg (Recorder.RunTurn 0);
   Bg (Recorder.RunTurn 500);
   Bg (Recorder.RunTurn 1000);
   Bg (Recorder.RunTurn 1500);
   Bg (Recorder.Listener (Recorder.Move 2 2));
   Bg (Recorder.RunTurn 2000)].

(** ** What a handler may change *)

(** [w] with [es] added at the end of the queue and [t] at the end of the
    trace; everything else as it is. *)
Definition grown (es : list Event) (t : list Effect) (w : World) : World :=
  mkWorld (use_fallback w) (thread_handle_error_detected w) (mouse_listener w)
    (keyboard_listener w) (macos_monitor w) (_is_recording w) (_is_paused w)
    (event_queue w ++ es) (events_file w) (old_profile w) (run_thread w)
    (trace w ++ t).

(** A key as pynput hands it over: a character key, a special key, and a
    key object with neither attribute set. *)
Definition char_key (c : string) : Key := mkKey (Obj c) None.
Definition special_key (n : string) : Key := mkKey PyNone (Some n).
Definition nameless_key : Key := mkKey Absent None.

(** The [name] fields of the records a thread enqueued. *)
Definition names_put (t : list Effect) : list (option Value) :=
  map (dict_get "name") (puts t).

(** What [key_name] makes of a key, if anything. *)
Definition recorded_name (k : Key) : option string :=
  match char k with
  | Obj c => Some c
  | _ => name k
  end.

(** The session takes input: it records and is not paused. *)
Definition taking_input (w : World) : Prop :=
  _is_paused w = false /\ _is_recording w = true.

(** The trace a computation adds to a world's. *)
Definition added {A} (c : M A) (env : Env) (w : World) : list Effect :=
  skipn (List.length (trace w)) (trace (snd (c env w))).

(** ** The client's connection *)

Definition connect_failed : Exc :=
  Exception "Failed to connect to OBS WebSocket after multiple attempts".

Definition retry : list Call := [sleep (seconds 2); obs_connect].

(** Some call of the trace raised. *)
Definition raised (t : list Effect) : bool :=
  existsb (fun x => match x with Called _ (Some _) => true | _ => false end) t.

Definition is_connect (c : Call) : bool :=
  match c with obs_connect => true | _ => false end.

(** Some connection attempt of the trace succeeded. *)
Definition connected (t : list Effect) : bool :=
  existsb (fun x => match x with Called obs_connect None => true | _ => false end) t.

(** How many connection attempts of the trace failed. *)
Definition failures (t : list Effect) : nat :=
  List.length
    (filter (fun x => match x with
                      | Called obs_connect (Some _) => true
                      | _ => false
                      end) t).

(** ** The client's profile *)

Definition is_profile_read (x : Effect) : bool :=
  match x with Called obs_get_profile_list None => true | _ => false end.

Definition is_profile_restore (x : Effect) : bool :=
  match x with Called req_set_current_profile _ => true | _ => false end.

(** The client has an [old_profile] exactly if the profile list was read,
    and the profile was only asked to be restored if there is one. *)
Definition profile_kept (w : World) : Prop :=
  old_profile w = existsb is_profile_read (trace w)
  /\ (existsb is_profile_restore (trace w) = true -> old_profile w = true).

(** ** Sessions that have ended *)

(** The thread has left [run] and the log reads [L]. *)
Definition done_with (L : list Event) (w : World) : Prop :=
  run_thread w = Returned /\ log w = L.



(** The mouse listener cannot be started; everything else works. *)
Definition listener_start_fails : Env :=
  mkEnv Linux
    (fun _ c =>
       match c with
       | mouse_listener_start => Some (Exception "cannot start")
       | _ => None
       end)
    (fun n => Z.of_nat n) true true 0.

(** A session in which starting the backend raised: [run] has written its
    final record and returned; the control thread has not stopped yet. *)
Definition screen_only_world : World :=
  steps [Bg (Recorder.RunStarts 0)] listener_start_fails
    (snd (constructed listener_start_fails)).

(** ** The monitor's thread *)

Definition monitor_thread_started (w : World) : bool :=
  match macos_monitor w with
  | Some m => monitor_thread m
  | None => false
  end.

(** ** The log only grows *)

Definition extends (L : list Event) (w : World) : Prop :=
  exists rest, log w = L ++ rest.

(** ** The native backend *)

(** No call ever raises. *)
Definition faultless (env : Env) : Prop :=
  forall n c, faults env n c = None.

(** The constructor's flags select the native listeners. *)
Definition native (w : World) : Prop :=
  use_fallback w = false /\ thread_handle_error_detected w = false.

(** ** What a turn of the monitor enqueues *)

(** What [_get_mouse_position] makes of a sample: the two integers the
    subprocess printed, if it returned 0 and they parse; the origin in
    every other case. *)
Definition position_of (s : Sample) : Z * Z :=
  match s with
  | Completed returncode [Some x; Some y] =>
      if returncode =? 0 then (x, y) else (0, 0)
  | _ => (0, 0)
  end.

Definition moved_record (s : Sample) (ts : Z) : list Event :=
  if (fst (position_of s) >? 0) || (snd (position_of s) >? 0)
  then [move_event ts (fst (position_of s)) (snd (position_of s))]
  else [].

Definition monitor_sentinel (now last ts : Z) : list Event :=
  if now - last >? seconds 2 then [sentinel_event ts "sentinel" now] else [].

(** The session takes input, [P] was put so far, and the monitor runs
    with its counter [c] below its limit [mx]; its last sentinel was made
    at [last]. *)
Definition watching (P : list Event) (last c mx : Z) (w : World) : Prop :=
  taking_input w
  /\ puts (trace w) = P
  /\ exists m,
       macos_monitor w = Some m
       /\ mon_running m = true
       /\ permission_check_count m = c
       /\ max_permission_checks m = mx
       /\ mon_last_sentinel_time m = last.

(** ** app.py: the pause control of [MainInterface] *)

Module MainInterface.

(** The window as far as [toggle_pause] goes: the recorder, if the
    attribute is there, and the texts of the pause action and button. *)
Record State := mkState {
  recorder_thread : option World;
  toggle_pause_action : string;
  toggle_pause_button : string
}.

Definition setText (s : string) (w : World) : State :=
  mkState (Some w) s s.

(** [toggle_pause]: an exception of the recorder's call leaves the slot
    before the texts are set. *)
Definition toggle_pause (env : Env) (a : State) : Res unit * State :=
  match recorder_thread a with
  | None => (Raise (AttributeError "recorder_thread"), a)
  | Some w =>
      if _is_paused w then
        match Recorder.resume_recording env w with
        | (Ok _, w') => (Ok tt, setText "Pause Recording" w')
        | (Raise e, w') =>
            (Raise e,
             mkState (Some w') (toggle_pause_action a) (toggle_pause_button a))
        end
      else
        match Recorder.pause_recording env w with
        | (Ok _, w') => (Ok tt, setText "Resume Recording" w')
        | (Raise e, w') =>
            (Raise e,
             mkState (Some w') (toggle_pause_action a) (toggle_pause_button a))
        end
  end.

(** The text says what the next click does. *)
Definition truthful (a : State) : Prop :=
  exists w,
    recorder_thread a = Some w
    /\ toggle_pause_action a
       = (if _is_paused w then "Resume Recording" else "Pause Recording")
    /\ toggle_pause_button a = toggle_pause_action a.

Definition paused (a : State) : bool :=
  match recorder_thread a with
  | Some w => _is_paused w
  | None => false
  end.

End MainInterface.

(** The window over the session of [recording_world]. *)
Definition recording_window : MainInterface.State :=
  MainInterface.setText "Pause Recording" recording_world.

(** ** The writer in its loop *)

Definition in_the_loop (w : World) : Prop :=
  _is_recording w = true /\ exists l, run_thread w = Looping l.

(** The log file cannot be written: every write raises. *)
Definition disk_full : Env :=
  mkEnv Linux
    (fun _ c =>
       match c with
       | file_write _ => Some (Exception "No space left on device")
       | _ => None
       end)
    (fun n => Z.of_nat n) true true 0.

(** ** obs_client.py: looking for OBS

    Process names and paths are taken to be ASCII. *)

Definition lower_char (c : ascii) : ascii :=
  let n := nat_of_ascii c in
  if (Nat.leb 65 n && Nat.leb n 90)%bool then ascii_of_nat (n + 32) else c.

(** [str.lower()] *)
Fixpoint lower (s : string) : string :=
  match s with
  | EmptyString => EmptyString
  | String c s' => String (lower_char c) (lower s')
  end.

(** What [psutil.process_iter(attrs=["pid", "name"])] yields next: a
    process with a name, a process whose name is [None], or an exception. *)
Inductive Process :=
| Named (n : string)
| Nameless
| Vanished (e : Exc).

Definition could_not_check : Exc :=
  Exception
    "Could not check if OBS is running already. Please check manually.".

(** The loop of [is_obs_running]. *)
Fixpoint scan_processes (ps : list Process) : Res bool :=
  match ps with
  | [] => Ok false
  | Named n :: ps' =>
      if contains "obs" (lower n) then Ok true else scan_processes ps'
  | Nameless :: _ =>
      Raise (AttributeError "'NoneType' object has no attribute 'lower'")
  | Vanished e :: _ => Raise e
  end.

Definition is_obs_running (ps : list Process) : Res bool :=
  match scan_processes ps with
  | Ok b => Ok b
  | Raise _ => Raise could_not_check
  end.

(** A named process that is not taken for OBS. *)
Definition passed_over (p : Process) : Prop :=
  exists n, p = Named n /\ contains "obs" (lower n) = false.

Definition common_paths (sys : System) : list string :=
  match sys with
  | Windows =>
      ["C:\Program Files\obs-studio\bin\64bit\obs64.exe";
       "C:\Program Files (x86)\obs-studio\bin\32bit\obs32.exe"]
  | Darwin =>
      ["/Applications/OBS.app/Contents/MacOS/OBS"; "/opt/homebrew/bin/obs"]
  | Linux => ["/usr/bin/obs"; "/usr/local/bin/obs"]
  end.

(** What [subprocess.check_output("which obs", shell=True)] comes to: the
    decoded, stripped output, a [CalledProcessError], or another
    exception. *)
Inductive Located :=
| Printed (path : string)
| CalledProcessError
| Broke (e : Exc).

(** [find_obs]; [path_exists] is [os.path.exists]. *)
Definition find_obs (sys : System) (path_exists : string -> bool)
  (located : Located) : Res string :=
  match find path_exists (common_paths sys) with
  | Some path => Ok path
  | None =>
      match located with
      | Printed obs_path =>
          if path_exists obs_path then Ok obs_path else Ok "obs"
      | CalledProcessError => Ok "obs"
      | Broke e => Raise e
      end
  end.

(** * Proofs *)

(** ** Rules of the specification logic *)

Lemma hoare_conseq {A} env (P P' : World -> Prop) (c : M A)
  (Q Q' : A -> World -> Prop) (E E' : Exc -> World -> Prop) :
  hoare env P' c Q' E' ->
  (forall w, P w -> P' w) ->
  (forall a w, Q' a w -> Q a w) ->
  (forall e w, E' e w -> E e w) ->
  hoare env P c Q E.
Proof.
  intros H HP HQ HE w Hw. specialize (H w (HP w Hw)).
  destruct (c env w) as [[a|e] w']; auto.
Qed.

Lemma hoare_ret {A} env (P : World -> Prop) (a : A) Q E :
  (forall w, P w -> Q a w) -> hoare env P (ret a) Q E.
Proof. intros H w Hw. cbn. auto. Qed.

Lemma hoare_raise {A} env (P : World -> Prop) (e : Exc)
  (Q : A -> World -> Prop) E :
  (forall w, P w -> E e w) -> hoare env P (raise e) Q E.
Proof. intros H w Hw. cbn. auto. Qed.

Lemma hoare_bind {A B} env P (c : M A) (k : A -> M B) R Q E :
  hoare env P c R E ->
  (forall a, hoare env (R a) (k a) Q E) ->
  hoare env P (bind c k) Q E.
Proof.
  intros Hc Hk w Hw. unfold bind. specialize (Hc w Hw).
  destruct (c env w) as [[a|e] w']; auto. apply (Hk a w' Hc).
Qed.

Lemma hoare_try_except {A} env P (body : M A) (handler : Exc -> M A) R Q E :
  hoare env P body Q R ->
  (forall e, hoare env (R e) (handler e) Q E) ->
  hoare env P (try_except body handler) Q E.
Proof.
  intros Hb Hh w Hw. unfold try_except. specialize (Hb w Hw).
  destruct (body env w) as [[a|e] w']; auto. apply (Hh e w' Hb).
Qed.

Lemma hoare_read {A} env P (f : World -> A) Q E :
  (forall w, P w -> Q (f w) w) -> hoare env P (read f) Q E.
Proof. intros H w Hw. cbn. auto. Qed.

Lemma hoare_ask {A} env P (f : Env -> A) Q E :
  (forall w, P w -> Q (f env) w) -> hoare env P (ask f) Q E.
Proof. intros H w Hw. cbn. auto. Qed.

Lemma hoare_modify env P (f : World -> World) Q E :
  (forall w, P w -> Q tt (f w)) -> hoare env P (modify f) Q E.
Proof. intros H w Hw. cbn. auto. Qed.

Lemma hoare_call env P (c : Call) Q E :
  (forall w, P w ->
     match faults env (List.length (trace w)) c with
     | None => Q tt (emit (Called c None) w)
     | Some e => E e (emit (Called c (Some e)) w)
     end) ->
  hoare env P (call c) Q E.
Proof.
  intros H w Hw. unfold call. specialize (H w Hw).
  destruct (faults env (List.length (trace w)) c); auto.
Qed.

Lemma hoare_perf_counter env P Q E :
  (forall w, P w -> Q (perf env (List.length (trace w))) w) ->
  hoare env P perf_counter Q E.
Proof. intros H w Hw. cbn. auto. Qed.

(** ** Invariants *)

Lemma keeps_ret {A} env I (a : A) : keeps env I (ret a).
Proof. apply hoare_ret; auto. Qed.

Lemma keeps_raise {A} env I e : keeps env I (@raise A e).
Proof. apply hoare_raise; auto. Qed.

Lemma keeps_read {A} env I (f : World -> A) : keeps env I (read f).
Proof. apply hoare_read; auto. Qed.

Lemma keeps_ask {A} env I (f : Env -> A) : keeps env I (ask f).
Proof. apply hoare_ask; auto. Qed.

Lemma keeps_perf_counter env I : keeps env I perf_counter.
Proof. apply hoare_perf_counter; auto. Qed.

Lemma keeps_bind {A B} env I (c : M A) (k : A -> M B) :
  keeps env I c -> (forall a, keeps env I (k a)) -> keeps env I (bind c k).
Proof. intros. eapply hoare_bind; eauto. Qed.

Lemma keeps_try_except {A} env I (body : M A) handler :
  keeps env I body -> (forall e, keeps env I (handler e)) ->
  keeps env I (try_except body handler).
Proof. intros. eapply hoare_try_except; eauto. Qed.

Lemma keeps_try_except_class {A} env I cls (body : M A) handler :
  keeps env I body -> (forall e, keeps env I (handler e)) ->
  keeps env I (try_except_class cls body handler).
Proof.
  intros Hb Hh. apply keeps_try_except; auto.
  intros e. destruct (cls e); auto. apply keeps_raise.
Qed.

Lemma keeps_when env I b c :
  keeps env I c -> keeps env I (when b c).
Proof. intros. destruct b; cbn; auto. apply keeps_ret. Qed.

Lemma keeps_modify env (I : World -> Prop) f :
  (forall w, I w -> I (f w)) -> keeps env I (modify f).
Proof. intros. apply hoare_modify; auto. Qed.

Lemma keeps_call env I c : quiet I -> keeps env I (call c).
Proof.
  intros H. apply hoare_call. intros w Hw.
  destruct (faults env _ c); apply H; auto.
Qed.

Lemma keeps_logger env I lvl msg : quiet I -> keeps env I (logger lvl msg).
Proof. intros H. apply keeps_modify. intros; apply H; auto. Qed.

Lemma keeps_time_sleep env I ms : quiet I -> keeps env I (time_sleep ms).
Proof. intros H. apply keeps_modify. intros; apply H; auto. Qed.

Lemma keeps_signal env I : quiet I -> keeps env I recording_stopped_signal.
Proof. intros H. apply keeps_modify. intros; apply H; auto. Qed.

Lemma keeps_sound {A} env I (c : M A) w :
  keeps env I c -> I w -> I (snd (c env w)).
Proof.
  intros H Hw. specialize (H w Hw). destruct (c env w) as [[a|e] w']; auto.
Qed.

(** The file and queue operations, as equations. *)

Lemma events_file_write_eq e env w :
  events_file_write e env w =
  match events_file w with
  | None => (Raise (AttributeError "events_file"), w)
  | Some f =>
      if closed f then
        (Raise (ValueError "I/O operation on closed file"),
         emit (Called (file_write e)
                 (Some (ValueError "I/O operation on closed file"))) w)
      else
        match faults env (List.length (trace w)) (file_write e) with
        | None =>
            (Ok tt,
             set_events_file (Some (mkFile (lines f ++ [e]) false))
               (emit (Called (file_write e) None) w))
        | Some x => (Raise x, emit (Called (file_write e) (Some x)) w)
        end
  end.
Proof.
  unfold events_file_write, bind, read, call, modify, raise.
  destruct (events_file w) as [f|]; [|reflexivity].
  destruct (closed f); [reflexivity|].
  destruct (faults env _ _); reflexivity.
Qed.

Lemma events_file_flush_eq a env w :
  events_file_flush a env w =
  match events_file w with
  | None => (Raise (AttributeError "events_file"), w)
  | Some f =>
      if closed f then
        (Raise (ValueError "I/O operation on closed file"),
         emit (Called (file_flush a)
                 (Some (ValueError "I/O operation on closed file"))) w)
      else
        match faults env (List.length (trace w)) (file_flush a) with
        | None => (Ok tt, emit (Called (file_flush a) None) w)
        | Some x => (Raise x, emit (Called (file_flush a) (Some x)) w)
        end
  end.
Proof.
  unfold events_file_flush, bind, read, call, modify, raise.
  destruct (events_file w) as [f|]; [|reflexivity].
  destruct (closed f); [reflexivity|].
  destruct (faults env _ _); reflexivity.
Qed.

Lemma events_file_close_eq env w :
  events_file_close env w =
  match events_file w with
  | None => (Raise (AttributeError "events_file"), w)
  | Some f =>
      if closed f then (Ok tt, w)
      else
        match faults env (List.length (trace w)) file_close with
        | None =>
            (Ok tt,
             set_events_file (Some (mkFile (lines f) true))
               (emit (Called file_close None) w))
        | Some x => (Raise x, emit (Called file_close (Some x)) w)
        end
  end.
Proof.
  unfold events_file_close, bind, read, call, modify, raise, ret.
  destruct (events_file w) as [f|]; [|reflexivity].
  destruct (closed f); [reflexivity|].
  destruct (faults env _ _); reflexivity.
Qed.

Lemma queue_get_eq env w :
  queue_get env w =
  match event_queue w with
  | [] => (Raise Empty, w)
  | e :: q => (Ok e, emit (Got e) (set_event_queue q w))
  end.
Proof.
  unfold queue_get, bind, read, modify, raise, ret.
  destruct (event_queue w); reflexivity.
Qed.

Lemma keeps_events_file_write env (I : World -> Prop) e :
  quiet I ->
  (forall w f, I w -> events_file w = Some f -> closed f = false ->
     I (set_events_file (Some (mkFile (lines f ++ [e]) false)) w)) ->
  keeps env I (events_file_write e).
Proof.
  intros Hq Hw w HI. rewrite events_file_write_eq.
  destruct (events_file w) as [f|] eqn:Hf; [|assumption].
  destruct (closed f) eqn:Hc; [apply Hq; assumption|].
  destruct (faults env _ _); [apply Hq; assumption|].
  apply (Hw (emit (Called (file_write e) None) w) f); auto.
Qed.

Lemma keeps_events_file_flush env (I : World -> Prop) a :
  quiet I -> keeps env I (events_file_flush a).
Proof.
  intros Hq w HI. rewrite events_file_flush_eq.
  destruct (events_file w) as [f|]; [|assumption].
  destruct (closed f); [apply Hq; assumption|].
  destruct (faults env _ _); apply Hq; assumption.
Qed.

Lemma keeps_events_file_close env (I : World -> Prop) :
  quiet I ->
  (forall w f, I w -> events_file w = Some f -> closed f = false ->
     I (set_events_file (Some (mkFile (lines f) true)) w)) ->
  keeps env I events_file_close.
Proof.
  intros Hq Hw w HI. rewrite events_file_close_eq.
  destruct (events_file w) as [f|] eqn:Hf; [|assumption].
  destruct (closed f) eqn:Hc; [assumption|].
  destruct (faults env _ _); [apply Hq; assumption|].
  apply (Hw (emit (Called file_close None) w) f); auto.
Qed.

Lemma keeps_write_record env (I : World -> Prop) e :
  quiet I ->
  (forall w f, I w -> events_file w = Some f -> closed f = false ->
     I (set_events_file (Some (mkFile (lines f ++ [e]) false)) w)) ->
  keeps env I (write_record e).
Proof.
  intros Hq Hw. unfold write_record. apply keeps_bind.
  - apply keeps_events_file_write; assumption.
  - intros _. apply keeps_events_file_flush; assumption.
Qed.

Lemma keeps_queue_put env (I : World -> Prop) e :
  quiet I ->
  (forall w, I w -> I (set_event_queue (event_queue w ++ [e]) w)) ->
  keeps env I (queue_put e).
Proof.
  intros Hq Hw. apply keeps_modify. intros w HI. apply Hq. auto.
Qed.

Lemma keeps_queue_get env (I : World -> Prop) :
  quiet I ->
  (forall w e q, I w -> event_queue w = e :: q -> I (set_event_queue q w)) ->
  keeps env I queue_get.
Proof.
  intros Hq Hw w HI. rewrite queue_get_eq.
  destruct (event_queue w) as [|e q] eqn:E; [assumption|].
  apply Hq. eapply Hw; eauto.
Qed.

(** A syntax-directed proof of [keeps]: the rules above, case analysis on
    what the code inspects, and unfolding of the methods; what is left are
    the facts about single assignments. *)
Ltac head_of t :=
  lazymatch t with
  | ?f _ => head_of f
  | _ => t
  end.

Ltac keeps_rule :=
  lazymatch goal with
  | |- keeps _ _ (bind _ _) => apply keeps_bind; [ | intros ]
  | |- keeps _ _ (ret _) => apply keeps_ret
  | |- keeps _ _ (raise _) => apply keeps_raise
  | |- keeps _ _ (read _) => apply keeps_read
  | |- keeps _ _ (ask _) => apply keeps_ask
  | |- keeps _ _ perf_counter => apply keeps_perf_counter
  | |- keeps _ _ (try_except_class _ _ _) =>
      apply keeps_try_except_class; [ | intros ]
  | |- keeps _ _ (try_except _ _) => apply keeps_try_except; [ | intros ]
  | |- keeps _ _ (when _ _) => apply keeps_when
  | |- keeps _ _ (call _) => apply keeps_call
  | |- keeps _ _ (logger _ _) => apply keeps_logger
  | |- keeps _ _ (time_sleep _) => apply keeps_time_sleep
  | |- keeps _ _ recording_stopped_signal => apply keeps_signal
  | |- keeps _ _ (modify _) => apply keeps_modify
  | |- keeps _ _ (write_record _) => apply keeps_write_record
  | |- keeps _ _ (events_file_write _) => apply keeps_events_file_write
  | |- keeps _ _ (events_file_flush _) => apply keeps_events_file_flush
  | |- keeps _ _ events_file_close => apply keeps_events_file_close
  | |- keeps _ _ (queue_put _) => apply keeps_queue_put
  | |- keeps _ _ queue_get => apply keeps_queue_get
  | |- keeps _ _ (match ?x with _ => _ end) => destruct x
  | |- keeps _ _ ?c => let h := head_of c in unfold h
  end.

Ltac keeps_auto := repeat keeps_rule.

(** ** Symbolic execution of straight-line methods *)

Ltac unfold_monad :=
  unfold when, bind, ret, read, ask, modify, raise,
    try_except_class, try_except, logger, perf_counter, queue_put,
    time_sleep, recording_stopped_signal, call in *.

Ltac case_head :=
  match goal with
  | |- context [match faults ?env ?n ?c with _ => _ end] =>
      destruct (faults env n c) eqn:?
  | |- context [system ?env] => destruct (system env) eqn:?
  | |- context [is_OBSSDKRequestError ?e] => is_var e; destruct e
  | |- context [andb ?x _] => is_var x; destruct x
  | |- context [orb ?x _] => is_var x; destruct x
  | |- context [match ?x with _ => _ end] => is_var x; destruct x
  | |- context [if ?x then _ else _] => is_var x; destruct x
  end.

Ltac leaf :=
  unfold quiet; intros;
  repeat match goal with w : World |- _ => destruct w end;
  cbn in *;
  repeat (match goal with
          | |- context [match ?x with _ => _ end] =>
              is_var x; destruct x; cbn in *
          | H : context [match ?x with _ => _ end] |- _ =>
              is_var x; destruct x; cbn in *
          end);
  repeat match goal with
         | H : Some _ = Some _ |- _ => injection H as H
         end;
  subst;
  repeat match goal with
         | H : closed ?f = _ |- _ => rewrite H in *; clear H
         end;
  cbn in *;
  try solve [intuition (try congruence)].

(** ** Traces *)

Lemma calls_app t1 t2 : calls (t1 ++ t2) = calls t1 ++ calls t2.
Proof.
  induction t1 as [|[c r|e|e|l m] t1 IH]; cbn; rewrite ?IH; reflexivity.
Qed.

Lemma puts_app t1 t2 : puts (t1 ++ t2) = puts t1 ++ puts t2.
Proof.
  induction t1 as [|[c r|e|e|l m] t1 IH]; cbn; rewrite ?IH; reflexivity.
Qed.

Lemma gots_app t1 t2 : gots (t1 ++ t2) = gots t1 ++ gots t2.
Proof.
  induction t1 as [|[c r|e|e|l m] t1 IH]; cbn; rewrite ?IH; reflexivity.
Qed.

Lemma raises_logged_app t1 t2 :
  raises_logged t1 = true -> raises_logged t2 = true ->
  raises_logged (t1 ++ t2) = true.
Proof.
  induction t1 as [|x t1 IH]; cbn; auto.
  destruct x as [c [e|]|e|e|l m]; auto.
  destruct t1 as [|[| | |] t1]; cbn in *; try discriminate; auto.
Qed.

(** ** The teardown, step by step *)

Ltac finish_step :=
  cbn; eexists; eexists;
  split; [reflexivity|];
  split; [first [rewrite <- ?app_assoc; reflexivity
                | symmetry; apply app_nil_r]|];
  split; [cbn; reflexivity|];
  cbn; repeat split; try reflexivity; try discriminate; try assumption.

Lemma step_end_collect env msg :
  step_does env
    (try_except (call metadata_end_collect) (fun e => logger ERROR msg))
    [metadata_end_collect] (fun _ => false).
Proof.
  intros w Hf. unfold_monad.
  destruct w as [uf thde ml kl mon rec paused q fo op rt tr]; cbn in *.
  repeat (case_head; cbn). all: solve [finish_step].
Qed.

Lemma step_save env msg :
  step_does env
    (try_except (call metadata_save_metadata) (fun e => logger ERROR msg))
    [metadata_save_metadata] (fun _ => false).
Proof.
  intros w Hf. unfold_monad.
  destruct w as [uf thde ml kl mon rec paused q fo op rt tr]; cbn in *.
  repeat (case_head; cbn). all: solve [finish_step].
Qed.

Lemma step_client env msg :
  step_does env
    (try_except
       (bind OBSClient.stop_recording
          (fun _ => call metadata_add_obs_record_state_timings))
       (fun e => logger ERROR msg))
    [req_stop_record] is_client_followup.
Proof.
  intros w Hf. unfold OBSClient.stop_recording. unfold_monad.
  destruct w as [uf thde ml kl mon rec paused q fo op rt tr]; cbn in *.
  repeat (case_head; cbn). all: solve [finish_step].
Qed.

Lemma step_close env msg :
  step_does env
    (try_except (bind (events_file_flush None) (fun _ => events_file_close))
       (fun e => logger ERROR msg))
    [file_flush None] is_file_close.
Proof.
  intros w Hf. unfold events_file_flush, events_file_close. unfold_monad.
  destruct w as [uf thde ml kl mon rec paused q fo op rt tr]; cbn in *.
  destruct fo as [[ls cl]|]; [|congruence]. cbn.
  repeat (case_head; cbn). all: solve [finish_step].
Qed.

Lemma step_backend env msg :
  step_does env
    (try_except Recorder.stop_listeners (fun e => logger ERROR msg))
    [] is_backend_stop.
Proof.
  intros w Hf.
  unfold Recorder.stop_listeners, MacOSInputMonitor.stop,
    MacOSInputMonitor.self, MacOSInputMonitor.update,
    Recorder.stop_mouse_listener, Recorder.stop_keyboard_listener.
  unfold_monad.
  destruct w as [uf thde ml kl mon rec paused q fo op rt tr]; cbn in *.
  destruct mon as [[mr mt pc mx ls]|]; destruct ml as [| |[mlr]];
    destruct kl as [| |[klr]]; cbn.
  all: repeat (case_head; cbn). all: solve [finish_step].
Qed.

Lemma bind_step (c : M unit) {B} (k : unit -> M B) env w :
  fst (c env w) = Ok tt -> bind c k env w = k tt env (snd (c env w)).
Proof.
  unfold bind. destruct (c env w) as [[[]|e] w']; cbn; congruence.
Qed.

(** Lines 629-674 as a whole. *)
Lemma close_down_spec env w :
  events_file w <> None ->
  exists t,
    fst (Recorder.close_down env w) = Ok tt
    /\ trace (snd (Recorder.close_down env w)) = trace w ++ t
    /\ teardown_calls (calls t)
    /\ raises_logged t = true
    /\ _is_recording (snd (Recorder.close_down env w)) = _is_recording w
    /\ run_thread (snd (Recorder.close_down env w)) = run_thread w
    /\ log (snd (Recorder.close_down env w)) = log w.
Proof.
  intros Hf. unfold Recorder.close_down.
  destruct (step_backend env "Error stopping listeners" w Hf)
    as (t1 & r1 & E1 & T1 & C1 & A1 & L1 & R1 & U1 & G1 & F1).
  rewrite (bind_step _ _ _ _ E1).
  set (w1 := snd (try_except Recorder.stop_listeners _ env w)) in *.
  destruct (step_end_collect env "Error finalizing metadata" _ F1)
    as (t2 & r2 & E2 & T2 & C2 & A2 & L2 & R2 & U2 & G2 & F2).
  rewrite (bind_step _ _ _ _ E2).
  set (w2 := snd (try_except (call metadata_end_collect) _ env w1)) in *.
  destruct (step_client env "Error stopping OBS recording" _ F2)
    as (t3 & r3 & E3 & T3 & C3 & A3 & L3 & R3 & U3 & G3 & F3).
  rewrite (bind_step _ _ _ _ E3).
  set (w3 := snd (try_except (bind OBSClient.stop_recording _) _ env w2)) in *.
  destruct (step_close env "Error closing events file" _ F3)
    as (t4 & r4 & E4 & T4 & C4 & A4 & L4 & R4 & U4 & G4 & F4).
  rewrite (bind_step _ _ _ _ E4).
  set (w4 := snd (try_except (bind (events_file_flush None) _) _ env w3)) in *.
  destruct (step_save env "Error saving metadata" _ F4)
    as (t5 & r5 & E5 & T5 & C5 & A5 & L5 & R5 & U5 & G5 & F5).
  rewrite (bind_step _ _ _ _ E5).
  set (w5 := snd (try_except (call metadata_save_metadata) _ env w4)) in *.
  destruct r2; [|discriminate]. destruct r5; [|discriminate].
  exists (t1 ++ t2 ++ t3 ++ t4 ++ t5 ++ [Called recording_stopped_emit None]).
  cbn. repeat split.
  - rewrite T5, T4, T3, T2, T1. rewrite <- !app_assoc. reflexivity.
  - exists r1, r3, r4. rewrite !calls_app, C1, C2, C3, C4, C5. cbn.
    rewrite <- ?app_assoc. cbn. auto.
  - repeat (apply raises_logged_app; auto).
  - congruence.
  - congruence.
  - unfold log in *. cbn. congruence.
Qed.

(** ** Invariants of the other threads *)

Lemma in_thread_keeps env (I : World -> Prop) c w :
  keeps env I c -> I w -> I (Recorder.in_thread c env w).
Proof. intros. unfold Recorder.in_thread. apply keeps_sound; auto. Qed.

Lemma in_run_thread_keeps env (I : World -> Prop) c w :
  keeps env I c ->
  (forall e w, I w -> I (set_run_thread (Died e) w)) ->
  I w -> I (Recorder.in_run_thread c env w).
Proof.
  intros Hk Hd Hw. unfold Recorder.in_run_thread.
  specialize (Hk w Hw). destruct (c env w) as [[a|e] w']; auto.
Qed.

(** An invariant of every turn of every other thread, from what each
    thread's code keeps. *)
Lemma background_keeps env (I : World -> Prop) :
  (forall now w, I w -> run_thread w = NotStarted ->
     I (Recorder.in_run_thread (Recorder.run_begin now) env w)) ->
  (forall now w l, I w -> run_thread w = Looping l -> _is_recording w = true ->
     I (Recorder.in_run_thread (Recorder.run_iteration now) env w)) ->
  (forall w l, I w -> run_thread w = Looping l -> _is_recording w = false ->
     I (Recorder.in_run_thread Recorder.run_end env w)) ->
  (forall i, keeps env I (Recorder.deliver i)) ->
  (forall now s,
     keeps env I
       (MacOSInputMonitor._run_monitor (Some Recorder.macos_on_input) now s)) ->
  forall b w, I w -> I (Recorder.background b env w).
Proof.
  intros Hb Hi He Hd Hm b w Hw. destruct b; cbn.
  - destruct (run_thread w) eqn:E; auto.
  - destruct (run_thread w) eqn:E; auto.
    destruct (_is_recording w) eqn:R; eauto.
  - destruct (is_running _); auto. apply in_thread_keeps; auto.
  - destruct (macos_monitor w) as [m|]; auto.
    destruct (mon_running m); auto. apply in_thread_keeps; auto.
Qed.

Lemma backgrounds_keeps env (I : World -> Prop) :
  (forall b w, I w -> I (Recorder.background b env w)) ->
  forall bs w, I w -> I (Recorder.backgrounds bs env w).
Proof.
  intros H bs. unfold Recorder.backgrounds.
  induction bs as [|b bs IH]; cbn; auto.
Qed.

Lemma quiet_halted : quiet halted.
Proof. unfold halted, stopped. leaf. Qed.

Lemma deliver_keeps_halted env i : keeps env halted (Recorder.deliver i).
Proof.
  destruct i; cbn; keeps_auto; try apply quiet_halted;
    unfold halted, stopped; leaf.
Qed.

Lemma macos_on_input_keeps_halted env now x y b p ty :
  keeps env halted (Recorder.macos_on_input now x y b p ty).
Proof.
  keeps_auto; try apply quiet_halted; unfold halted, stopped; leaf.
Qed.

Lemma run_monitor_keeps_halted env now s :
  keeps env halted
    (MacOSInputMonitor._run_monitor (Some Recorder.macos_on_input) now s).
Proof.
  unfold MacOSInputMonitor._run_monitor.
  keeps_auto; try apply quiet_halted;
    try apply macos_on_input_keeps_halted;
    unfold halted, stopped; leaf.
Qed.

Lemma run_end_keeps_halted env : keeps env halted Recorder.run_end.
Proof.
  keeps_auto; try apply quiet_halted; unfold halted, stopped; leaf.
Qed.

Lemma background_keeps_halted env b w :
  halted w -> halted (Recorder.background b env w).
Proof.
  apply background_keeps.
  - intros now w0 [[_ H] _] E. contradiction.
  - intros now w0 l [[H _] _] _ R. congruence.
  - intros w0 l H _ _. apply in_run_thread_keeps; auto.
    + apply run_end_keeps_halted.
    + unfold halted, stopped. leaf.
  - apply deliver_keeps_halted.
  - apply run_monitor_keeps_halted.
Qed.

Lemma after_grace_halted env g w :
  run_thread w <> NotStarted -> events_file w <> None ->
  halted (after_grace g env w).
Proof.
  intros Hr Hf. unfold after_grace.
  apply backgrounds_keeps.
  - intros; apply background_keeps_halted; auto.
  - unfold halted, stopped. destruct w; cbn in *. auto.
Qed.

(** [stop_recording] when the flag is up: the grace delay, then the
    close-down. *)
Lemma stop_recording_eq env g w :
  _is_recording w = true -> events_file w <> None ->
  run_thread w <> NotStarted ->
  Recorder.stop_recording g env w =
  (Ok tt, snd (Recorder.close_down env (after_grace g env w))).
Proof.
  intros Hrec Hf Hr.
  destruct (after_grace_halted env g w Hr Hf) as [_ Hf'].
  destruct (close_down_spec env _ Hf') as (t & E & _).
  unfold Recorder.stop_recording, Recorder.grace_delay.
  unfold bind at 1. unfold read at 1. rewrite Hrec. cbn [when].
  unfold bind at 1. unfold modify at 1.
  unfold try_except, bind at 1. unfold bind at 1. unfold time_sleep, modify.
  fold (after_grace g env w).
  destruct (Recorder.close_down env (after_grace g env w)) as [[[]|e] w'];
    cbn in *; congruence.
Qed.

Lemma pause_recording_no_op env w :
  _is_paused w = true \/ _is_recording w = false ->
  Recorder.pause_recording env w = (Ok tt, w).
Proof.
  intros H. unfold Recorder.pause_recording, Recorder.accepting. unfold_monad.
  destruct H as [H|H]; rewrite H; cbn; try reflexivity.
  destruct (_is_paused w); reflexivity.
Qed.

Lemma resume_recording_no_op env w :
  _is_paused w = false \/ _is_recording w = false ->
  Recorder.resume_recording env w = (Ok tt, w).
Proof.
  intros H. unfold Recorder.resume_recording. unfold_monad.
  destruct H as [H|H]; rewrite H; cbn; try reflexivity.
  destruct (_is_paused w); reflexivity.
Qed.

Lemma stop_recording_no_op env g w :
  _is_recording w = false ->
  Recorder.stop_recording g env w = (Ok tt, w).
Proof.
  intros H. unfold Recorder.stop_recording. unfold_monad.
  rewrite H. reflexivity.
Qed.

Lemma pause_recording_sets_paused env w :
  _is_recording w = true ->
  _is_paused (snd (Recorder.pause_recording env w)) = true.
Proof.
  intros H.
  unfold Recorder.pause_recording, Recorder.accepting,
    OBSClient.pause_recording.
  unfold_monad. rewrite H.
  destruct (_is_paused w) eqn:P; cbn; [assumption|].
  destruct (faults env _ _); cbn; reflexivity.
Qed.

Lemma pause_recording_keeps_recording env w :
  _is_recording (snd (Recorder.pause_recording env w)) = _is_recording w.
Proof.
  unfold Recorder.pause_recording, Recorder.accepting,
    OBSClient.pause_recording.
  unfold_monad.
  destruct (_is_paused w) eqn:P, (_is_recording w) eqn:R; cbn;
    rewrite ?R; try reflexivity.
  destruct (faults env _ _); cbn; assumption.
Qed.

Lemma stop_recording_lowers_flag env g w :
  (_is_recording w = true ->
   events_file w <> None /\ run_thread w <> NotStarted) ->
  _is_recording (snd (Recorder.stop_recording g env w)) = false.
Proof.
  intros H. destruct (_is_recording w) eqn:R.
  - destruct (H eq_refl) as [Hf Hr].
    rewrite (stop_recording_eq env g w R Hf Hr). cbn.
    destruct (after_grace_halted env g w Hr Hf) as [[Hs _] Hf'].
    destruct (close_down_spec env _ Hf') as (t & _ & _ & _ & _ & E & _).
    congruence.
  - rewrite stop_recording_no_op; auto.
Qed.


(** C10.  Lifecycle calls made in the wrong state change nothing - not the
    flags, the queue, the log or the trace of calls - and so a repeated
    Pause or Stop is one Pause or Stop. *)
Theorem wrong_state_calls_are_no_ops :
  (forall env w,
     _is_paused w = true \/ _is_recording w = false ->
     Recorder.pause_recording env w = (Ok tt, w))
  /\ (forall env w,
        _is_paused w = false \/ _is_recording w = false ->
        Recorder.resume_recording env w = (Ok tt, w))
  /\ (forall env g w,
        _is_recording w = false ->
        Recorder.stop_recording g env w = (Ok tt, w))
  /\ (forall env w,
        step Pause env (step Pause env w) = step Pause env w)
  /\ (forall env g g' w,
        (_is_recording w = true ->
         events_file w <> None /\ run_thread w <> NotStarted) ->
        step (Stop g') env (step (Stop g) env w) = step (Stop g) env w).
Proof.
  split; [exact pause_recording_no_op|].
  split; [exact resume_recording_no_op|].
  split; [exact stop_recording_no_op|].
  split.
  - intros env w. cbn. unfold control.
    remember (snd (Recorder.pause_recording env w)) as w1 eqn:E.
    rewrite pause_recording_no_op; [reflexivity|].
    destruct (_is_recording w) eqn:R.
    + left. subst. apply pause_recording_sets_paused; assumption.
    + right. subst. rewrite pause_recording_keeps_recording. assumption.
  - intros env g g' w H. cbn. unfold control.
    rewrite (stop_recording_no_op env g'); [reflexivity|].
    apply stop_recording_lowers_flag; assumption.
Qed.

(** ** What [stop_recording] releases *)


Lemma quiet_eq {A} (F : World -> A) v :
  tracks F -> quiet (fun w => F w = v).
Proof. intros H x w E. rewrite H. exact E. Qed.

Lemma quiet_and (I J : World -> Prop) :
  quiet I -> quiet J -> quiet (fun w => I w /\ J w).
Proof. intros HI HJ x w [A B]. split; auto. Qed.














Lemma wrong_state_calls_are_no_ops_witness :
  Recorder.pause_recording (calm Linux) (snd (constructed (calm Linux)))
  = (Ok tt, snd (constructed (calm Linux)))
  /\ step (Stop []) (calm Linux) (step (Stop []) (calm Linux) recording_world)
     = step (Stop []) (calm Linux) recording_world.
Proof.
  split.
  - apply (proj1 wrong_state_calls_are_no_ops). right. reflexivity.
  - apply (proj2 (proj2 (proj2 (proj2 wrong_state_calls_are_no_ops)))).
    intros _. split; vm_compute; discriminate.
Defined.

(** ** The writer's turn *)

Lemma hoare_false {A} env (c : M A) Q E :
  hoare env (fun _ => False) c Q E.
Proof. intros w []. Qed.

Lemma hoare_when env P b c (Q : unit -> World -> Prop) E :
  (b = true -> hoare env P c Q E) ->
  (b = false -> forall w, P w -> Q tt w) ->
  hoare env P (when b c) Q E.
Proof.
  intros Ht Hf. destruct b; cbn.
  - apply Ht; reflexivity.
  - apply hoare_ret. apply Hf; reflexivity.
Qed.

Lemma hoare_write_record env e (P : World -> Prop) Q E :
  reliable_log env ->
  (forall w, P w -> log_open w = true) ->
  (forall w f, P w -> events_file w = Some f -> closed f = false ->
     Q tt (emit (Called (file_flush (Some e)) None)
             (set_events_file (Some (mkFile (lines f ++ [e]) false))
                (emit (Called (file_write e) None) w)))) ->
  hoare env P (write_record e) Q E.
Proof.
  intros Hrel Ho HQ w Hw. unfold write_record, bind.
  rewrite events_file_write_eq. specialize (Ho w Hw). unfold log_open in Ho.
  destruct (events_file w) as [f|] eqn:Hf; [|discriminate].
  destruct (closed f) eqn:Hc; [discriminate|].
  rewrite (proj1 (Hrel _ _)). rewrite events_file_flush_eq.
  cbn [events_file set_events_file emit closed trace].
  rewrite (proj2 (Hrel _ _)). apply (HQ w f); auto.
Qed.

Lemma hoare_locals env (P : World -> Prop) Q E :
  (forall w, P w -> exists l, run_thread w = Looping l) ->
  (forall w l, P w -> run_thread w = Looping l -> Q l w) ->
  hoare env P Recorder.locals Q E.
Proof.
  intros Hl HQ w Hw. unfold Recorder.locals, bind, read.
  destruct (Hl w Hw) as [l E']. rewrite E'. cbn. auto.
Qed.

Lemma hoare_queue_get env (P : World -> Prop) Q E :
  (forall w, P w ->
     match event_queue w with
     | [] => E Empty w
     | e :: q => Q e (emit (Got e) (set_event_queue q w))
     end) ->
  hoare env P queue_get Q E.
Proof.
  intros H w Hw. rewrite queue_get_eq. specialize (H w Hw).
  destruct (event_queue w); auto.
Qed.

Lemma writing_emit L q x w : writing L q w -> writing L q (emit x w).
Proof. unfold writing, log, log_open. destruct w; cbn. auto. Qed.

Lemma writing_assign L q f w :
  writing L q w ->
  writing L q
    match run_thread w with
    | Looping l => set_run_thread (Looping (f l)) w
    | _ => w
    end.
Proof.
  unfold writing, log, log_open. destruct w; cbn.
  intros (D & O & Q & l & R). subst. cbn. eauto 8.
Qed.

Lemma writing_step L q w : writing L q w -> exists l, run_thread w = Looping l.
Proof. intros (_ & _ & _ & H). exact H. Qed.

Lemma writing_open L q w : writing L q w -> log_open w = true.
Proof. intros (_ & H & _). exact H. Qed.

Lemma writing_wrote_direct L q w f d x1 x2 :
  writing L q w -> events_file w = Some f ->
  has_action "direct_sentinel" d = true ->
  writing L q
    (emit x2 (set_events_file (Some (mkFile (lines f ++ [d]) false))
                (emit x1 w))).
Proof.
  intros ((ds & D & F) & O & Q & R) Hf Hd.
  unfold writing, log, log_open in *. destruct w; cbn in *. subst.
  cbn in *. split; [|auto].
  exists (ds ++ [d]). rewrite D, app_assoc. split; [reflexivity|].
  rewrite forallb_app, F. cbn. rewrite Hd. reflexivity.
Qed.

Lemma writing_wrote_event L q w f e x1 x2 :
  writing L q w -> events_file w = Some f ->
  exists d,
    writing (L ++ d ++ [e]) q
      (emit x2 (set_events_file (Some (mkFile (lines f ++ [e]) false))
                  (emit x1 w)))
    /\ forallb (has_action "direct_sentinel") d = true.
Proof.
  intros ((ds & D & F) & O & Q & R) Hf.
  exists ds. split; [|assumption].
  unfold writing, log, log_open in *. destruct w; cbn in *. subst.
  cbn in *. split; [|auto].
  exists []. rewrite D, app_nil_r, <- app_assoc. auto.
Qed.

Lemma writing_got L e q w :
  writing L (e :: q) w -> writing L q (emit (Got e) (set_event_queue q w)).
Proof.
  unfold writing, log, log_open. destruct w; cbn. intros (D & O & Q & R).
  auto.
Qed.

(** A turn of the loop on a queue that holds [e] first: under a reliable
    log it writes [e], after a direct sentinel if one is due, and leaves
    the rest of the queue. *)
Lemma run_iteration_writes_head env now L e q :
  reliable_log env ->
  hoare env (writing L (e :: q)) (Recorder.run_iteration now)
    (fun _ w => exists d, writing (L ++ d ++ [e]) q w
                /\ forallb (has_action "direct_sentinel") d = true)
    (fun _ _ => False).
Proof.
  intros Hrel. unfold Recorder.run_iteration.
  apply hoare_try_except with (R := fun _ _ => False);
    [|intros; apply hoare_false].
  apply hoare_bind with (R := fun _ => writing L (e :: q)).
  { apply hoare_locals; [apply writing_step|auto]. }
  intros l.
  apply hoare_bind with (R := fun _ => writing L (e :: q)).
  { apply hoare_when; [intros _|auto].
    apply hoare_bind with (R := fun _ => writing L (e :: q)).
    { apply hoare_perf_counter; auto. }
    intros ts.
    apply hoare_bind with (R := fun _ => writing L (e :: q)).
    - apply hoare_write_record; [assumption|apply writing_open|].
      intros w f H Hf Hc. apply writing_wrote_direct; auto.
    - intros []. apply hoare_modify. intros w. apply writing_assign. }
  intros [].
  apply hoare_try_except with (R := fun _ _ => False);
    [|intros; apply hoare_false].
  apply hoare_bind with
    (R := fun e' w => e' = e /\ writing L q w).
  { apply hoare_queue_get. intros w H.
    pose proof H as (_ & _ & Q & _). rewrite Q. split; [reflexivity|].
    apply writing_got; assumption. }
  intros e'.
  apply hoare_bind with
    (R := fun _ w => exists d, writing (L ++ d ++ [e]) q w
                     /\ forallb (has_action "direct_sentinel") d = true).
  { apply hoare_write_record;
      [assumption|intros w [_ H]; eapply writing_open; eauto|].
    intros w f (-> & H) Hf Hc. apply writing_wrote_event; auto. }
  intros [].
  apply hoare_bind with
    (R := fun _ w => exists d, writing (L ++ d ++ [e]) q w
                     /\ forallb (has_action "direct_sentinel") d = true).
  { apply hoare_locals.
    - intros w (d & H & _). eapply writing_step; eauto.
    - auto. }
  intros l'.
  apply hoare_bind with
    (R := fun _ w => exists d, writing (L ++ d ++ [e]) q w
                     /\ forallb (has_action "direct_sentinel") d = true).
  - apply hoare_modify. intros w (d & H & F). exists d. split; auto.
    apply writing_assign; auto.
  - intros []. apply hoare_modify. intros w (d & H & F). exists d.
    split; auto. apply writing_assign; auto.
Qed.

Lemma run_iteration_keeps_flag env b now :
  keeps env (fun w => _is_recording w = b) (Recorder.run_iteration now).
Proof.
  keeps_auto; try (apply quiet_eq; intros ? ?; reflexivity); leaf.
Qed.

Lemma run_turn_writes_head env now L e q w :
  reliable_log env -> _is_recording w = true ->
  writing L (e :: q) w ->
  exists d,
    writing (L ++ d ++ [e]) q
      (Recorder.background (Recorder.RunTurn now) env w)
    /\ forallb (has_action "direct_sentinel") d = true
    /\ _is_recording (Recorder.background (Recorder.RunTurn now) env w)
       = true.
Proof.
  intros Hrel Hrec H. cbn.
  destruct (writing_step H) as [l Hl]. rewrite Hl, Hrec.
  pose proof (run_iteration_writes_head (L:=L) (e:=e) (q:=q) now Hrel) as H1.
  specialize (H1 w H).
  pose proof (@run_iteration_keeps_flag env true now) as H2.
  specialize (H2 w Hrec).
  unfold Recorder.in_run_thread.
  destruct (Recorder.run_iteration now env w) as [[[]|x] w']; [|contradiction].
  destruct H1 as (d & H1 & F). eauto.
Qed.

Lemma pause_recording_eq env w :
  _is_recording w = true -> _is_paused w = false ->
  Recorder.pause_recording env w =
  match faults env (List.length (trace w)) req_pause_record with
  | None =>
      (Ok tt,
       emit (Put (bare_event (perf env (S (List.length (trace w)))) "pause"))
         (set_event_queue
            (event_queue w
             ++ [bare_event (perf env (S (List.length (trace w)))) "pause"])
            (emit (Called req_pause_record None) (set_is_paused true w))))
  | Some e =>
      (Raise e, emit (Called req_pause_record (Some e)) (set_is_paused true w))
  end.
Proof.
  intros Hr Hp.
  unfold Recorder.pause_recording, Recorder.accepting,
    OBSClient.pause_recording.
  unfold_monad. rewrite Hr, Hp. cbn.
  destruct (faults env _ _); cbn; [reflexivity|].
  rewrite length_app. cbn. rewrite Nat.add_1_r. reflexivity.
Qed.

Lemma resume_recording_eq env w :
  _is_recording w = true -> _is_paused w = true ->
  Recorder.resume_recording env w =
  match faults env (List.length (trace w)) req_resume_record with
  | None =>
      (Ok tt,
       emit (Put (bare_event (perf env (S (List.length (trace w)))) "resume"))
         (set_event_queue
            (event_queue w
             ++ [bare_event (perf env (S (List.length (trace w)))) "resume"])
            (emit (Called req_resume_record None) (set_is_paused false w))))
  | Some e =>
      (Raise e,
       emit (Called req_resume_record (Some e)) (set_is_paused false w))
  end.
Proof.
  intros Hr Hp.
  unfold Recorder.resume_recording, OBSClient.resume_recording.
  unfold_monad. rewrite Hr, Hp. cbn.
  destruct (faults env _ _); cbn; [reflexivity|].
  rewrite length_app. cbn. rewrite Nat.add_1_r. reflexivity.
Qed.

Lemma deliver_dropped_while_paused env w i :
  _is_paused w = true -> Recorder.deliver i env w = (Ok tt, w).
Proof.
  intros H.
  destruct i; cbn;
    unfold Recorder.on_move, Recorder.on_click, Recorder.on_scroll,
      Recorder.on_press, Recorder.on_release, Recorder.accepting;
    unfold_monad; rewrite H; reflexivity.
Qed.

Lemma macos_on_input_dropped_while_paused env w now x y b p ty :
  _is_paused w = true ->
  Recorder.macos_on_input now x y b p ty env w = (Ok tt, w).
Proof.
  intros H. unfold Recorder.macos_on_input, Recorder.accepting.
  unfold_monad. rewrite H. reflexivity.
Qed.

Lemma pause_recording_frame env w :
  mouse_listener (snd (Recorder.pause_recording env w)) = mouse_listener w
  /\ keyboard_listener (snd (Recorder.pause_recording env w))
     = keyboard_listener w
  /\ macos_monitor (snd (Recorder.pause_recording env w)) = macos_monitor w
  /\ run_thread (snd (Recorder.pause_recording env w)) = run_thread w
  /\ events_file (snd (Recorder.pause_recording env w)) = events_file w.
Proof.
  destruct (_is_recording w) eqn:R; destruct (_is_paused w) eqn:P;
    try solve [rewrite pause_recording_no_op; auto].
  rewrite pause_recording_eq; auto.
  destruct (faults env _ _); cbn; auto.
Qed.

(** C2 (as amended).  While the session is paused the handlers discard
    what the backend delivers: nothing is enqueued, nothing is written.
    Pausing itself stops neither the backend nor the writer: the listeners,
    the monitor, the run thread and the log file are as before, and a turn
    of the writer still writes the event at the head of the queue. *)
Theorem paused_input_is_dropped :
  (forall env w i,
     _is_paused w = true -> Recorder.deliver i env w = (Ok tt, w))
  /\ (forall env w now x y b p ty,
        _is_paused w = true ->
        Recorder.macos_on_input now x y b p ty env w = (Ok tt, w))
  /\ (forall env w,
        mouse_listener (snd (Recorder.pause_recording env w))
        = mouse_listener w
        /\ keyboard_listener (snd (Recorder.pause_recording env w))
           = keyboard_listener w
        /\ macos_monitor (snd (Recorder.pause_recording env w))
           = macos_monitor w
        /\ run_thread (snd (Recorder.pause_recording env w)) = run_thread w
        /\ events_file (snd (Recorder.pause_recording env w))
           = events_file w)
  /\ (forall env now L e q w,
        reliable_log env -> _is_paused w = true -> _is_recording w = true ->
        writing L (e :: q) w ->
        exists d,
          writing (L ++ d ++ [e]) q
            (Recorder.background (Recorder.RunTurn now) env w)
          /\ forallb (has_action "direct_sentinel") d = true).
Proof.
  split; [exact deliver_dropped_while_paused|].
  split; [exact macos_on_input_dropped_while_paused|].
  split; [exact pause_recording_frame|].
  intros env now L e q w Hrel _ Hrec H.
  destruct (run_turn_writes_head now Hrel Hrec H) as (d & H1 & F & _).
  eauto.
Qed.

(** A paused session on Linux: a move the listener delivers is in neither
    the queue nor the log, also after the writer's next turns. *)
Lemma move_while_paused_is_not_logged :
  _is_paused paused_world = true
  /\ is_running (mouse_listener paused_world) = true
  /\ existsb (has_action "move")
       (event_queue
          (steps [Bg (Recorder.Listener (Recorder.Move 3 4))]
             (calm Linux) paused_world)) = false
  /\ map action_of
       (log (steps [Bg (Recorder.Listener (Recorder.Move 3 4));
                    Bg (Recorder.RunTurn 100); Bg (Recorder.RunTurn 200)]
               (calm Linux) paused_world))
     = ["recording_started"; "input_capture_method";
        "input_listeners_started"; "heartbeat"; "pause"].
Proof. vm_compute. repeat split; reflexivity. Qed.

Lemma paused_input_is_dropped_witness :
  Recorder.deliver (Recorder.Move 3 4) (calm Linux) paused_world
  = (Ok tt, paused_world).
Proof.
  apply (proj1 paused_input_is_dropped). reflexivity.
Defined.

Lemma writing_enqueued L q w e b x :
  writing L q w ->
  writing L (q ++ [e])
    (emit (Put e)
       (set_event_queue (event_queue w ++ [e]) (emit x (set_is_paused b w)))).
Proof.
  unfold writing, log, log_open. destruct w; cbn.
  intros (D & O & Q & R). subst. auto.
Qed.

(** C3 (as amended).  Pause then Resume, with no input in between: when
    the client's pause and resume calls return, the queue gains one
    [pause] and one [resume] record in that order, and (queue empty before,
    log writable) the writer's next two turns write exactly these two, in
    that order, with nothing but direct sentinels around them.  When the
    client's call raises, the exception leaves the method before the
    record is built: Pause, or Resume, enqueues nothing. *)
Theorem pause_then_resume_records :
  (forall env w L t1 t2,
     _is_recording w = true -> _is_paused w = false ->
     (forall n, faults env n req_pause_record = None) ->
     (forall n, faults env n req_resume_record = None) ->
     reliable_log env -> writing L [] w ->
     exists p r d1 d2,
       action_of p = "pause" /\ action_of r = "resume"
       /\ event_queue (steps [Pause; Resume] env w) = [p; r]
       /\ writing (L ++ d1 ++ [p] ++ d2 ++ [r]) []
            (steps [Pause; Resume; Bg (Recorder.RunTurn t1);
                    Bg (Recorder.RunTurn t2)] env w)
       /\ forallb (has_action "direct_sentinel") (d1 ++ d2) = true)
  /\ (forall env w e,
        _is_recording w = true -> _is_paused w = false ->
        faults env (List.length (trace w)) req_pause_record = Some e ->
        Recorder.pause_recording env w
        = (Raise e,
           emit (Called req_pause_record (Some e)) (set_is_paused true w)))
  /\ (forall env w e,
        _is_recording w = true -> _is_paused w = true ->
        faults env (List.length (trace w)) req_resume_record = Some e ->
        Recorder.resume_recording env w
        = (Raise e,
           emit (Called req_resume_record (Some e)) (set_is_paused false w))).
Proof.
  split; [|split].
  - intros env w L t1 t2 Hrec Hp Hpa Hre Hrel H.
    pose proof H as (_ & _ & Q & _).
    cbn [steps fold_left step]. unfold control.
    rewrite (pause_recording_eq env w Hrec Hp), Hpa. cbn [snd].
    set (p := bare_event (perf env (S (List.length (trace w)))) "pause").
    set (w1 := emit (Put p) _).
    assert (H1 : writing L [p] w1).
    { rewrite <- (app_nil_l [p]). apply writing_enqueued. assumption. }
    assert (R1 : _is_recording w1 = true) by (destruct w; exact Hrec).
    assert (P1 : _is_paused w1 = true) by (destruct w; reflexivity).
    rewrite (resume_recording_eq env w1 R1 P1), Hre. cbn [snd].
    set (r := bare_event (perf env (S (List.length (trace w1)))) "resume").
    set (w2 := emit (Put r) _).
    assert (H2 : writing L [p; r] w2).
    { change [p; r] with ([p] ++ [r]). apply writing_enqueued. assumption. }
    assert (R2 : _is_recording w2 = true) by (destruct w; exact Hrec).
    assert (Q2 : event_queue w2 = [p; r]).
    { destruct H2 as (_ & _ & Q2 & _). exact Q2. }
    destruct (run_turn_writes_head t1 Hrel R2 H2) as (d1 & H3 & F1 & R3).
    destruct (run_turn_writes_head t2 Hrel R3 H3) as (d2 & H4 & F2 & R4).
    exists p, r, d1, d2.
    split; [reflexivity|]. split; [reflexivity|]. split; [exact Q2|].
    split.
    + rewrite <- !app_assoc in H4. exact H4.
    + rewrite forallb_app, F1, F2. reflexivity.
  - intros env w e Hrec Hp Hf. rewrite pause_recording_eq, Hf; auto.
  - intros env w e Hrec Hp Hf. rewrite resume_recording_eq, Hf; auto.
Qed.

(** The client's pause raises: after Pause, Resume and two turns of the
    writer the log has gained a [resume] record and no [pause] record. *)
Lemma pause_record_missing_when_client_raises :
  map action_of
    (log (steps [Bg (Recorder.RunStarts 0); Pause; Resume;
                 Bg (Recorder.RunTurn 100); Bg (Recorder.RunTurn 200)]
            pause_fails (snd (constructed pause_fails))))
  = map action_of
      (log (steps [Bg (Recorder.RunStarts 0)]
              pause_fails (snd (constructed pause_fails))))
    ++ ["resume"]
  /\ event_queue
       (steps [Bg (Recorder.RunStarts 0); Pause; Resume;
               Bg (Recorder.RunTurn 100); Bg (Recorder.RunTurn 200)]
          pause_fails (snd (constructed pause_fails))) = [].
Proof. vm_compute. split; reflexivity. Qed.

Lemma recording_world_writing :
  writing (log recording_world) [] recording_world.
Proof.
  unfold writing. split.
  - exists []. rewrite app_nil_r. split; reflexivity.
  - split; [reflexivity|]. split; [reflexivity|].
    vm_compute. eexists. reflexivity.
Qed.

Lemma calm_reliable sys : reliable_log (calm sys).
Proof. intros n e. split; reflexivity. Qed.

Lemma pause_then_resume_records_witness :
  exists p r d1 d2,
    action_of p = "pause" /\ action_of r = "resume"
    /\ event_queue (steps [Pause; Resume] (calm Linux) recording_world)
       = [p; r]
    /\ writing (log recording_world ++ d1 ++ [p] ++ d2 ++ [r]) []
         (steps [Pause; Resume; Bg (Recorder.RunTurn 100);
                 Bg (Recorder.RunTurn 200)] (calm Linux) recording_world)
    /\ forallb (has_action "direct_sentinel") (d1 ++ d2) = true.
Proof.
  apply (proj1 pause_then_resume_records).
  - reflexivity.
  - reflexivity.
  - intros n; reflexivity.
  - intros n; reflexivity.
  - apply calm_reliable.
  - apply recording_world_writing.
Defined.

(** ** Backend selection *)

Lemma keeps_call_of env (I : World -> Prop) c :
  (forall r w, I w -> I (emit (Called c r) w)) -> keeps env I (call c).
Proof.
  intros H. apply hoare_call. intros w Hw.
  destruct (faults env _ c); apply H; auto.
Qed.

Lemma keeps_logger_of env (I : World -> Prop) lvl msg :
  (forall w, I w -> I (emit (Logged lvl msg) w)) ->
  keeps env I (logger lvl msg).
Proof. intros H. apply keeps_modify. exact H. Qed.

Lemma keeps_time_sleep_of env (I : World -> Prop) ms :
  (forall w, I w -> I (emit (Called (sleep ms) None) w)) ->
  keeps env I (time_sleep ms).
Proof. intros H. apply keeps_modify. exact H. Qed.

(** As [keeps_rule], for an invariant that some trace entries disturb. *)
Ltac keeps_rule_of :=
  lazymatch goal with
  | |- keeps _ _ (bind _ _) => apply keeps_bind; [ | intros ]
  | |- keeps _ _ (ret _) => apply keeps_ret
  | |- keeps _ _ (raise _) => apply keeps_raise
  | |- keeps _ _ (read _) => apply keeps_read
  | |- keeps _ _ (ask _) => apply keeps_ask
  | |- keeps _ _ perf_counter => apply keeps_perf_counter
  | |- keeps _ _ (try_except_class _ _ _) =>
      apply keeps_try_except_class; [ | intros ]
  | |- keeps _ _ (try_except _ _) => apply keeps_try_except; [ | intros ]
  | |- keeps _ _ (when _ _) => apply keeps_when
  | |- keeps _ _ (call _) => apply keeps_call_of
  | |- keeps _ _ (logger _ _) => apply keeps_logger_of
  | |- keeps _ _ (time_sleep _) => apply keeps_time_sleep_of
  | |- keeps _ _ (modify _) => apply keeps_modify
  | |- keeps _ _ (match ?x with _ => _ end) => destruct x
  | |- keeps _ _ ?c => let h := head_of c in unfold h
  end.

Lemma existsb_trace_emit (f : Effect -> bool) x w :
  existsb f (trace (emit x w)) = existsb f (trace w) || f x.
Proof.
  destruct w; cbn. rewrite existsb_app. cbn. rewrite orb_false_r.
  reflexivity.
Qed.






Lemma hoare_logger env P lvl msg (Q : unit -> World -> Prop) E :
  (forall w, P w -> Q tt (emit (Logged lvl msg) w)) ->
  hoare env P (logger lvl msg) Q E.
Proof. intros H. apply hoare_modify. exact H. Qed.




Lemma keeps_no_raise {A} env (I : World -> Prop) (c : M A) :
  keeps env I c ->
  hoare env (fun _ => True) c (fun _ _ => True) (fun _ _ => False) ->
  hoare env I c (fun _ => I) (fun _ _ => False).
Proof.
  intros H1 H2 w Hw. specialize (H1 w Hw). specialize (H2 w Logic.I).
  destruct (c env w) as [[a|e] w']; auto.
Qed.


(** Proofs that a method returns normally: inside a [try] anything may
    raise, outside nothing does. *)
Ltac total_rule :=
  lazymatch goal with
  | |- hoare _ _ (bind _ _) _ _ =>
      apply hoare_bind with (R := fun _ _ => True); [ | intros ? ]
  | |- hoare _ _ (try_except_class _ _ _) _ _ => unfold try_except_class
  | |- hoare _ _ (try_except _ _) _ _ =>
      apply hoare_try_except with (R := fun _ _ => True); [ | intros ? ]
  | |- hoare _ _ (ret _) _ _ => apply hoare_ret; auto
  | |- hoare _ _ (raise _) _ _ => apply hoare_raise; auto
  | |- hoare _ _ (read _) _ _ => apply hoare_read; auto
  | |- hoare _ _ (ask _) _ _ => apply hoare_ask; auto
  | |- hoare _ _ perf_counter _ _ => apply hoare_perf_counter; auto
  | |- hoare _ _ (modify _) _ _ => apply hoare_modify; auto
  | |- hoare _ _ (logger _ _) _ _ => apply hoare_logger; auto
  | |- hoare _ _ (call ?c) _ (fun _ _ => True) =>
      apply hoare_call; intros ? _; destruct (faults _ _ c); auto
  | |- hoare _ _ (when ?b _) _ _ => destruct b; cbn [when]
  | |- hoare _ _ (match ?x with _ => _ end) _ _ => destruct x
  | |- hoare _ _ ?c _ _ => let h := head_of c in unfold h
  end.










Lemma hoare_pure {A} env (F : Prop) P (c : M A) Q E :
  (F -> hoare env P c Q E) -> hoare env (fun w => F /\ P w) c Q E.
Proof. intros H w [HF Hw]. exact (H HF w Hw). Qed.


Lemma hoare_bind_keeps {A B} env (I : World -> Prop) (c : M A)
  (k : A -> M B) Q :
  keeps env I c ->
  (forall a, hoare env I (k a) Q (fun _ _ => True)) ->
  hoare env I (bind c k) Q (fun _ _ => True).
Proof.
  intros Hc Hk. apply hoare_bind with (R := fun _ => I); auto.
  apply hoare_conseq with (P' := I) (Q' := fun _ => I) (E' := fun _ => I);
    auto.
Qed.















(** ** The fallback monitor *)

Lemma samplings_emit x w :
  samplings (trace (emit x w))
  = (samplings (trace w) + if is_sampling x then 1 else 0)%nat.
Proof.
  unfold samplings. destruct w; cbn. rewrite filter_app, length_app. cbn.
  destruct (is_sampling x); reflexivity.
Qed.

Lemma sampling_emit c mx k x w :
  is_sampling x = false -> sampling c mx k w -> sampling c mx k (emit x w).
Proof.
  intros Hx (m & Hm & Hr & Hc & Hmx & Hk). exists m.
  rewrite samplings_emit, Hx. destruct w; cbn in *. repeat split; auto. lia.
Qed.

Lemma sampling_asked c mx k r w :
  sampling c mx k w ->
  sampling c mx (S k) (emit (Called osascript_mouse_position r) w).
Proof.
  intros (m & Hm & Hr & Hc & Hmx & Hk). exists m.
  rewrite samplings_emit. destruct w; cbn in *. repeat split; auto. lia.
Qed.

Ltac still_sampling :=
  intros;
  first [ apply sampling_emit;
          [ first [ reflexivity
                  | match goal with
                    | |- is_sampling (Called _ ?r) = false =>
                        destruct r; reflexivity
                    end ]
          | assumption ]
        | match goal with
          | H : sampling _ _ _ ?w |- sampling _ _ _ _ =>
              let m := fresh "m" in
              destruct H as (m & ? & ? & ? & ? & ?); exists m;
              destruct w; cbn in *; repeat split; assumption
          end ].

(** [_get_mouse_position] asks once and returns, whatever the sample. *)
Lemma get_mouse_position_spec env c mx k s :
  hoare env (sampling c mx k) (MacOSInputMonitor._get_mouse_position s)
    (fun _ => sampling c mx (S k)) (fun _ _ => False).
Proof.
  unfold MacOSInputMonitor._get_mouse_position.
  apply hoare_try_except with (R := fun _ => sampling c mx (S k)).
  - destruct s as [e|returncode parts].
    + apply hoare_bind with (R := fun _ => sampling c mx (S k)).
      * apply hoare_modify. intros. apply sampling_asked; auto.
      * intros. apply hoare_raise. auto.
    + apply hoare_bind with (R := fun _ => sampling c mx (S k)).
      * apply hoare_modify. intros. apply sampling_asked; auto.
      * intros.
        destruct (negb (returncode =? 0)).
        { apply hoare_bind with (R := fun _ => sampling c mx (S k)).
          - apply hoare_logger. still_sampling.
          - intros. apply hoare_ret. auto. }
        destruct parts as [|[x|] [|[y|] [|? ?]]];
          first [ apply hoare_ret; solve [auto]
                | apply hoare_raise; solve [auto] ].
  - intros e. apply hoare_bind with (R := fun _ => sampling c mx (S k)).
    + apply hoare_logger. still_sampling.
    + intros. apply hoare_ret. auto.
Qed.

Lemma macos_on_input_returns env now x y b p ty :
  hoare env (fun _ => True) (Recorder.macos_on_input now x y b p ty)
    (fun _ _ => True) (fun _ _ => False).
Proof. repeat total_rule. Qed.

Lemma macos_on_input_keeps_sampling env c mx k now x y b p ty :
  hoare env (sampling c mx k) (Recorder.macos_on_input now x y b p ty)
    (fun _ => sampling c mx k) (fun _ _ => False).
Proof.
  apply keeps_no_raise; [|apply macos_on_input_returns].
  repeat keeps_rule_of; try solve [still_sampling].
Qed.

Lemma hoare_self env (P : World -> Prop) Q E :
  (forall w, P w -> exists m, macos_monitor w = Some m /\ Q m w) ->
  hoare env P MacOSInputMonitor.self Q E.
Proof.
  intros H w Hw. destruct (H w Hw) as (m & Hm & HQ).
  unfold MacOSInputMonitor.self, bind, read, ret. rewrite Hm. exact HQ.
Qed.

Lemma update_keeps_sampling env c mx k t :
  hoare env (sampling c mx k)
    (MacOSInputMonitor.update (MacOSInputMonitor.set_last_sentinel_time t))
    (fun _ => sampling c mx k) (fun _ _ => False).
Proof.
  apply hoare_modify. intros w (m & Hm & Hr & Hc & Hmx & Hk).
  rewrite Hm. exists (MacOSInputMonitor.set_last_sentinel_time t m).
  destruct w, m; cbn in *. repeat split; auto.
Qed.

(** A turn of the monitor below its limit asks for the position once and
    leaves the counter as it is, whatever the sample. *)
Lemma run_monitor_samples env c mx k now s :
  c < mx ->
  hoare env (sampling c mx k)
    (MacOSInputMonitor._run_monitor (Some Recorder.macos_on_input) now s)
    (fun _ => sampling c mx (S k)) (fun _ _ => False).
Proof.
  intros Hlt. unfold MacOSInputMonitor._run_monitor.
  apply hoare_try_except with (R := fun _ _ => False);
    [|intros; apply hoare_false].
  apply hoare_bind with
    (R := fun m w => sampling c mx k w
                     /\ permission_check_count m = c
                     /\ max_permission_checks m = mx).
  { apply hoare_self. intros w H. pose proof H as (m & Hm & Hr & Hc & Hmx & Hk).
    exists m. auto. }
  intros m. apply hoare_conseq with
    (P' := fun w => (permission_check_count m = c
                     /\ max_permission_checks m = mx) /\ sampling c mx k w)
    (Q' := fun _ => sampling c mx (S k)) (E' := fun _ _ => False); auto.
  2:{ intros w (? & ? & ?). auto. }
  apply hoare_pure. intros [Hc Hmx].
  apply hoare_bind with (R := fun _ => sampling c mx (S k)).
  { replace (permission_check_count m <? max_permission_checks m) with true
      by (symmetry; apply Z.ltb_lt; lia).
    cbn [when].
    apply hoare_try_except with (R := fun _ _ => False);
      [|intros; apply hoare_false].
    apply hoare_bind with (R := fun _ => sampling c mx (S k));
      [apply get_mouse_position_spec|].
    intros xy. apply hoare_when; auto.
    intros _. apply macos_on_input_keeps_sampling. }
  intros [].
  apply hoare_bind with (R := fun _ => sampling c mx (S k)).
  { apply hoare_self. intros w H. pose proof H as (m' & Hm' & _).
    exists m'. auto. }
  intros m'.
  apply hoare_bind with (R := fun _ => sampling c mx (S k)).
  { apply hoare_when; auto. intros _.
    apply hoare_bind with (R := fun _ => sampling c mx (S k)).
    - apply macos_on_input_keeps_sampling.
    - intros. apply update_keeps_sampling. }
  intros []. apply hoare_modify. still_sampling.
Qed.

Lemma monitor_turn_samples env c mx k now s w :
  c < mx -> sampling c mx k w ->
  sampling c mx (S k) (Recorder.background (Recorder.MonitorTurn now s) env w).
Proof.
  intros Hlt H. pose proof H as (m & Hm & Hr & _).
  cbn [Recorder.background]. rewrite Hm, Hr. unfold Recorder.in_thread.
  pose proof (@run_monitor_samples env c mx k now s Hlt w H) as Hs.
  destruct (MacOSInputMonitor._run_monitor _ now s env w) as [[[]|e] w'];
    [exact Hs|destruct Hs].
Qed.

(** C6.  The monitor does not give up sampling: a turn that starts below
    the limit asks for the pointer position, and whatever comes of it
    (the subprocess raises, fails, prints nothing or something
    unreadable), the failure counter stays as it is, so that every later
    turn asks again. *)
Theorem monitor_never_stops_sampling env turns c mx k w :
  c < mx -> sampling c mx k w ->
  sampling c mx (k + List.length turns)
    (Recorder.backgrounds (monitor_turns turns) env w).
Proof.
  intros Hlt. revert k w.
  induction turns as [|[now s] turns IH]; intros k w H.
  - cbn. rewrite Nat.add_0_r. exact H.
  - cbn [monitor_turns map Recorder.backgrounds fold_left List.length fst snd].
    rewrite Nat.add_succ_r. apply (IH (S k)).
    apply monitor_turn_samples; assumption.
Qed.

Lemma monitor_never_stops_sampling_witness :
  0 < 3
  /\ sampling 0 3 0 fallback_session
  /\ sampling 0 3 (0 + 4)
       (Recorder.backgrounds (monitor_turns four_failures)
          darwin_listener_failure fallback_session).
Proof.
  assert (H : sampling 0 3 0 fallback_session).
  { eexists. vm_compute. repeat split; reflexivity. }
  split; [lia|]. split; [exact H|].
  apply (@monitor_never_stops_sampling darwin_listener_failure four_failures
           0 3 0%nat fallback_session); [lia|exact H].
Defined.

(** Four turns in which [subprocess.run] raises: the position is asked for
    in each of them, the fourth included, and the counter is still 0. *)
Lemma fourth_failure_is_still_sampled :
  samplings
    (trace (Recorder.backgrounds (monitor_turns four_failures)
              darwin_listener_failure fallback_session)) = 4%nat
  /\ option_map permission_check_count
       (macos_monitor
          (Recorder.backgrounds (monitor_turns four_failures)
             darwin_listener_failure fallback_session)) = Some 0.
Proof. vm_compute. split; reflexivity. Qed.

(** ** What the writer's thread owns *)

Lemma quiet_frame f r b : quiet (frame f r b).
Proof. unfold frame. leaf. Qed.

Lemma deliver_keeps_frame env f r b i :
  keeps env (frame f r b) (Recorder.deliver i).
Proof.
  destruct i; cbn; keeps_auto; try apply quiet_frame; unfold frame; leaf.
Qed.

Lemma run_monitor_keeps_frame env f r b now s :
  keeps env (frame f r b)
    (MacOSInputMonitor._run_monitor (Some Recorder.macos_on_input) now s).
Proof.
  unfold MacOSInputMonitor._run_monitor.
  keeps_auto; try apply quiet_frame; unfold frame; leaf.
Qed.

Lemma pause_recording_keeps_frame env f r b :
  keeps env (frame f r b) Recorder.pause_recording.
Proof. keeps_auto; try apply quiet_frame; unfold frame; leaf. Qed.

Lemma resume_recording_keeps_frame env f r b :
  keeps env (frame f r b) Recorder.resume_recording.
Proof. keeps_auto; try apply quiet_frame; unfold frame; leaf. Qed.

Lemma keeps_writer_only {A} env (I : World -> Prop) (c : M A) :
  (forall f r b, keeps env (frame f r b) c) ->
  writer_only I -> keeps env I c.
Proof.
  intros Hk HI w Hw.
  specialize (Hk (events_file w) (run_thread w) (_is_recording w) w).
  unfold frame in Hk.
  destruct (c env w) as [[a|e] w'];
    destruct Hk as (F & R & B); auto; apply (HI w w'); auto.
Qed.

(** ** The writer's thread and the shape of the log *)

Lemma begins_app l l' : begins l -> begins (l ++ l').
Proof. intros (s & rest & -> & H). exists s, (rest ++ l'). auto. Qed.

Lemma begins_ended l e :
  begins l -> action_of e = "recording_ended" -> bracketed (l ++ [e]).
Proof. intros (s & rest & -> & H) He. exists s, rest, e. auto. Qed.

Ltac in_loop_leaf :=
  unfold quiet, in_session, finished, in_loop, log_open, log; intros;
  repeat match goal with w : World |- _ => destruct w end; cbn in *;
  repeat match goal with
         | H : _ /\ _ |- _ => destruct H
         | H : exists _, _ |- _ => destruct H
         end;
  repeat (match goal with
          | |- context [match ?x with _ => _ end] =>
              is_var x; destruct x; cbn in *
          | H : context [match ?x with _ => _ end] |- _ =>
              is_var x; destruct x; cbn in *
          end);
  repeat match goal with
         | H : Some _ = Some _ |- _ => injection H as H
         end;
  subst; cbn in *;
  repeat match goal with
         | H : closed ?f = _ |- _ => rewrite H in *; clear H
         end;
  cbn in *;
  try solve [ intuition (try congruence); eauto using begins_app ].

Lemma hoare_write_marker env e (P : World -> Prop) Q E :
  markers_written env -> is_marker e = true ->
  (forall w, P w -> log_open w = true) ->
  (forall w f, P w -> events_file w = Some f -> closed f = false ->
     Q tt (emit (Called (file_flush (Some e)) None)
             (set_events_file (Some (mkFile (lines f ++ [e]) false))
                (emit (Called (file_write e) None) w)))) ->
  hoare env P (write_record e) Q E.
Proof.
  intros (_ & _ & Hm) He Ho HQ w Hw. unfold write_record, bind.
  rewrite events_file_write_eq. specialize (Ho w Hw). unfold log_open in Ho.
  destruct (events_file w) as [f|] eqn:Hf; [|discriminate].
  destruct (closed f) eqn:Hc; [discriminate|].
  rewrite (proj1 (Hm _ e He)). rewrite events_file_flush_eq.
  cbn [events_file set_events_file emit closed trace].
  rewrite (proj2 (Hm _ e He)). apply (HQ w f); auto.
Qed.

Lemma hoare_call_ok env P c (Q : unit -> World -> Prop) E :
  (forall n, faults env n c = None) ->
  (forall w, P w -> Q tt (emit (Called c None) w)) ->
  hoare env P (call c) Q E.
Proof. intros Hc H. apply hoare_call. intros w Hw. rewrite Hc. auto. Qed.

Lemma run_iteration_returns env now :
  hoare env (fun _ => True) (Recorder.run_iteration now)
    (fun _ _ => True) (fun _ _ => False).
Proof. repeat total_rule. Qed.

Lemma run_iteration_keeps_in_loop env b now :
  hoare env (fun w => _is_recording w = b /\ in_loop w)
    (Recorder.run_iteration now)
    (fun _ w => _is_recording w = b /\ in_loop w) (fun _ _ => False).
Proof.
  apply keeps_no_raise; [|apply run_iteration_returns].
  keeps_auto; in_loop_leaf.
Qed.

Lemma quiet_in_loop b : quiet (fun w => _is_recording w = b /\ in_loop w).
Proof. in_loop_leaf. Qed.

(** The final record is written whenever the log is open. *)
Lemma run_end_finishes env b :
  markers_written env ->
  hoare env (fun w => _is_recording w = b /\ in_loop w) Recorder.run_end
    (fun _ w => _is_recording w = b /\ finished w) (fun _ _ => False).
Proof.
  intros Hm. unfold Recorder.run_end.
  apply hoare_bind with (R := fun _ w => _is_recording w = b /\ in_loop w);
    [apply hoare_perf_counter; auto|intros ts].
  apply hoare_bind with
    (R := fun _ w => _is_recording w = b /\ bracketed (log w)).
  - apply hoare_try_except with (R := fun _ _ => False);
      [|intros; apply hoare_false].
    apply hoare_write_marker; auto.
    + intros w [_ [H _]]. exact H.
    + intros w f (B & O & _ & G) Hf Hc. split.
      * destruct w; exact B.
      * unfold log in *. rewrite Hf in G. destruct w; cbn in *.
        apply begins_ended; auto.
  - intros []. apply hoare_modify. intros w [B H]. split.
    + destruct w; exact B.
    + split; [destruct w; reflexivity|].
      unfold log in *. destruct w; exact H.
Qed.

Lemma start_listeners_keeps_in_loop env now method :
  keeps env (fun w => _is_recording w = true /\ in_loop w)
    (Recorder.start_listeners now method).
Proof. keeps_auto; in_loop_leaf. Qed.

(** [run], up to its loop: the first record is written; if the guarded
    part raises, the final record follows at once. *)
Lemma run_begin_begins env now :
  markers_written env ->
  hoare env fresh (Recorder.run_begin now)
    (fun _ => in_session true) (fun _ _ => False).
Proof.
  intros Hm. pose proof Hm as (Hcollect & Hstart & _).
  unfold Recorder.run_begin.
  apply hoare_bind with
    (R := fun _ w => fresh w /\ _is_recording w = true).
  { apply hoare_modify. unfold fresh. intros w [R F]. destruct w; cbn in *.
    auto. }
  intros [].
  apply hoare_bind with
    (R := fun _ w => fresh w /\ _is_recording w = true).
  { apply hoare_call_ok; auto; unfold fresh; intros w H; destruct w; exact H. }
  intros []. unfold OBSClient.start_recording.
  apply hoare_bind with
    (R := fun _ w => fresh w /\ _is_recording w = true).
  { apply hoare_call_ok; auto; unfold fresh; intros w H; destruct w; exact H. }
  intros [].
  apply hoare_bind with
    (R := fun _ w => fresh w /\ _is_recording w = true);
    [apply hoare_perf_counter; auto|intros ts].
  set (S := fun w => run_thread w = NotStarted /\ _is_recording w = true
                     /\ log_open w = true /\ begins (log w)).
  apply hoare_bind with (R := fun _ => S).
  { apply hoare_write_marker; auto.
    - unfold fresh, log_open. intros w [[_ F] _]. rewrite F. reflexivity.
    - unfold fresh, S, log_open, log. intros w f [[R F] B] Hf Hc.
      destruct w; cbn in *. repeat split; auto.
      rewrite F in Hf. injection Hf as <-. cbn.
      exists (bare_event ts "recording_started"), []. auto. }
  intros [].
  apply hoare_bind with (R := fun _ => S); [apply hoare_ask; auto|intros sys].
  apply hoare_bind with (R := fun _ => S);
    [apply hoare_read; auto|intros method].
  apply hoare_bind with (R := fun _ => S);
    [apply hoare_perf_counter; auto|intros ts'].
  apply hoare_bind with (R := fun _ => S).
  { apply hoare_write_marker; auto.
    - intros w (_ & _ & O & _). exact O.
    - unfold S, log_open, log. intros w f (R & B & O & G) Hf Hc.
      rewrite Hf in G. destruct w; cbn in *. repeat split; auto.
      apply begins_app; auto. }
  intros [].
  apply hoare_bind with
    (R := fun _ w => _is_recording w = true /\ in_loop w).
  { apply hoare_modify. unfold S, in_loop, log_open, log.
    intros w (R & B & O & G). destruct w; cbn in *. eauto 6. }
  intros [].
  apply hoare_try_except with
    (R := fun _ w => _is_recording w = true /\ in_loop w).
  - apply hoare_conseq with
      (P' := fun w => _is_recording w = true /\ in_loop w)
      (Q' := fun _ w => _is_recording w = true /\ in_loop w)
      (E' := fun _ w => _is_recording w = true /\ in_loop w); auto.
    2:{ intros _ w [B H]. split; auto. }
    apply keeps_bind; [apply start_listeners_keeps_in_loop|intros].
    keeps_auto; in_loop_leaf.
  - intros e.
    apply hoare_bind with
      (R := fun _ w => _is_recording w = true /\ in_loop w).
    + apply hoare_logger. apply quiet_in_loop.
    + intros [].
      apply hoare_conseq with
        (P' := fun w => _is_recording w = true /\ in_loop w)
        (Q' := fun _ w => _is_recording w = true /\ finished w)
        (E' := fun _ _ => False);
        [apply run_end_finishes; auto|auto| |auto].
      intros _ w [B F]. split; auto.
Qed.

Lemma in_session_writer_only b : writer_only (in_session b).
Proof.
  intros w w' F R B H.
  unfold in_session, in_loop, finished, log_open, log in *.
  rewrite F, R, B. exact H.
Qed.

Lemma done_writer_only b :
  writer_only (fun w => _is_recording w = b /\ finished w).
Proof.
  intros w w' F R B H. unfold finished, log in *. rewrite F, R, B. exact H.
Qed.

Lemma in_session_started b w : in_session b w -> run_thread w <> NotStarted.
Proof.
  intros [_ [(_ & [l R] & _)|[R _]]]; rewrite R; discriminate.
Qed.

Lemma in_session_looping b w l :
  in_session b w -> run_thread w = Looping l -> in_loop w.
Proof. intros [_ [H|[R _]]] E; [exact H|congruence]. Qed.

Lemma in_session_file b w : in_session b w -> events_file w <> None.
Proof.
  unfold in_session, in_loop, finished, bracketed, log_open, log.
  intros [_ [(O & _)|(_ & s & body & e & L & _)]] E; rewrite E in *;
    discriminate.
Qed.

(** No other thread takes the session out of its course. *)
Lemma background_keeps_in_session env b bg w :
  markers_written env ->
  in_session b w -> in_session b (Recorder.background bg env w).
Proof.
  intros Hm. revert bg w. apply background_keeps.
  - intros now w H E. apply in_session_started in H. contradiction.
  - intros now w l H E R. pose proof (in_session_looping H E) as L.
    destruct H as [B _].
    pose proof (@run_iteration_keeps_in_loop env b now w (conj B L)) as K.
    unfold Recorder.in_run_thread.
    destruct (Recorder.run_iteration now env w) as [[[]|e] w'];
      [|destruct K].
    destruct K as [B' L']. split; auto.
  - intros w l H E R. pose proof (in_session_looping H E) as L.
    destruct H as [B _].
    pose proof (@run_end_finishes env b Hm w (conj B L)) as K.
    unfold Recorder.in_run_thread.
    destruct (Recorder.run_end env w) as [[[]|e] w']; [|destruct K].
    destruct K as [B' F']. split; auto.
  - intros i. apply keeps_writer_only;
      [intros; apply deliver_keeps_frame|apply in_session_writer_only].
  - intros now s. apply keeps_writer_only;
      [intros; apply run_monitor_keeps_frame|apply in_session_writer_only].
Qed.

Lemma background_keeps_done env b bg w :
  _is_recording w = b /\ finished w ->
  _is_recording (Recorder.background bg env w) = b
  /\ finished (Recorder.background bg env w).
Proof.
  revert bg w.
  apply (@background_keeps env (fun w => _is_recording w = b /\ finished w)).
  - intros now w [_ [R _]] E. congruence.
  - intros now w l [_ [R _]] E. congruence.
  - intros w l [_ [R _]] E. congruence.
  - intros i. apply keeps_writer_only;
      [intros; apply deliver_keeps_frame|apply done_writer_only].
  - intros now s. apply keeps_writer_only;
      [intros; apply run_monitor_keeps_frame|apply done_writer_only].
Qed.

(** With the flag down, the thread's next loop test ends [run]. *)
Lemma run_turn_finishes env now w :
  markers_written env -> in_session false w ->
  _is_recording (Recorder.background (Recorder.RunTurn now) env w) = false
  /\ finished (Recorder.background (Recorder.RunTurn now) env w).
Proof.
  intros Hm H. pose proof H as [B [L|F]].
  - pose proof L as (_ & [l R] & _). cbn. rewrite R, B.
    pose proof (@run_end_finishes env false Hm w (conj B L)) as K.
    unfold Recorder.in_run_thread.
    destruct (Recorder.run_end env w) as [[[]|e] w']; [exact K|destruct K].
  - apply background_keeps_done. auto.
Qed.

Lemma grace_keeps_done env g w :
  _is_recording w = false /\ finished w ->
  finished (Recorder.backgrounds g env w).
Proof.
  revert w. unfold Recorder.backgrounds.
  induction g as [|bg g IH]; intros w H; cbn.
  - apply H.
  - apply IH. apply background_keeps_done. exact H.
Qed.

Lemma grace_finishes env g w :
  markers_written env -> in_session false w ->
  existsb is_run_turn g = true ->
  finished (Recorder.backgrounds g env w).
Proof.
  intros Hm. revert w.
  induction g as [|bg g IH]; intros w H Hg; [discriminate|].
  cbn in Hg.
  change (finished
            (Recorder.backgrounds g env (Recorder.background bg env w))).
  destruct (is_run_turn bg) eqn:Hb.
  - destruct bg; try discriminate.
    apply grace_keeps_done. apply run_turn_finishes; auto.
  - apply IH; auto. apply background_keeps_in_session; auto.
Qed.

Lemma step_keeps_in_session env s w :
  markers_written env -> is_stop s = false ->
  in_session true w -> in_session true (step s env w).
Proof.
  intros Hm Hs H. destruct s; [| | |discriminate]; cbn [step].
  - apply background_keeps_in_session; auto.
  - unfold control. apply keeps_sound; auto.
    apply keeps_writer_only;
      [intros; apply pause_recording_keeps_frame
      |apply in_session_writer_only].
  - unfold control. apply keeps_sound; auto.
    apply keeps_writer_only;
      [intros; apply resume_recording_keeps_frame
      |apply in_session_writer_only].
Qed.

Lemma steps_keep_in_session env ss w :
  markers_written env -> existsb is_stop ss = false ->
  in_session true w -> in_session true (steps ss env w).
Proof.
  intros Hm. revert w. unfold steps.
  induction ss as [|s ss IH]; intros w Hs H; cbn; auto.
  cbn in Hs. apply orb_false_iff in Hs as [Hs1 Hs2].
  apply IH; auto. apply step_keeps_in_session; auto.
Qed.

(** Stop, once the thread is in [run]: if the thread reaches its loop test
    within the grace delay, the log ends with the final record. *)
Lemma stop_brackets env g w :
  markers_written env -> in_session true w ->
  existsb is_run_turn g = true ->
  bracketed (log (step (Stop g) env w)).
Proof.
  intros Hm H Hg. cbn [step]. unfold control.
  pose proof (in_session_started H) as Hr.
  pose proof (in_session_file H) as Hf.
  destruct H as [B H].
  rewrite stop_recording_eq; auto. cbn [snd].
  destruct (after_grace_halted env g w Hr Hf) as [_ Hf'].
  destruct (close_down_spec env _ Hf') as (t & _ & _ & _ & _ & _ & _ & L).
  rewrite L. unfold after_grace.
  apply grace_finishes; auto.
  apply (@in_session_writer_only false (set_is_recording false w)).
  - destruct w; reflexivity.
  - destruct w; reflexivity.
  - destruct w; reflexivity.
  - split; [destruct w; reflexivity|].
    destruct H as [H|H]; [left|right]; revert H;
      unfold in_loop, finished, log_open, log; destruct w; cbn; auto.
Qed.

Lemma quiet_fresh : quiet fresh.
Proof. unfold fresh. leaf. Qed.

Lemma quiet_not_started : quiet (fun w => run_thread w = NotStarted).
Proof. leaf. Qed.

(** The constructor leaves a new, open log and does not start the
    thread. *)
Lemma init_fresh env :
  hoare env (fun w => run_thread w = NotStarted) Recorder.__init__
    (fun _ => fresh) (fun _ _ => True).
Proof.
  unfold Recorder.__init__.
  apply hoare_bind_keeps.
  { unfold Recorder.probe_input_capture, Recorder.check_and_fall_back,
      check_macos_permissions.
    keeps_auto; try apply quiet_not_started; leaf. }
  intros ?.
  do 5 (apply hoare_bind_keeps;
        [ keeps_auto; try apply quiet_not_started; leaf | intros ? ]).
  apply hoare_bind with (R := fun _ => fresh).
  { apply hoare_modify. unfold fresh. intros w H. destruct w; cbn in *. auto. }
  intros ?.
  apply hoare_bind_keeps;
    [ keeps_auto; try apply quiet_fresh; unfold fresh; leaf | intros ? ].
  apply hoare_bind_keeps.
  { unfold OBSClient.__init__, OBSClient.max_retries.
    repeat (cbn [OBSClient.connect]; keeps_auto);
      try apply quiet_fresh; unfold fresh; leaf. }
  intros ?.
  apply hoare_conseq with (P' := fresh) (Q' := fun _ => fresh)
                          (E' := fun _ => fresh); auto.
  change (keeps env fresh Recorder.create_listeners).
  unfold Recorder.create_listeners, Recorder.use_macos_monitor.
  keeps_auto; try apply quiet_fresh; unfold fresh; leaf.
Qed.

Lemma constructed_fresh env :
  fst (constructed env) = Ok tt -> fresh (snd (constructed env)).
Proof.
  intros H. unfold constructed in *.
  pose proof (@init_fresh env blank eq_refl) as K.
  destruct (Recorder.__init__ env blank) as [[[]|e] w']; [exact K|].
  discriminate.
Qed.

Lemma run_starts_session env now w :
  markers_written env -> fresh w ->
  in_session true (Recorder.background (Recorder.RunStarts now) env w).
Proof.
  intros Hm H. pose proof H as [R _]. cbn. rewrite R.
  pose proof (@run_begin_begins env now Hm w H) as K.
  unfold Recorder.in_run_thread.
  destruct (Recorder.run_begin now env w) as [[[]|e] w']; [exact K|destruct K].
Qed.

(** C1 (amended).  A session whose thread gets as far as the guarded part
    of [run] (collecting the metadata and starting the client do not
    raise, the markers can be written), and whose thread reaches its loop
    test within the grace delay of Stop: whatever the control thread
    (Pause, Resume) and the other threads do in between, and whatever else
    raises, the log begins with [recording_started] and ends with
    [recording_ended] when Stop returns. *)
Theorem log_is_bracketed env now mid grace :
  markers_written env ->
  fst (constructed env) = Ok tt ->
  existsb is_stop mid = false ->
  existsb is_run_turn grace = true ->
  bracketed
    (log (steps (Bg (Recorder.RunStarts now) :: mid ++ [Stop grace]) env
            (snd (constructed env)))).
Proof.
  intros Hm Hc Hmid Hg.
  change (Bg (Recorder.RunStarts now) :: mid ++ [Stop grace])
    with ([Bg (Recorder.RunStarts now)] ++ mid ++ [Stop grace]).
  unfold steps. rewrite !fold_left_app. cbn [fold_left].
  apply stop_brackets; auto.
  apply (@steps_keep_in_session env mid); auto.
  apply run_starts_session; auto.
  apply constructed_fresh; auto.
Qed.

(** C1, as the spec words it, fails.  When the client's start raises, the
    thread dies before the first record: after Start, Pause, Resume and
    Stop the log is empty.  And when the thread does not reach its loop
    test within the grace delay, Stop closes the log before the final
    record can be written. *)
Lemma log_empty_when_client_start_raises :
  fst (constructed start_fails) = Ok tt
  /\ log (steps [Bg (Recorder.RunStarts 0); Pause; Resume;
                 Stop [Recorder.RunTurn 600]]
            start_fails (snd (constructed start_fails))) = []
  /\ map action_of
       (log (steps [Bg (Recorder.RunStarts 0); Stop [];
                    Bg (Recorder.RunTurn 600)]
               (calm Linux) (snd (constructed (calm Linux)))))
     = ["recording_started"; "input_capture_method";
        "input_listeners_started"; "heartbeat"].
Proof. vm_compute. repeat split; reflexivity. Qed.

Lemma calm_markers sys : markers_written (calm sys).
Proof. repeat split; reflexivity. Qed.

Lemma log_is_bracketed_witness :
  markers_written (calm Linux)
  /\ fst (constructed (calm Linux)) = Ok tt
  /\ bracketed
       (log (steps (Bg (Recorder.RunStarts 0)
                    :: [Pause; Resume; Bg (Recorder.RunTurn 100);
                        Bg (Recorder.RunTurn 200)]
                    ++ [Stop [Recorder.RunTurn 600]])
               (calm Linux) (snd (constructed (calm Linux))))).
Proof.
  split; [apply calm_markers|]. split; [reflexivity|].
  apply (@log_is_bracketed (calm Linux) 0
           [Pause; Resume; Bg (Recorder.RunTurn 100);
            Bg (Recorder.RunTurn 200)]
           [Recorder.RunTurn 600]);
    [apply calm_markers|reflexivity|reflexivity|reflexivity].
Defined.

(** ** The queue *)

Lemma puts_emit x w : puts (trace (emit x w)) = puts (trace w) ++ puts [x].
Proof. destruct w; cbn [trace emit]. apply puts_app. Qed.

Lemma gots_emit x w : gots (trace (emit x w)) = gots (trace w) ++ gots [x].
Proof. destruct w; cbn [trace emit]. apply gots_app. Qed.

Lemma keeps_queue_get_of env (I : World -> Prop) :
  (forall w e q, I w -> event_queue w = e :: q ->
     I (emit (Got e) (set_event_queue q w))) ->
  keeps env I queue_get.
Proof.
  intros H. apply hoare_queue_get. intros w Hw.
  destruct (event_queue w) eqn:E; auto.
Qed.

Ltac keeps_rule_io :=
  lazymatch goal with
  | |- keeps _ _ queue_get => apply keeps_queue_get_of
  | _ => keeps_rule_of
  end.

Ltac fifo_leaf :=
  unfold queue_is_fifo; intros;
  repeat match goal with w : World |- _ => destruct w end;
  cbn in *;
  repeat (match goal with
          | |- context [match ?x with _ => _ end] =>
              is_var x; destruct x; cbn in *
          end);
  subst; rewrite ?puts_app, ?gots_app; cbn; rewrite ?app_nil_r;
  try match goal with
      | H : puts _ = _ |- _ => rewrite H
      end;
  rewrite <- ?app_assoc; try reflexivity; try assumption.

Lemma run_begin_keeps_fifo env now :
  keeps env queue_is_fifo (Recorder.run_begin now).
Proof. repeat keeps_rule_io; fifo_leaf. Qed.

Lemma run_iteration_keeps_fifo env now :
  keeps env queue_is_fifo (Recorder.run_iteration now).
Proof. repeat keeps_rule_io; fifo_leaf. Qed.

Lemma run_end_keeps_fifo env : keeps env queue_is_fifo Recorder.run_end.
Proof. repeat keeps_rule_io; fifo_leaf. Qed.

Lemma deliver_keeps_fifo env i : keeps env queue_is_fifo (Recorder.deliver i).
Proof. destruct i; cbn; repeat keeps_rule_io; fifo_leaf. Qed.

Lemma run_monitor_keeps_fifo env now s :
  keeps env queue_is_fifo
    (MacOSInputMonitor._run_monitor (Some Recorder.macos_on_input) now s).
Proof.
  unfold MacOSInputMonitor._run_monitor. repeat keeps_rule_io; fifo_leaf.
Qed.

Lemma pause_recording_keeps_fifo env :
  keeps env queue_is_fifo Recorder.pause_recording.
Proof. repeat keeps_rule_io; fifo_leaf. Qed.

Lemma resume_recording_keeps_fifo env :
  keeps env queue_is_fifo Recorder.resume_recording.
Proof. repeat keeps_rule_io; fifo_leaf. Qed.

Lemma close_down_keeps_fifo env :
  keeps env queue_is_fifo Recorder.close_down.
Proof. repeat keeps_rule_io; fifo_leaf. Qed.

(** ** The order of the log *)

Lemma subsequence_app_skip {A} (l g : list A) x :
  subsequence l g -> subsequence l (g ++ [x]).
Proof.
  induction 1; cbn.
  - apply subsequence_skip, subsequence_nil.
  - apply subsequence_skip; assumption.
  - apply subsequence_take; assumption.
Qed.

Lemma subsequence_app_take {A} (l g : list A) x :
  subsequence l g -> subsequence (l ++ [x]) (g ++ [x]).
Proof.
  induction 1; cbn.
  - apply subsequence_take, subsequence_nil.
  - apply subsequence_skip; assumption.
  - apply subsequence_take; assumption.
Qed.

Lemma quiet_log_in_order : quiet log_in_order.
Proof.
  unfold log_in_order. intros x w H. rewrite gots_emit.
  replace (log (emit x w)) with (log w) by (destruct w; reflexivity).
  destruct x; cbn; rewrite ?app_nil_r; auto.
  apply subsequence_app_skip; assumption.
Qed.

Lemma pending_in_order e w : pending e w -> log_in_order w.
Proof.
  intros (g & Hg & H). unfold log_in_order. rewrite Hg.
  apply subsequence_app_skip; assumption.
Qed.

Lemma pending_emit e x w :
  gots [x] = [] -> pending e w -> pending e (emit x w).
Proof.
  intros Hx (g & Hg & H). exists g. rewrite gots_emit, Hx, app_nil_r.
  replace (log (emit x w)) with (log w) by (destruct w; reflexivity). auto.
Qed.

(** A record written directly does not count. *)
Lemma log_in_order_direct e w f :
  from_queue e = false ->
  log_in_order w -> events_file w = Some f ->
  log_in_order (set_events_file (Some (mkFile (lines f ++ [e]) false)) w).
Proof.
  unfold log_in_order, log. intros He H Hf. rewrite Hf in H.
  destruct w; cbn in *. rewrite filter_app. cbn. rewrite He, app_nil_r.
  exact H.
Qed.

(** The record that was got last is written next. *)
Lemma write_pending env e :
  hoare env (pending e) (events_file_write e)
    (fun _ => log_in_order) (fun _ => log_in_order).
Proof.
  intros w H. rewrite events_file_write_eq.
  destruct (events_file w) as [f|] eqn:Hf; [|apply (pending_in_order H)].
  destruct (closed f) eqn:Hc.
  { apply quiet_log_in_order, (pending_in_order H). }
  destruct (faults env _ _).
  { apply quiet_log_in_order, (pending_in_order H). }
  destruct H as (g & Hg & H). unfold log_in_order, log in *.
  rewrite Hf in H. destruct w; cbn in *.
  rewrite gots_app. cbn [gots]. rewrite app_nil_r, Hg, filter_app.
  cbn [filter]. destruct (from_queue e).
  - apply subsequence_app_take; assumption.
  - rewrite app_nil_r. apply subsequence_app_skip; assumption.
Qed.

Ltac order_leaf :=
  first [ apply quiet_log_in_order
        | intros;
          match goal with
          | H : events_file _ = Some _ |- _ =>
              apply log_in_order_direct; [reflexivity|assumption|assumption]
          end
        | unfold log_in_order, log; intros;
          repeat match goal with w : World |- _ => destruct w end;
          cbn in *; subst; cbn in *;
          repeat (match goal with
                  | |- context [match ?x with _ => _ end] =>
                      is_var x; destruct x; cbn in *
                  end);
          assumption ].

(** Lines 582-588: get, write, flush. *)
Lemma drain_keeps_order env now :
  keeps env log_in_order
    (event <- queue_get ;;
     write_record event ;;
     l <- Recorder.locals ;;
     Recorder.assign (Recorder.set_events_count (events_count l + 1)) ;;
     Recorder.assign (Recorder.set_last_file_write_time now)).
Proof.
  apply hoare_bind with (R := pending).
  - apply hoare_queue_get. intros w H.
    destruct (event_queue w) as [|e q] eqn:E; [exact H|].
    exists (gots (trace w)). split.
    + rewrite gots_emit. destruct w; reflexivity.
    + unfold log_in_order in H.
      replace (log (emit (Got e) (set_event_queue q w))) with (log w)
        by (destruct w; reflexivity).
      exact H.
  - intros e. unfold write_record.
    apply hoare_bind with (R := fun _ => log_in_order).
    + apply hoare_bind with (R := fun _ => log_in_order);
        [apply write_pending|].
      intros []. change (keeps env log_in_order (events_file_flush (Some e))).
      apply keeps_events_file_flush, quiet_log_in_order.
    + intros [].
      change (keeps env log_in_order
                (l <- Recorder.locals ;;
                 Recorder.assign
                   (Recorder.set_events_count (events_count l + 1)) ;;
                 Recorder.assign (Recorder.set_last_file_write_time now))).
      keeps_auto; order_leaf.
Qed.

Lemma run_iteration_keeps_order env now :
  keeps env log_in_order (Recorder.run_iteration now).
Proof.
  unfold Recorder.run_iteration.
  repeat first [ apply drain_keeps_order | keeps_rule ]; order_leaf.
Qed.

Lemma run_begin_keeps_order env now :
  keeps env log_in_order (Recorder.run_begin now).
Proof. keeps_auto; order_leaf. Qed.

Lemma run_end_keeps_order env : keeps env log_in_order Recorder.run_end.
Proof. keeps_auto; order_leaf. Qed.

Lemma deliver_keeps_order env i : keeps env log_in_order (Recorder.deliver i).
Proof. destruct i; cbn; keeps_auto; order_leaf. Qed.

Lemma run_monitor_keeps_order env now s :
  keeps env log_in_order
    (MacOSInputMonitor._run_monitor (Some Recorder.macos_on_input) now s).
Proof. unfold MacOSInputMonitor._run_monitor. keeps_auto; order_leaf. Qed.

Lemma pause_recording_keeps_order env :
  keeps env log_in_order Recorder.pause_recording.
Proof. keeps_auto; order_leaf. Qed.

Lemma resume_recording_keeps_order env :
  keeps env log_in_order Recorder.resume_recording.
Proof. keeps_auto; order_leaf. Qed.

Lemma close_down_keeps_order env :
  keeps env log_in_order Recorder.close_down.
Proof. keeps_auto; order_leaf. Qed.

(** ** Invariants of whole sessions *)

Lemma grace_delay_keeps env (I : World -> Prop) g :
  (forall w, I w -> I (emit (Called (sleep 500) None) w)) ->
  (forall b w, I w -> I (Recorder.background b env w)) ->
  keeps env I (Recorder.grace_delay g).
Proof.
  intros Hs Hb. unfold Recorder.grace_delay.
  apply keeps_bind; [apply keeps_modify; exact Hs|].
  intros _ w Hw. apply backgrounds_keeps; auto.
Qed.

Lemma stop_recording_keeps env (I : World -> Prop) g :
  (forall x w, gots [x] = [] -> puts [x] = [] -> I w -> I (emit x w)) ->
  (forall w, I w -> I (set_is_recording false w)) ->
  (forall b w, I w -> I (Recorder.background b env w)) ->
  keeps env I Recorder.close_down ->
  keeps env I (Recorder.stop_recording g).
Proof.
  intros He Hf Hb Hc. unfold Recorder.stop_recording.
  apply keeps_bind; [apply keeps_read|intros recording].
  apply keeps_when.
  apply keeps_bind; [apply keeps_modify; exact Hf|intros _].
  apply keeps_try_except.
  - apply keeps_bind; [|intros _; exact Hc].
    apply grace_delay_keeps; auto.
  - intros e. apply keeps_bind; [|intros _].
    + apply keeps_modify. intros; apply He; auto.
    + apply keeps_modify. intros; apply He; auto.
Qed.

Lemma steps_keep env (I : World -> Prop) :
  (forall x w, gots [x] = [] -> puts [x] = [] -> I w -> I (emit x w)) ->
  (forall w, I w -> I (set_is_recording false w)) ->
  (forall e w, I w -> I (set_run_thread (Died e) w)) ->
  (forall now, keeps env I (Recorder.run_begin now)) ->
  (forall now, keeps env I (Recorder.run_iteration now)) ->
  keeps env I Recorder.run_end ->
  (forall i, keeps env I (Recorder.deliver i)) ->
  (forall now s,
     keeps env I
       (MacOSInputMonitor._run_monitor (Some Recorder.macos_on_input) now s)) ->
  keeps env I Recorder.pause_recording ->
  keeps env I Recorder.resume_recording ->
  keeps env I Recorder.close_down ->
  forall ss w, I w -> I (steps ss env w).
Proof.
  intros He Hf Hd Hb Hi Hend Hdel Hmon Hp Hr Hc.
  assert (Hbg : forall b w, I w -> I (Recorder.background b env w)).
  { apply background_keeps; auto; intros; apply in_run_thread_keeps; auto. }
  intros ss. unfold steps. induction ss as [|s ss IH]; intros w Hw; cbn; auto.
  apply IH. destruct s; cbn [step]; auto; unfold control;
    apply keeps_sound; auto.
  apply stop_recording_keeps; auto.
Qed.

Lemma steps_keep_fifo env ss w :
  queue_is_fifo w -> queue_is_fifo (steps ss env w).
Proof.
  apply steps_keep.
  - unfold queue_is_fifo. intros x w0 Hg Hp H.
    rewrite puts_emit, gots_emit, Hg, Hp, !app_nil_r. destruct w0; exact H.
  - fifo_leaf.
  - fifo_leaf.
  - intros; apply run_begin_keeps_fifo.
  - intros; apply run_iteration_keeps_fifo.
  - apply run_end_keeps_fifo.
  - intros; apply deliver_keeps_fifo.
  - intros; apply run_monitor_keeps_fifo.
  - apply pause_recording_keeps_fifo.
  - apply resume_recording_keeps_fifo.
  - apply close_down_keeps_fifo.
Qed.

Lemma steps_keep_order env ss w :
  log_in_order w -> log_in_order (steps ss env w).
Proof.
  apply steps_keep.
  - intros; apply quiet_log_in_order; assumption.
  - order_leaf.
  - order_leaf.
  - intros; apply run_begin_keeps_order.
  - intros; apply run_iteration_keeps_order.
  - apply run_end_keeps_order.
  - intros; apply deliver_keeps_order.
  - intros; apply run_monitor_keeps_order.
  - apply pause_recording_keeps_order.
  - apply resume_recording_keeps_order.
  - apply close_down_keeps_order.
Qed.

Ltac untouched_leaf :=
  unfold untouched, log; intros;
  repeat match goal with
         | H : _ /\ _ |- _ => destruct H
         end;
  repeat match goal with w : World |- _ => destruct w end;
  cbn in *;
  rewrite ?puts_app, ?gots_app; cbn;
  repeat match goal with
         | H : puts _ = [] |- _ => rewrite H
         | H : gots _ = [] |- _ => rewrite H
         end;
  subst; cbn in *; auto.

(** The constructor leaves the queue and the log empty. *)
Lemma init_untouched env : keeps env untouched Recorder.__init__.
Proof.
  unfold Recorder.__init__, Recorder.probe_input_capture,
    Recorder.check_and_fall_back, check_macos_permissions,
    Recorder.create_listeners, Recorder.use_macos_monitor,
    OBSClient.__init__, OBSClient.max_retries.
  repeat (cbn [OBSClient.connect]; repeat keeps_rule_of); untouched_leaf.
Qed.

Lemma constructed_untouched env : untouched (snd (constructed env)).
Proof.
  unfold constructed. apply keeps_sound; [apply init_untouched|].
  repeat split.
Qed.

(** C4.  In every session, whatever raises and however the threads
    interleave: what was put into the queue is what was got from it, in
    the same order, followed by what still waits (nothing is reordered,
    duplicated, merged or lost in the queue); the queue's records in the
    log are records that were got, in the order in which they were got;
    and a turn of the writer writes exactly the record at the head of the
    queue, after the log as it is, and leaves the rest of the queue. *)
Theorem log_order_is_queue_order :
  (forall env ss,
     puts (trace (steps ss env (snd (constructed env))))
     = gots (trace (steps ss env (snd (constructed env))))
       ++ event_queue (steps ss env (snd (constructed env)))
     /\ subsequence
          (filter from_queue (log (steps ss env (snd (constructed env)))))
          (gots (trace (steps ss env (snd (constructed env))))))
  /\ (forall env now L e q w,
        reliable_log env -> _is_recording w = true ->
        writing L (e :: q) w ->
        exists d,
          writing (L ++ d ++ [e]) q
            (Recorder.background (Recorder.RunTurn now) env w)
          /\ forallb (has_action "direct_sentinel") d = true).
Proof.
  split.
  - intros env ss.
    destruct (constructed_untouched env) as (P & G & Q & L).
    split.
    + apply steps_keep_fifo. unfold queue_is_fifo. rewrite P, G, Q.
      reflexivity.
    + apply steps_keep_order. unfold log_in_order. rewrite L, G.
      apply subsequence_nil.
  - intros env now L e q w Hrel Hrec H.
    destruct (run_turn_writes_head now Hrel Hrec H) as (d & H1 & F & _).
    eauto.
Qed.

Lemma log_order_is_queue_order_witness :
  exists d,
    writing
      (log busy_world ++ d ++ [move_event 21 3 4])
      [click_event 22 3 4 "left" true]
      (Recorder.background (Recorder.RunTurn 100) (calm Linux) busy_world)
    /\ forallb (has_action "direct_sentinel") d = true.
Proof.
  apply (proj2 log_order_is_queue_order (calm Linux) 100 (log busy_world)
           (move_event 21 3 4)
           [click_event 22 3 4 "left" true] busy_world).
  - apply calm_reliable.
  - reflexivity.
  - unfold writing. split.
    + exists []. rewrite app_nil_r. split; reflexivity.
    + split; [reflexivity|]. split; [reflexivity|].
      vm_compute. eexists. reflexivity.
Defined.

(** ** The writer's clocks *)

Ltac looping_leaf :=
  unfold looping in *; intros;
  repeat match goal with
         | H : _ /\ _ |- _ => destruct H
         | H : exists _, _ |- _ => destruct H
         end;
  repeat match goal with w : World |- _ => destruct w end;
  cbn in *; subst; cbn in *;
  repeat match goal with
         | H : Some _ = Some _ |- _ => injection H as H; subst
         end;
  cbn in *; rewrite <- ?app_assoc; eauto 8.

Lemma looping_emit ls q st lw x w :
  looping ls q st lw w -> looping ls q st lw (emit x w).
Proof. looping_leaf. Qed.

Lemma looping_open ls q st lw w : looping ls q st lw w -> log_open w = true.
Proof. unfold log_open. intros (F & _). rewrite F. reflexivity. Qed.

Lemma looping_wrote ls q st lw e x1 x2 f w :
  looping ls q st lw w -> events_file w = Some f ->
  looping (ls ++ [e]) q st lw
    (emit x2 (set_events_file (Some (mkFile (lines f ++ [e]) false))
                (emit x1 w))).
Proof. looping_leaf. Qed.

Lemma looping_got ls e q st lw w :
  looping ls (e :: q) st lw w ->
  looping ls q st lw (emit (Got e) (set_event_queue q w)).
Proof. looping_leaf. Qed.

Lemma looping_put ls e st lw w :
  looping ls [] st lw w ->
  looping ls [e] st lw
    (emit (Put e) (set_event_queue (event_queue w ++ [e]) w)).
Proof. looping_leaf. Qed.

Lemma looping_wrote_at ls q st lw t w :
  looping ls q st lw w ->
  looping ls q st t
    match run_thread w with
    | Looping l =>
        set_run_thread (Looping (Recorder.set_last_file_write_time t l)) w
    | _ => w
    end.
Proof. looping_leaf. Qed.

Lemma looping_sentinel_at ls q st lw t w :
  looping ls q st lw w ->
  looping ls q t lw
    match run_thread w with
    | Looping l =>
        set_run_thread (Looping (Recorder.set_last_sentinel_time t l)) w
    | _ => w
    end.
Proof. looping_leaf. Qed.

Lemma looping_counted ls q st lw n w :
  looping ls q st lw w ->
  looping ls q st lw
    match run_thread w with
    | Looping l =>
        set_run_thread (Looping (Recorder.set_events_count n l)) w
    | _ => w
    end.
Proof. looping_leaf. Qed.

Lemma hoare_locals_looping env ls q st lw :
  hoare env (looping ls q st lw) Recorder.locals
    (fun l w => (last_sentinel_time l = st /\ last_file_write_time l = lw)
                /\ looping ls q st lw w)
    (fun _ _ => False).
Proof.
  apply hoare_locals.
  - intros w (_ & _ & l & R & _). eauto.
  - intros w l H R. pose proof H as (_ & _ & l' & R' & S & W).
    rewrite R in R'. injection R' as <-. auto.
Qed.

(** Lines 570-580: the direct sentinel, when one is due. *)
Lemma direct_sentinel_spec env now ls q st lw l :
  reliable_log env ->
  last_file_write_time l = lw ->
  hoare env (looping ls q st lw)
    (when (now - last_file_write_time l >? seconds 5)
       (ts <- perf_counter ;;
        write_record (sentinel_event ts "direct_sentinel" now) ;;
        Recorder.assign (Recorder.set_last_file_write_time now)))
    (fun _ w => exists ts,
       looping (ls ++ direct_record now lw ts) q st
         (if direct_due now lw then now else lw) w)
    (fun _ _ => False).
Proof.
  intros Hrel ->. unfold direct_record, direct_due.
  apply hoare_when.
  - intros ->.
    apply hoare_bind with
      (R := fun _ => looping ls q st lw);
      [apply hoare_perf_counter; auto|intros ts].
    apply hoare_bind with
      (R := fun _ =>
              looping (ls ++ [sentinel_event ts "direct_sentinel" now]) q st
                lw).
    + apply hoare_write_record; [assumption|apply looping_open|].
      intros w f H Hf Hc. apply looping_wrote; auto.
    + intros []. apply hoare_modify. intros w H. exists ts.
      eapply looping_wrote_at; eassumption.
  - intros -> w H. exists 0. rewrite app_nil_r. exact H.
Qed.

(** A turn of the loop, with its clocks: a direct sentinel first if
    nothing was written for more than 5 s; then the record at the head of
    the queue, or, on an empty queue, a sentinel put into the queue if the
    last one was made more than 2 s ago. *)
Lemma run_iteration_timed env now ls q st lw :
  reliable_log env ->
  hoare env (looping ls q st lw) (Recorder.run_iteration now)
    (fun _ => after_turn now ls q st lw) (fun _ _ => False).
Proof.
  intros Hrel. unfold Recorder.run_iteration.
  apply hoare_try_except with (R := fun _ _ => False);
    [|intros; apply hoare_false].
  apply hoare_bind with
    (R := fun l w => (last_sentinel_time l = st /\ last_file_write_time l = lw)
                     /\ looping ls q st lw w);
    [apply hoare_locals_looping|intros l].
  apply hoare_pure. intros [Hst Hlw].
  set (lw' := if direct_due now lw then now else lw).
  apply hoare_bind with
    (R := fun _ w => exists ts, looping (ls ++ direct_record now lw ts) q st lw' w);
    [apply direct_sentinel_spec; auto|intros []].
  unfold try_except_class. destruct q as [|e q].
  - (* the queue is empty *)
    apply hoare_try_except with
      (R := fun x w => x = Empty
                       /\ exists ts,
                            looping (ls ++ direct_record now lw ts) [] st lw' w).
    + apply hoare_bind with (R := fun _ _ => False);
        [|intros; apply hoare_false].
      apply hoare_queue_get. intros w (ts & H).
      pose proof H as (_ & Q & _). rewrite Q. eauto.
    + intros x.
      apply hoare_conseq with
        (P' := fun w => x = Empty
                        /\ exists ts,
                             looping (ls ++ direct_record now lw ts) [] st lw' w)
        (Q' := fun _ => after_turn now ls [] st lw) (E' := fun _ _ => False);
        auto.
      apply hoare_pure. intros ->. cbn [Recorder.is_Empty].
      apply hoare_bind with
        (R := fun l' w =>
                last_sentinel_time l' = st
                /\ exists ts,
                     looping (ls ++ direct_record now lw ts) [] st lw' w).
      { intros w (ts & H).
        pose proof (@hoare_locals_looping env _ _ _ _ w H) as K.
        destruct (Recorder.locals env w) as [[l'|x] w']; [|destruct K].
        destruct K as [[S _] K]. eauto. }
      intros l'. apply hoare_pure. intros Hst'. rewrite Hst'.
      unfold after_turn, sentinel_due.
      apply hoare_when.
      * intros ->.
        apply hoare_bind with
          (R := fun _ w =>
                  exists ts,
                    looping (ls ++ direct_record now lw ts) [] st lw' w);
          [apply hoare_perf_counter; auto|intros ts'].
        apply hoare_bind with
          (R := fun _ w =>
                  exists ts,
                    looping (ls ++ direct_record now lw ts)
                      [sentinel_event ts' "sentinel" now] st lw' w).
        { apply hoare_modify. intros w (ts & H). exists ts.
          apply looping_put; auto. }
        intros []. apply hoare_modify. intros w (ts & H). exists ts, ts'.
        eapply looping_sentinel_at; eassumption.
      * intros -> w (ts & H). exists ts, 0. exact H.
  - (* the queue holds [e] first *)
    apply hoare_try_except with (R := fun _ _ => False);
      [|intros; apply hoare_false].
    apply hoare_bind with
      (R := fun e' w =>
              e' = e
              /\ exists ts,
                   looping (ls ++ direct_record now lw ts) q st lw' w).
    { apply hoare_queue_get. intros w (ts & H).
      pose proof H as (_ & Q & _). rewrite Q. split; [reflexivity|].
      exists ts. apply looping_got; auto. }
    intros e'. apply hoare_pure. intros ->.
    apply hoare_bind with
      (R := fun _ w =>
              exists ts,
                looping (ls ++ direct_record now lw ts ++ [e]) q st lw' w).
    { apply hoare_write_record; [assumption| |].
      - intros w (ts & H). eapply looping_open; eauto.
      - intros w f (ts & H) Hf Hc. exists ts. rewrite app_assoc.
        apply looping_wrote; auto. }
    intros [].
    apply hoare_bind with
      (R := fun _ w =>
              exists ts,
                looping (ls ++ direct_record now lw ts ++ [e]) q st lw' w).
    { intros w (ts & H).
      pose proof (@hoare_locals_looping env _ _ _ _ w H) as K.
      destruct (Recorder.locals env w) as [[l'|x] w']; [|destruct K].
      destruct K as [_ K]. eauto. }
    intros l'.
    apply hoare_bind with
      (R := fun _ w =>
              exists ts,
                looping (ls ++ direct_record now lw ts ++ [e]) q st lw' w).
    + apply hoare_modify. intros w (ts & H). exists ts.
      apply looping_counted; auto.
    + intros []. apply hoare_modify. intros w (ts & H). exists ts.
      eapply looping_wrote_at; eassumption.
Qed.

Lemma run_turn_timed env now ls q st lw w :
  reliable_log env -> _is_recording w = true -> looping ls q st lw w ->
  after_turn now ls q st lw (Recorder.background (Recorder.RunTurn now) env w)
  /\ _is_recording (Recorder.background (Recorder.RunTurn now) env w) = true.
Proof.
  intros Hrel Hrec H. pose proof H as (_ & _ & l & R & _).
  cbn. rewrite R, Hrec.
  pose proof (@run_iteration_timed env now ls q st lw Hrel w H) as K.
  pose proof (@run_iteration_keeps_flag env true now w Hrec) as F.
  unfold Recorder.in_run_thread.
  destruct (Recorder.run_iteration now env w) as [[[]|x] w']; [|destruct K].
  auto.
Qed.

(** C5 (amended).  A turn of the writer's loop entered at [now], on a
    writable log: if the last write was made more than 5 s before [now], a
    [direct_sentinel] is written straight to the log first; then the
    record at the head of the queue is written, or, when the queue is
    empty, a [sentinel] is put into the queue if the last sentinel was
    made more than 2 s before [now] (and not otherwise).  The sentinel's
    clock starts when the loop does and is reset by a sentinel only, not by
    an input; the clock of the last write is reset by every record got.
    In an idle session the sentinel that is due is in the log after the
    next turn. *)
Theorem writer_turn_clocks env now ls q st lw w :
  reliable_log env -> _is_recording w = true -> looping ls q st lw w ->
  after_turn now ls q st lw (Recorder.background (Recorder.RunTurn now) env w)
  /\ (q = [] -> sentinel_due now st = true ->
      forall now',
      exists ts1 ts2 ts3,
        looping
          (ls ++ direct_record now lw ts1
              ++ direct_record now' (if direct_due now lw then now else lw) ts2
              ++ [sentinel_event ts3 "sentinel" now])
          [] now now'
          (steps [Bg (Recorder.RunTurn now); Bg (Recorder.RunTurn now')]
             env w)).
Proof.
  intros Hrel Hrec H.
  destruct (run_turn_timed now Hrel Hrec H) as [T F]. split; [exact T|].
  intros -> Hdue now'. cbn [steps fold_left step].
  unfold after_turn in T. rewrite Hdue in T. destruct T as (ts1 & ts3 & T).
  destruct (run_turn_timed now' Hrel F T) as [T' _].
  unfold after_turn in T'. destruct T' as (ts2 & T').
  exists ts1, ts2, ts3. rewrite <- app_assoc in T'. exact T'.
Qed.

(** C5, as the spec words it, fails: in [quiet_spell] the writer writes
    two moves 2.4 s apart; no sentinel is put into the queue and no
    sentinel or direct sentinel is written between them, because no turn
    of the loop that finds the queue empty is entered more than 2 s after
    the loop's start. *)
Lemma no_sentinel_in_quiet_spell :
  map action_of
    (log (steps quiet_spell (calm Linux) (snd (constructed (calm Linux)))))
  = ["recording_started"; "input_capture_method";
     "input_listeners_started"; "heartbeat"; "move"; "move"]
  /\ map action_of
       (puts (trace (steps quiet_spell (calm Linux)
                       (snd (constructed (calm Linux))))))
     = ["move"; "move"].
Proof. vm_compute. split; reflexivity. Qed.

Lemma recording_world_looping :
  looping (log recording_world) [] 0 0 recording_world.
Proof.
  unfold looping. vm_compute. split; [reflexivity|]. split; [reflexivity|].
  eexists. repeat split.
Qed.

Lemma writer_turn_clocks_witness :
  after_turn 2500 (log recording_world) [] 0 0
    (Recorder.background (Recorder.RunTurn 2500) (calm Linux)
       recording_world).
Proof.
  apply (proj1 (@writer_turn_clocks (calm Linux) 2500 (log recording_world)
                  [] 0 0 recording_world (calm_reliable Linux) eq_refl
                  recording_world_looping)).
Defined.

(** * Further properties of the code *)

(** ** The input handlers *)

Lemma grown_nothing w : grown [] [] w = w.
Proof. unfold grown. rewrite !app_nil_r. destruct w; reflexivity. Qed.

Ltac handler_cases w :=
  unfold Recorder.accepting; unfold_monad; cbn;
  destruct (_is_paused w) eqn:?, (_is_recording w) eqn:?; cbn.

Ltac put_one :=
  eexists [_], [_]; split; [cbn; reflexivity|];
  cbn; repeat split; auto; try lia; try (intros H; discriminate H).

Ltac put_none :=
  exists [], []; rewrite grown_nothing; cbn; repeat split; auto; try lia.

Ltac put_error msg :=
  exists [], [Logged ERROR msg];
  split; [unfold grown; rewrite app_nil_r; reflexivity|];
  cbn; repeat split; auto; try lia; try (intros H; discriminate H).

(** X1.  A handler called by a listener thread never raises into it, and
    all it does to the recorder is to add at most one record to the end of
    the queue (none when the session is paused or not recording); the
    record's action is one the queue carries. *)
Theorem handlers_only_enqueue env i w :
  exists es t,
    Recorder.deliver i env w = (Ok tt, grown es t w)
    /\ puts t = es
    /\ (List.length es <= 1)%nat
    /\ forallb from_queue es = true
    /\ (negb (_is_paused w) && _is_recording w = false -> es = [] /\ t = []).
Proof.
  destruct i as [x y|x y b p|x y dx dy|k|k]; cbn [Recorder.deliver].
  - unfold Recorder.on_move. handler_cases w;
      first [solve [put_none] | solve [put_one]].
  - unfold Recorder.on_click. handler_cases w;
      first [solve [put_none] | solve [put_one]].
  - unfold Recorder.on_scroll. handler_cases w;
      first [solve [put_none] | solve [put_one]].
  - unfold Recorder.on_press, key_name. handler_cases w;
      try solve [put_none].
    destruct (char k); [destruct (name k)| destruct (name k) |]; cbn;
      first [ solve [put_one]
            | solve [put_error "Error capturing key press"] ].
  - unfold Recorder.on_release, key_name. handler_cases w;
      try solve [put_none].
    destruct (char k); [destruct (name k)| destruct (name k) |]; cbn;
      first [ solve [put_one]
            | solve [put_error "Error capturing key release"] ].
Qed.

Lemma added_grown {A} (c : M A) env w r es t :
  c env w = (r, grown es t w) -> added c env w = t.
Proof.
  intros H. unfold added. rewrite H. cbn.
  rewrite skipn_app, Nat.sub_diag, skipn_all. reflexivity.
Qed.

Lemma key_put env k w a :
  taking_input w ->
  exists t,
    (n <- key_name k ;;
     ts <- perf_counter ;;
     queue_put (key_event ts a n)) env w
    = (match recorded_name k with
       | Some _ => Ok tt
       | None => Raise (AttributeError "name")
       end,
       grown (puts t) t w)
    /\ names_put t
       = match recorded_name k with
         | Some n => [Some (VStr n)]
         | None => []
         end.
Proof.
  intros [P R]. unfold key_name, recorded_name, queue_put. unfold_monad.
  destruct (char k) as [| |c]; [destruct (name k) as [n|]
                               |destruct (name k) as [n|] |]; cbn;
    lazymatch goal with
    | |- context [emit (Put ?e) _] =>
        exists [Put e]; split; [reflexivity|]; cbn; auto
    | _ => exists []; rewrite grown_nothing; cbn; auto
    end.
Qed.

(** X2.  While the session takes input, a key is recorded under its
    character if it has one, else under its name, and the same way when it
    is pressed and when it is released; a key object with neither is
    dropped by both handlers, which log the error and return. *)
Theorem key_named_alike_on_press_and_release env env' k w w' :
  taking_input w -> taking_input w' ->
  fst (Recorder.on_press k env w) = Ok tt
  /\ fst (Recorder.on_release k env' w') = Ok tt
  /\ names_put (added (Recorder.on_press k) env w)
     = match recorded_name k with
       | Some n => [Some (VStr n)]
       | None => []
       end
  /\ names_put (added (Recorder.on_release k) env' w')
     = names_put (added (Recorder.on_press k) env w).
Proof.
  intros H H'.
  assert (P : forall a msg e v,
             taking_input v ->
             exists t,
               (ok <- Recorder.accepting ;;
                when ok
                  (try_except
                     (n <- key_name k ;;
                      ts <- perf_counter ;;
                      queue_put (key_event ts a n))
                     (fun _ => logger ERROR msg))) e v
               = (Ok tt, grown (puts t) t v)
               /\ names_put t
                  = match recorded_name k with
                    | Some n => [Some (VStr n)]
                    | None => []
                    end).
  { intros a msg e v Hv. destruct (key_put e k a Hv) as (t & E & N).
    pose proof Hv as [Pv Rv].
    unfold Recorder.accepting, bind at 1 2 3, read, ret. rewrite Pv, Rv.
    cbn [negb andb when]. unfold try_except. rewrite E.
    destruct (recorded_name k).
    - exists t. auto.
    - exists (t ++ [Logged ERROR msg]). unfold logger, modify.
      split.
      + f_equal. unfold grown, emit. cbn. rewrite puts_app. cbn.
        rewrite !app_nil_r, <- app_assoc. reflexivity.
      + unfold names_put in *. rewrite puts_app. cbn. rewrite app_nil_r.
        exact N. }
  destruct (P "press" "Error capturing key press" env w H) as (t & E & N).
  destruct (P "release" "Error capturing key release" env' w' H')
    as (t' & E' & N').
  unfold Recorder.on_press, Recorder.on_release.
  rewrite (added_grown _ _ E), (added_grown _ _ E'), E, E'. cbn [fst].
  rewrite N, N'. auto.
Qed.

Lemma key_named_alike_on_press_and_release_witness :
  names_put
    (added (Recorder.on_release (special_key "shift")) (calm Linux)
       recording_world)
  = names_put
      (added (Recorder.on_press (special_key "shift")) (calm Linux)
         recording_world).
Proof.
  apply (@key_named_alike_on_press_and_release (calm Linux) (calm Linux)
           (special_key "shift") recording_world recording_world);
    split; reflexivity.
Defined.

(** ** The permission check *)

Lemma grown_emit x es t w : emit x (grown es t w) = grown es (t ++ [x]) w.
Proof. unfold grown, emit. cbn. rewrite app_assoc. reflexivity. Qed.

Ltac as_grown :=
  f_equal; rewrite <- ?grown_emit; rewrite grown_nothing; reflexivity.

Ltac emitted w' :=
  lazymatch w' with
  | emit ?x ?w0 => let t := emitted w0 in constr:(t ++ [x])
  | _ => constr:(@nil Effect)
  end.

(** Name the result and the trace a symbolic run has arrived at. *)
Ltac arrived :=
  lazymatch goal with
  | |- exists b t, (Ok ?b0, ?W) = _ /\ _ =>
      let t := emitted W in
      exists b0, t; split; [as_grown|]; cbn
  end.

(** X3.  [check_macos_permissions] never raises and changes nothing but
    the trace.  Off macOS it answers [True] without a single call.  On
    macOS it answers [True] only if no call raised and the probe returned
    0; when the probe returns another code, or raises, the listener is not
    tried at all. *)
Theorem permission_check_is_total env w :
  exists b t,
    check_macos_permissions env w = (Ok b, grown [] t w)
    /\ (is_Darwin (system env) = false -> b = true /\ t = [])
    /\ (is_Darwin (system env) = true -> b = true ->
        raised t = false /\ probe_returncode env = 0
        /\ calls t = [osascript_permission_probe; listener_smoke_test])
    /\ (is_Darwin (system env) = true ->
        (probe_returncode env <> 0
         \/ faults env (List.length (trace w)) osascript_permission_probe
            <> None) ->
        b = false /\ calls t = [osascript_permission_probe]).
Proof.
  unfold check_macos_permissions. unfold_monad.
  destruct (is_Darwin (system env)) eqn:D; cbn.
  2:{ exists true, []. rewrite grown_nothing. repeat split; auto;
      discriminate. }
  destruct (faults env (List.length (trace w)) osascript_permission_probe)
    as [e|] eqn:F1; cbn.
  { arrived. repeat split; auto; discriminate. }
  destruct (probe_returncode env =? 0) eqn:Z; cbn.
  2:{ arrived. repeat split; auto; discriminate. }
  apply Z.eqb_eq in Z.
  match goal with
  | |- context [faults env ?n listener_smoke_test] =>
      destruct (faults env n listener_smoke_test) as [e|] eqn:F2; cbn
  end.
  - destruct (is_TypeError e); cbn;
      [destruct (thread_handle_message e); cbn|];
      (arrived; repeat split; auto; try discriminate;
       match goal with H : _ \/ _ |- _ => destruct H; congruence end).
  - arrived. repeat split; auto; try discriminate;
      match goal with H : _ \/ _ |- _ => destruct H; congruence end.
Qed.

(** ** The client *)

Ltac arrived_at :=
  lazymatch goal with
  | |- exists r t, (?r0, ?W) = _ /\ _ =>
      let t := emitted W in
      exists r0, t; split; [as_grown|]; cbn
  end.

Lemma connect_step n env w :
  OBSClient.connect (S n) env w
  = match faults env (List.length (trace w)) obs_connect with
    | None => (Ok tt, emit (Called obs_connect None) w)
    | Some e =>
        match n with
        | S _ =>
            OBSClient.connect n env
              (emit (Called (sleep (seconds 2)) None)
                 (emit (Logged ERROR "Failed to connect to OBS WebSocket")
                    (emit (Called obs_connect (Some e)) w)))
        | O =>
            (Raise connect_failed,
             emit (Logged ERROR "Maximum retry attempts reached")
               (emit (Logged ERROR "Failed to connect to OBS WebSocket")
                  (emit (Called obs_connect (Some e)) w)))
        end
    end.
Proof.
  destruct n; cbn [OBSClient.connect]; unfold time_sleep; unfold_monad;
    destruct (faults env (List.length (trace w)) obs_connect); reflexivity.
Qed.

(** X4.  The client's constructor tries to connect at most three times
    and stops at the first attempt that succeeds; every failed attempt but
    the third is followed by a sleep of two seconds and another attempt;
    after the third failure it raises without sleeping again. *)
Theorem connect_gives_up_after_three env w :
  exists r t,
    OBSClient.connect OBSClient.max_retries env w = (r, grown [] t w)
    /\ (r = Ok tt /\ connected t = true /\ (failures t <= 2)%nat
        /\ calls t = obs_connect :: List.concat (repeat retry (failures t))
        \/ r = Raise connect_failed /\ connected t = false
           /\ failures t = 3%nat
           /\ calls t = obs_connect :: retry ++ retry).
Proof.
  unfold OBSClient.max_retries. rewrite connect_step.
  destruct (faults env (List.length (trace w)) obs_connect) as [e1|].
  2:{ arrived_at. left. repeat split; auto. }
  rewrite connect_step.
  match goal with
  | |- context [faults env ?n obs_connect] =>
      destruct (faults env n obs_connect) as [e2|]
  end.
  2:{ arrived_at. left. repeat split; auto. }
  rewrite connect_step.
  match goal with
  | |- context [faults env ?n obs_connect] =>
      destruct (faults env n obs_connect) as [e3|]
  end.
  2:{ arrived_at. left. repeat split; auto. }
  arrived_at. right. repeat split; auto.
Qed.

(** ** The client's profile *)

Ltac profile_leaf :=
  unfold profile_kept; intros;
  repeat match goal with
         | H : _ /\ _ |- _ => destruct H
         end;
  repeat match goal with w : World |- _ => destruct w end;
  cbn in *;
  repeat (match goal with
          | |- context [match ?x with _ => _ end] =>
              is_var x; destruct x; cbn in *
          end);
  rewrite ?existsb_app; cbn; rewrite ?orb_false_r;
  try solve [ split; assumption ].

Lemma profile_kept_emit x w :
  is_profile_read x = false -> is_profile_restore x = false ->
  profile_kept w -> profile_kept (emit x w).
Proof.
  unfold profile_kept. intros H1 H2 [A B].
  rewrite !existsb_trace_emit, H1, H2, !orb_false_r. destruct w; cbn in *.
  auto.
Qed.

Ltac profile_side :=
  first [ solve [ intros; apply profile_kept_emit;
                  [ first [ reflexivity
                          | match goal with
                            | |- _ (Called _ ?r) = false =>
                                destruct r; reflexivity
                            end ]
                  | first [ reflexivity
                          | match goal with
                            | |- _ (Called _ ?r) = false =>
                                destruct r; reflexivity
                            end ]
                  | assumption ] ]
        | solve [ profile_leaf ] ].

(** The constructor stores the profile if it could read it. *)
Lemma obs_init_keeps_profile env : keeps env profile_kept OBSClient.__init__.
Proof.
  unfold OBSClient.__init__. apply keeps_bind.
  { unfold OBSClient.max_retries.
    repeat (cbn [OBSClient.connect]; repeat keeps_rule_of); profile_side. }
  intros _. apply keeps_try_except_class; [|intros; apply keeps_logger_of;
                                             profile_side].
  apply hoare_bind with
    (R := fun _ w => existsb is_profile_read (trace w) = true
                     /\ (existsb is_profile_restore (trace w) = true ->
                         old_profile w = true)).
  - apply hoare_call. intros w [A B].
    destruct (faults env _ _).
    + apply profile_kept_emit; auto. split; auto.
    + rewrite !existsb_trace_emit. cbn. rewrite orb_true_r, orb_false_r.
      destruct w; cbn in *. auto.
  - intros [].
    apply hoare_bind with (R := fun _ => profile_kept).
    + apply hoare_modify. intros w [A B]. split; destruct w; cbn in *; auto.
    + intros []. apply keeps_call_of. profile_side.
Qed.

(** [stop_recording] of the client asks for the profile only if there is
    one. *)
Lemma obs_stop_keeps_profile env :
  keeps env profile_kept OBSClient.stop_recording.
Proof.
  unfold OBSClient.stop_recording.
  apply keeps_bind; [apply keeps_call_of; profile_side|intros _].
  apply hoare_bind with
    (R := fun has w => profile_kept w /\ (has = true -> old_profile w = true)).
  { apply hoare_read. auto. }
  intros has. destruct has; cbn [when]; [|apply hoare_ret; tauto].
  apply hoare_conseq with
    (P' := fun w => profile_kept w /\ old_profile w = true)
    (Q' := fun _ => profile_kept) (E' := fun _ => profile_kept); auto.
  2:{ intros w [A B]. auto. }
  unfold try_except_class.
  apply hoare_try_except with (R := fun _ => profile_kept).
  - apply hoare_call. intros w [[A B] C].
    assert (K : forall r,
               profile_kept (emit (Called req_set_current_profile r) w)).
    { intros r. unfold profile_kept. rewrite !existsb_trace_emit.
      replace (is_profile_read (Called req_set_current_profile r)) with false
        by (destruct r; reflexivity).
      rewrite orb_false_r. destruct w; cbn in *. auto. }
    destruct (faults env _ _); apply K.
  - intros e. destruct (is_OBSSDKRequestError e);
      [apply keeps_logger_of; profile_side|apply keeps_raise].
Qed.

(** ** Invariants of whole sessions, whatever the trace entries do *)

Lemma stop_recording_keeps_of env (I : World -> Prop) g :
  (forall w, I w -> I (emit (Called (sleep 500) None) w)) ->
  (forall w, I w ->
     I (emit (Logged ERROR "Error during recording shutdown") w)) ->
  keeps env I recording_stopped_signal ->
  (forall w, I w -> I (set_is_recording false w)) ->
  (forall b w, I w -> I (Recorder.background b env w)) ->
  keeps env I Recorder.close_down ->
  keeps env I (Recorder.stop_recording g).
Proof.
  intros Hs Hl Hsig Hf Hb Hc. unfold Recorder.stop_recording.
  apply keeps_bind; [apply keeps_read|intros recording].
  apply keeps_when.
  apply keeps_bind; [apply keeps_modify; exact Hf|intros _].
  apply keeps_try_except.
  - apply keeps_bind; [|intros _; exact Hc].
    apply grace_delay_keeps; auto.
  - intros e. apply keeps_bind; [|intros _; exact Hsig].
    apply keeps_modify. exact Hl.
Qed.

Lemma steps_keep_of env (I : World -> Prop) :
  (forall w, I w -> I (emit (Called (sleep 500) None) w)) ->
  (forall w, I w ->
     I (emit (Logged ERROR "Error during recording shutdown") w)) ->
  keeps env I recording_stopped_signal ->
  (forall w, I w -> I (set_is_recording false w)) ->
  (forall e w, I w -> I (set_run_thread (Died e) w)) ->
  (forall now, keeps env I (Recorder.run_begin now)) ->
  (forall now, keeps env I (Recorder.run_iteration now)) ->
  keeps env I Recorder.run_end ->
  (forall i, keeps env I (Recorder.deliver i)) ->
  (forall now s,
     keeps env I
       (MacOSInputMonitor._run_monitor (Some Recorder.macos_on_input) now s)) ->
  keeps env I Recorder.pause_recording ->
  keeps env I Recorder.resume_recording ->
  keeps env I Recorder.close_down ->
  forall ss w, I w -> I (steps ss env w).
Proof.
  intros Hs Hl Hsig Hf Hd Hb Hi Hend Hdel Hmon Hp Hr Hc.
  assert (Hbg : forall b w, I w -> I (Recorder.background b env w)).
  { apply background_keeps; auto; intros; apply in_run_thread_keeps; auto. }
  intros ss. unfold steps. induction ss as [|s ss IH]; intros w Hw; cbn; auto.
  apply IH. destruct s; cbn [step]; auto; unfold control;
    apply keeps_sound; auto.
  apply stop_recording_keeps_of; auto.
Qed.

Ltac keeps_profile :=
  repeat first [ apply obs_init_keeps_profile
               | apply obs_stop_keeps_profile
               | keeps_rule_of ];
  profile_side.

Lemma close_down_keeps_profile env : keeps env profile_kept Recorder.close_down.
Proof. keeps_profile. Qed.

Lemma init_keeps_profile env : keeps env profile_kept Recorder.__init__.
Proof.
  unfold Recorder.__init__, Recorder.probe_input_capture,
    Recorder.check_and_fall_back, check_macos_permissions,
    Recorder.create_listeners, Recorder.use_macos_monitor.
  keeps_profile.
Qed.

Lemma steps_keep_profile env ss w :
  profile_kept w -> profile_kept (steps ss env w).
Proof.
  apply steps_keep_of; try solve [profile_side]; intros.
  - unfold recording_stopped_signal. keeps_profile.
  - keeps_profile.
  - keeps_profile.
  - keeps_profile.
  - destruct i; cbn; keeps_profile.
  - unfold MacOSInputMonitor._run_monitor. keeps_profile.
  - keeps_profile.
  - keeps_profile.
  - apply close_down_keeps_profile.
Qed.

(** X5.  In every session, whatever raises: the client keeps an
    [old_profile] exactly if its constructor could read the profile list,
    and the profile is asked to be restored (at Stop) only in that case. *)
Theorem profile_restored_only_if_read env ss :
  old_profile (steps ss env (snd (constructed env)))
  = existsb is_profile_read (trace (steps ss env (snd (constructed env))))
  /\ (existsb is_profile_restore
        (trace (steps ss env (snd (constructed env)))) = true ->
      existsb is_profile_read
        (trace (steps ss env (snd (constructed env)))) = true).
Proof.
  assert (H : profile_kept (steps ss env (snd (constructed env)))).
  { apply steps_keep_profile. unfold constructed.
    apply keeps_sound; [apply init_keeps_profile|].
    split; [reflexivity|discriminate]. }
  destruct H as [A B]. split; [exact A|]. intros R. rewrite <- A. auto.
Qed.

Lemma steps_keep_bg env (I : World -> Prop) :
  (forall w, I w -> I (emit (Called (sleep 500) None) w)) ->
  (forall w, I w ->
     I (emit (Logged ERROR "Error during recording shutdown") w)) ->
  keeps env I recording_stopped_signal ->
  (forall w, I w -> I (set_is_recording false w)) ->
  (forall b w, I w -> I (Recorder.background b env w)) ->
  keeps env I Recorder.pause_recording ->
  keeps env I Recorder.resume_recording ->
  keeps env I Recorder.close_down ->
  forall ss w, I w -> I (steps ss env w).
Proof.
  intros Hs Hl Hsig Hf Hbg Hp Hr Hc.
  intros ss. unfold steps. induction ss as [|s ss IH]; intros w Hw; cbn; auto.
  apply IH. destruct s; cbn [step]; auto; unfold control;
    apply keeps_sound; auto.
  apply stop_recording_keeps_of; auto.
Qed.

(** ** Once the thread has left [run] *)

Lemma done_writer_only_log L : writer_only (done_with L).
Proof.
  intros w w' F R B H. unfold done_with, log in *. rewrite F, R. exact H.
Qed.

Lemma quiet_done_with L : quiet (done_with L).
Proof. unfold done_with, log. leaf. Qed.

Lemma background_keeps_done_with env L b w :
  done_with L w -> done_with L (Recorder.background b env w).
Proof.
  revert b w. apply background_keeps.
  - intros now w [R _] E. congruence.
  - intros now w l [R _] E. congruence.
  - intros w l [R _] E. congruence.
  - intros i. apply keeps_writer_only;
      [intros; apply deliver_keeps_frame|apply done_writer_only_log].
  - intros now s. apply keeps_writer_only;
      [intros; apply run_monitor_keeps_frame|apply done_writer_only_log].
Qed.

Lemma close_down_keeps_done_with env L :
  keeps env (done_with L) Recorder.close_down.
Proof.
  keeps_auto; try apply quiet_done_with; unfold done_with, log; leaf.
Qed.

(** X6.  Once the thread has left [run], the log has its last line:
    whatever is delivered, paused, resumed or stopped afterwards, and
    whatever raises, nothing is written any more.  This includes the
    session in which starting the capture backend raised: its thread leaves
    [run] at once, and input is never logged although the flag is up. *)
Theorem nothing_written_after_run_returns env ss w :
  run_thread w = Returned ->
  log (steps ss env w) = log w
  /\ run_thread (steps ss env w) = Returned.
Proof.
  intros R.
  assert (H : done_with (log w) (steps ss env w)).
  { apply steps_keep_bg; try solve [split; auto].
    - apply quiet_done_with.
    - apply quiet_done_with.
    - apply keeps_signal, quiet_done_with.
    - unfold done_with, log. leaf.
    - intros; apply background_keeps_done_with; auto.
    - apply keeps_writer_only;
        [intros; apply pause_recording_keeps_frame|apply done_writer_only_log].
    - apply keeps_writer_only;
        [intros; apply resume_recording_keeps_frame
        |apply done_writer_only_log].
    - apply close_down_keeps_done_with. }
  destruct H; auto.
Qed.

Lemma nothing_written_after_run_returns_witness :
  _is_recording screen_only_world = true
  /\ log (steps [Bg (Recorder.Listener (Recorder.Press (char_key "a")));
                 Bg (Recorder.RunTurn 500); Pause; Resume;
                 Stop [Recorder.RunTurn 1000]]
            listener_start_fails screen_only_world)
     = log screen_only_world.
Proof.
  split; [reflexivity|].
  apply (@nothing_written_after_run_returns listener_start_fails
           [Bg (Recorder.Listener (Recorder.Press (char_key "a")));
            Bg (Recorder.RunTurn 500); Pause; Resume;
            Stop [Recorder.RunTurn 1000]]
           screen_only_world).
  reflexivity.
Defined.

(** ** Once the flag is down *)









(** ** Starting and stopping the monitor *)

Lemma monitor_stop_eq env w m :
  macos_monitor w = Some m ->
  MacOSInputMonitor.stop env w
  = if monitor_thread m then
      match faults env (List.length (trace w)) monitor_thread_join with
      | None =>
          (Ok tt,
           emit (Called monitor_thread_join None)
             (set_macos_monitor
                (Some (MacOSInputMonitor.set_running false m)) w))
      | Some e =>
          (Raise e,
           emit (Called monitor_thread_join (Some e))
             (set_macos_monitor
                (Some (MacOSInputMonitor.set_running false m)) w))
      end
    else
      (Ok tt,
       set_macos_monitor (Some (MacOSInputMonitor.set_running false m)) w).
Proof.
  intros M. unfold MacOSInputMonitor.stop, MacOSInputMonitor.self,
    MacOSInputMonitor.update. unfold_monad. rewrite M. cbn. rewrite M. cbn.
  destruct (monitor_thread m); cbn; [|reflexivity].
  destruct (faults env (List.length (trace w)) monitor_thread_join);
    reflexivity.
Qed.

Lemma added_one {A} (c : M A) env w r x w1 :
  c env w = (r, emit x w1) -> trace w1 = trace w -> added c env w = [x].
Proof.
  intros E T. unfold added. rewrite E. cbn [snd]. destruct w1; cbn in *.
  subst. rewrite skipn_app, Nat.sub_diag, skipn_all. reflexivity.
Qed.

Lemma added_none {A} (c : M A) env w r w1 :
  c env w = (r, w1) -> trace w1 = trace w -> added c env w = [].
Proof.
  intros E T. unfold added. rewrite E. cbn [snd]. rewrite T.
  apply skipn_all.
Qed.

(** X8.  [MacOSInputMonitor.stop] leaves the monitor not running, however
    its join ends, so that the monitor's loop takes no further turn; it
    joins the thread exactly if one was started.  [start], when it
    returns, leaves the monitor running with a thread, so that a [stop]
    that follows joins it. *)
Theorem monitor_stop_ends_monitoring env w :
  macos_monitor w <> None ->
  monitor_running (snd (MacOSInputMonitor.stop env w)) = false
  /\ (forall env' now s,
        Recorder.background (Recorder.MonitorTurn now s) env'
          (snd (MacOSInputMonitor.stop env w))
        = snd (MacOSInputMonitor.stop env w))
  /\ calls (added MacOSInputMonitor.stop env w)
     = (if monitor_thread_started w then [monitor_thread_join] else [])
  /\ (forall now,
        fst (MacOSInputMonitor.start now env w) = Ok true ->
        monitor_running (snd (MacOSInputMonitor.start now env w)) = true
        /\ monitor_thread_started (snd (MacOSInputMonitor.start now env w))
           = true).
Proof.
  intros Hm. destruct (macos_monitor w) as [m|] eqn:M; [clear Hm|congruence].
  pose proof (monitor_stop_eq env w M) as E.
  unfold monitor_thread_started. rewrite M.
  split; [|split; [|split]].
  - rewrite E. destruct (monitor_thread m);
      [destruct (faults env _ _)|]; reflexivity.
  - intros env' now s. rewrite E. destruct (monitor_thread m);
      [destruct (faults env _ _)|]; reflexivity.
  - destruct (monitor_thread m).
    + destruct (faults env (List.length (trace w)) monitor_thread_join)
        eqn:F; rewrite (@added_one _ _ _ _ _ _ _ E) by reflexivity;
        reflexivity.
    + rewrite (@added_none _ _ _ _ _ _ E) by reflexivity. reflexivity.
  - intros now. unfold MacOSInputMonitor.start, MacOSInputMonitor.self,
      MacOSInputMonitor.update, monitor_running.
    unfold_monad. rewrite M. cbn. rewrite M. cbn.
    destruct (faults env (List.length (trace w)) monitor_thread_start); cbn;
      [discriminate|]. auto.
Qed.

Lemma monitor_stop_ends_monitoring_witness :
  monitor_running (snd (MacOSInputMonitor.stop (calm Darwin) fallback_session))
  = false.
Proof.
  apply (@monitor_stop_ends_monitoring (calm Darwin) fallback_session).
  vm_compute. discriminate.
Defined.

(** ** The log only grows *)

Lemma quiet_extends L : quiet (extends L).
Proof. unfold extends, log. leaf. Qed.

Lemma extends_append L e f w :
  extends L w -> events_file w = Some f ->
  extends L (set_events_file (Some (mkFile (lines f ++ [e]) false)) w).
Proof.
  unfold extends, log. intros [rest H] Hf. rewrite Hf in H.
  exists (rest ++ [e]). destruct w; cbn in *. rewrite H, app_assoc.
  reflexivity.
Qed.

Ltac extends_leaf :=
  first [ apply quiet_extends
        | solve [ intros; eapply extends_append; eassumption ]
        | solve [ unfold extends, log; intros;
                  repeat match goal with w : World |- _ => destruct w end;
                  cbn in *; subst; cbn in *;
                  repeat (match goal with
                          | |- context [match ?x with _ => _ end] =>
                              is_var x; destruct x; cbn in *
                          end);
                  assumption ] ].

(** X9.  The event log is append-only: in every session, whatever raises
    and however the threads interleave, what has been written stays a
    prefix of the log; no step rewrites, reorders or truncates it. *)
Theorem log_is_append_only env ss w :
  exists rest, log (steps ss env w) = log w ++ rest.
Proof.
  change (extends (log w) (steps ss env w)).
  apply steps_keep.
  - intros. apply quiet_extends. assumption.
  - extends_leaf.
  - extends_leaf.
  - intros. keeps_auto; extends_leaf.
  - intros. keeps_auto; extends_leaf.
  - keeps_auto; extends_leaf.
  - intros i. destruct i; cbn; keeps_auto; extends_leaf.
  - intros. unfold MacOSInputMonitor._run_monitor. keeps_auto; extends_leaf.
  - keeps_auto; extends_leaf.
  - keeps_auto; extends_leaf.
  - keeps_auto; extends_leaf.
  - exists []. rewrite app_nil_r. reflexivity.
Qed.

(** ** The method in the log *)

Lemma run_end_returns env :
  hoare env (fun _ => True) Recorder.run_end (fun _ _ => True)
    (fun _ _ => False).
Proof. repeat total_rule. Qed.

(** [run], up to its loop, writes the start record and then the method the
    constructor's choice comes to. *)
Lemma run_begin_records_method env now m :
  markers_written env ->
  hoare env
    (fun w => fresh w /\ Recorder.select_capture_method (system env) w = m)
    (Recorder.run_begin now)
    (fun _ w => exists ts ts',
       extends [bare_event ts "recording_started";
                Recorder.method_event ts' m] w)
    (fun _ _ => False).
Proof.
  intros Hm. pose proof Hm as (Hcollect & Hstart & _).
  set (P := fun w => fresh w
                     /\ Recorder.select_capture_method (system env) w = m).
  assert (Pq : forall x w, P w -> P (emit x w)).
  { unfold P, fresh, Recorder.select_capture_method. intros x w H.
    destruct w; exact H. }
  unfold Recorder.run_begin.
  apply hoare_bind with (R := fun _ => P).
  { apply hoare_modify. unfold P, fresh, Recorder.select_capture_method.
    intros w H. destruct w; exact H. }
  intros [].
  apply hoare_bind with (R := fun _ => P);
    [apply hoare_call_ok; auto|intros []].
  unfold OBSClient.start_recording.
  apply hoare_bind with (R := fun _ => P);
    [apply hoare_call_ok; auto|intros []].
  apply hoare_bind with (R := fun _ => P);
    [apply hoare_perf_counter; auto|intros ts].
  set (S := fun w => log_open w = true
                     /\ log w = [bare_event ts "recording_started"]
                     /\ Recorder.select_capture_method (system env) w = m).
  apply hoare_bind with (R := fun _ => S).
  { apply hoare_write_marker; auto.
    - unfold P, fresh, log_open. intros w [[_ F] _]. rewrite F. reflexivity.
    - unfold P, fresh, S, log_open, log, Recorder.select_capture_method.
      intros w f [[R F] B] Hf Hc. rewrite F in Hf. injection Hf as <-.
      destruct w; cbn in *. auto. }
  intros [].
  apply hoare_bind with (R := fun sys w => sys = system env /\ S w);
    [apply hoare_ask; auto|intros sys].
  apply hoare_pure. intros ->.
  apply hoare_bind with (R := fun method w => method = m /\ S w).
  { apply hoare_read. intros w H. pose proof H as (_ & _ & K). auto. }
  intros method. apply hoare_pure. intros ->.
  apply hoare_bind with (R := fun _ => S);
    [apply hoare_perf_counter; auto|intros ts'].
  set (p := [bare_event ts "recording_started"; Recorder.method_event ts' m]).
  apply hoare_bind with (R := fun _ => extends p).
  { apply hoare_write_marker; auto.
    - intros w (O & _). exact O.
    - unfold S, extends, log. intros w f (O & L & _) Hf Hc.
      rewrite Hf in L. exists []. destruct w; cbn in *. rewrite L.
      reflexivity. }
  intros [].
  apply hoare_bind with (R := fun _ => extends p).
  { apply hoare_modify. unfold extends, log. intros w H. destruct w; exact H. }
  intros [].
  apply hoare_conseq with
    (P' := extends p) (Q' := fun _ => extends p) (E' := fun _ _ => False);
    auto.
  2:{ intros _ w H. exists ts, ts'. exact H. }
  apply hoare_try_except with (R := fun _ => extends p).
  - apply keeps_bind; [|intros].
    + unfold Recorder.start_listeners. keeps_auto; extends_leaf.
    + keeps_auto; extends_leaf.
  - intros e.
    apply hoare_bind with (R := fun _ => extends p).
    + apply hoare_logger. apply quiet_extends.
    + intros []. apply keeps_no_raise; [|apply run_end_returns].
      keeps_auto; extends_leaf.
Qed.

(** X10.  When the thread gets through the start of [run], the log opens
    with the start record followed by the [input_capture_method] record,
    and the method in it is the one the constructor's choice comes to;
    these two records stay the first two for the rest of the session. *)
Theorem capture_method_is_logged env now ss :
  markers_written env ->
  fst (constructed env) = Ok tt ->
  exists ts ts' rest,
    log (steps (Bg (Recorder.RunStarts now) :: ss) env (snd (constructed env)))
    = bare_event ts "recording_started"
      :: Recorder.method_event ts' (selected_method env) :: rest.
Proof.
  intros Hm Hc. pose proof (constructed_fresh env Hc) as F.
  pose proof F as [R _].
  pose proof (@run_begin_records_method env now (selected_method env) Hm
                (snd (constructed env)) (conj F eq_refl)) as K.
  change (steps (Bg (Recorder.RunStarts now) :: ss) env
            (snd (constructed env)))
    with (steps ss env
            (Recorder.background (Recorder.RunStarts now) env
               (snd (constructed env)))).
  cbn [Recorder.background]. rewrite R. unfold Recorder.in_run_thread.
  destruct (Recorder.run_begin now env (snd (constructed env)))
    as [[[]|e] w']; [|destruct K].
  destruct K as (ts & ts' & rest & L).
  assert (A : extends (log w') (steps ss env w')).
  { apply steps_keep.
    - intros. apply quiet_extends. assumption.
    - extends_leaf.
    - extends_leaf.
    - intros. keeps_auto; extends_leaf.
    - intros. keeps_auto; extends_leaf.
    - keeps_auto; extends_leaf.
    - intros i. destruct i; cbn; keeps_auto; extends_leaf.
    - intros. unfold MacOSInputMonitor._run_monitor.
      keeps_auto; extends_leaf.
    - keeps_auto; extends_leaf.
    - keeps_auto; extends_leaf.
    - keeps_auto; extends_leaf.
    - exists []. rewrite app_nil_r. reflexivity. }
  destruct A as [rest' A]. exists ts, ts', (rest ++ rest').
  rewrite A, L. reflexivity.
Qed.

Lemma capture_method_is_logged_witness :
  exists ts ts' rest,
    log (steps (Bg (Recorder.RunStarts 0)
                :: [Bg (Recorder.MonitorTurn 2500 (Completed 0 [Some 7; Some 9]));
                    Bg (Recorder.RunTurn 2600)])
           darwin_listener_failure (snd (constructed darwin_listener_failure)))
    = bare_event ts "recording_started"
      :: Recorder.method_event ts' (selected_method darwin_listener_failure)
      :: rest.
Proof.
  apply (@capture_method_is_logged darwin_listener_failure 0
           [Bg (Recorder.MonitorTurn 2500 (Completed 0 [Some 7; Some 9]));
            Bg (Recorder.RunTurn 2600)]).
  - repeat split; reflexivity.
  - reflexivity.
Defined.

(** ** The native backend is preferred *)

Ltac native_leaf :=
  unfold native; intros;
  repeat match goal with
         | H : _ /\ _ |- _ => destruct H
         end;
  repeat match goal with w : World |- _ => destruct w end;
  cbn in *; auto.

(** As [total_rule], keeping an invariant, where no call raises. *)
Ltac sure_rule I :=
  lazymatch goal with
  | |- hoare _ _ (bind _ _) _ _ =>
      apply hoare_bind with (R := fun _ => I); [ | intros ? ]
  | |- hoare _ _ (try_except_class _ _ _) _ _ => unfold try_except_class
  | |- hoare _ _ (try_except _ _) _ _ =>
      apply hoare_try_except with (R := fun _ _ => False);
      [ | intros; apply hoare_false ]
  | |- hoare _ _ (ret _) _ _ => apply hoare_ret; auto
  | |- hoare _ _ (read _) _ _ => apply hoare_read; auto
  | |- hoare _ _ (ask _) _ _ => apply hoare_ask; auto
  | |- hoare _ _ (modify _) _ _ => apply hoare_modify
  | |- hoare _ _ (logger _ _) _ _ => apply hoare_logger
  | |- hoare _ _ (call _) _ _ => apply hoare_call_ok; [solve [auto]|]
  | |- hoare _ _ (when ?b _) _ _ => destruct b; cbn [when]
  | |- hoare _ _ (match ?x with _ => _ end) _ _ => destruct x
  end.

Lemma check_macos_permissions_granted env :
  faultless env -> probe_returncode env = 0 ->
  hoare env native check_macos_permissions
    (fun has w => has = true /\ native w) (fun _ _ => False).
Proof.
  intros Hf Hz. unfold check_macos_permissions.
  apply hoare_bind with (R := fun _ => native); [apply hoare_ask; auto|].
  intros sys. destruct (negb (is_Darwin sys)); [apply hoare_ret; auto|].
  apply hoare_try_except with (R := fun _ _ => False);
    [|intros; apply hoare_false].
  apply hoare_bind with (R := fun _ => native).
  { apply hoare_call_ok; auto; native_leaf. }
  intros [].
  apply hoare_bind with (R := fun rc w => rc = 0 /\ native w);
    [apply hoare_ask; auto|intros rc].
  apply hoare_pure. intros ->. cbn [Z.eqb negb].
  unfold try_except_class.
  apply hoare_try_except with (R := fun _ _ => False);
    [|intros; apply hoare_false].
  apply hoare_bind with (R := fun _ => native).
  { apply hoare_call_ok; auto; native_leaf. }
  intros []. apply hoare_ret. auto.
Qed.

Lemma probe_input_capture_native env :
  faultless env -> probe_returncode env = 0 ->
  hoare env (fun _ => True) Recorder.probe_input_capture
    (fun _ => native) (fun _ _ => False).
Proof.
  intros Hf Hz. unfold Recorder.probe_input_capture.
  apply hoare_bind with (R := fun _ w => use_fallback w = false).
  { apply hoare_modify. intros w _. destruct w; reflexivity. }
  intros [].
  apply hoare_bind with (R := fun _ => native).
  { apply hoare_modify. intros w H. split; destruct w; cbn in *; auto. }
  intros [].
  apply hoare_bind with (R := fun _ => native); [apply hoare_ask; auto|].
  intros sys. destruct (is_Darwin sys); cbn [when]; [|apply hoare_ret; auto].
  apply hoare_try_except with (R := fun _ _ => False);
    [|intros; apply hoare_false].
  apply hoare_bind with (R := fun _ => native).
  { apply hoare_call_ok; auto; native_leaf. }
  intros [].
  apply hoare_bind with (R := fun has w => has = true /\ native w);
    [apply check_macos_permissions_granted; auto|intros has].
  apply hoare_pure. intros ->. cbn [negb when]. apply hoare_ret. auto.
Qed.

Lemma obs_init_native env :
  faultless env ->
  hoare env native OBSClient.__init__ (fun _ => native) (fun _ _ => False).
Proof.
  intros Hf. unfold OBSClient.__init__, OBSClient.max_retries.
  cbn [OBSClient.connect].
  repeat sure_rule native; native_leaf.
Qed.

Lemma create_listeners_native env :
  faultless env ->
  hoare env native Recorder.create_listeners
    (fun _ w => native w
                /\ present (mouse_listener w) = true
                /\ present (keyboard_listener w) = true)
    (fun _ _ => False).
Proof.
  intros Hf. unfold Recorder.create_listeners.
  apply hoare_bind with (R := fun _ => native); [apply hoare_ask; auto|].
  intros sys.
  apply hoare_try_except with (R := fun _ _ => False);
    [|intros; apply hoare_false].
  apply hoare_bind with (R := fun b w => b = false /\ native w).
  { apply hoare_read. intros w H. pose proof H as [A _]. auto. }
  intros fallback. apply hoare_pure. intros ->.
  apply hoare_bind with (R := fun b w => b = false /\ native w).
  { apply hoare_read. intros w H. pose proof H as [_ B]. auto. }
  intros thde. apply hoare_pure. intros ->.
  rewrite andb_false_r.
  apply hoare_bind with (R := fun _ => native).
  { apply hoare_call_ok; auto; native_leaf. }
  intros [].
  apply hoare_bind with
    (R := fun _ w => native w /\ present (mouse_listener w) = true).
  { apply hoare_modify. native_leaf. }
  intros [].
  apply hoare_bind with
    (R := fun _ w => native w /\ present (mouse_listener w) = true).
  { apply hoare_call_ok; auto; native_leaf. }
  intros [].
  set (Q := fun w => native w /\ present (mouse_listener w) = true
                     /\ present (keyboard_listener w) = true).
  apply hoare_bind with (R := fun _ => Q).
  { apply hoare_modify. unfold Q. native_leaf. }
  intros []. unfold try_except_class.
  apply hoare_try_except with (R := fun _ _ => False);
    [|intros; apply hoare_false].
  apply hoare_call_ok; auto; unfold Q; native_leaf.
Qed.

(** X11.  The native listeners are preferred: when no call raises and the
    permission probe returns 0, on every system, the constructor returns
    with both listeners made and the method is [pynput_listeners]. *)
Theorem native_listeners_are_preferred env :
  faultless env -> probe_returncode env = 0 ->
  fst (constructed env) = Ok tt
  /\ selected_method env = "pynput_listeners".
Proof.
  intros Hf Hz.
  assert (H : hoare env (fun _ => True) Recorder.__init__
                (fun _ w => native w
                            /\ present (mouse_listener w) = true
                            /\ present (keyboard_listener w) = true)
                (fun _ _ => False)).
  { unfold Recorder.__init__.
    apply hoare_bind with (R := fun _ => native);
      [apply probe_input_capture_native; auto|intros []].
    do 7 (apply hoare_bind with (R := fun _ => native);
          [ first [ apply hoare_call_ok; [solve [auto]|]
                  | apply hoare_modify ]; native_leaf
          | intros [] ]).
    apply hoare_bind with (R := fun _ => native);
      [apply obs_init_native; auto|intros []].
    apply create_listeners_native; auto. }
  unfold selected_method, constructed. specialize (H blank Logic.I).
  destruct (Recorder.__init__ env blank) as [[[]|e] w']; [|destruct H].
  destruct H as ([A B] & C & D). split; [reflexivity|]. cbn [snd].
  unfold Recorder.select_capture_method. rewrite A, B, C, D.
  cbn. rewrite andb_false_r. reflexivity.
Qed.

Lemma native_listeners_are_preferred_witness :
  selected_method (calm Darwin) = "pynput_listeners".
Proof.
  apply (@native_listeners_are_preferred (calm Darwin)).
  - intros n c. reflexivity.
  - reflexivity.
Defined.

(** ** What a turn of the monitor enqueues *)

Lemma watching_emit P last c mx x w :
  puts [x] = [] -> watching P last c mx w -> watching P last c mx (emit x w).
Proof.
  unfold watching, taking_input. intros Hx (T & Hp & m & H).
  rewrite puts_emit, Hx, app_nil_r. destruct w; cbn in *. eauto.
Qed.

Lemma watching_put P last c mx e w :
  watching P last c mx w ->
  watching (P ++ [e]) last c mx
    (emit (Put e) (set_event_queue (event_queue w ++ [e]) w)).
Proof.
  unfold watching, taking_input. intros (T & Hp & m & H).
  rewrite puts_emit. destruct w; cbn in *. subst. eauto.
Qed.

Lemma macos_on_input_puts env now x y b p ty w :
  taking_input w ->
  exists e,
    Recorder.macos_on_input now x y b p ty env w
    = (Ok tt, emit (Put e) (set_event_queue (event_queue w ++ [e]) w))
    /\ (ty = "sentinel" ->
        e = sentinel_event (perf env (List.length (trace w))) "sentinel" now)
    /\ (ty = "move" -> (x >? 0) || (y >? 0) = true ->
        e = move_event (perf env (List.length (trace w))) x y).
Proof.
  intros [Hp Hr]. unfold Recorder.macos_on_input, Recorder.accepting.
  unfold_monad. rewrite Hp, Hr. cbn. eexists. split; [reflexivity|].
  split.
  - intros ->. reflexivity.
  - intros -> ->. reflexivity.
Qed.

Lemma get_mouse_position_position env P last c mx s :
  hoare env (watching P last c mx) (MacOSInputMonitor._get_mouse_position s)
    (fun xy w => xy = position_of s /\ watching P last c mx w)
    (fun _ _ => False).
Proof.
  unfold MacOSInputMonitor._get_mouse_position.
  apply hoare_try_except with
    (R := fun _ w => watching P last c mx w
                     /\ position_of s = (0, 0)).
  - destruct s as [e|returncode parts].
    + apply hoare_bind with (R := fun _ => watching P last c mx).
      * apply hoare_modify. intros. apply watching_emit; auto.
      * intros. apply hoare_raise. auto.
    + apply hoare_bind with (R := fun _ => watching P last c mx).
      * apply hoare_modify. intros. apply watching_emit; auto.
      * intros. unfold position_of.
        destruct (returncode =? 0); cbn [negb].
        2:{ apply hoare_bind with (R := fun _ => watching P last c mx).
            - apply hoare_logger. intros. apply watching_emit; auto.
            - intros. apply hoare_ret.
              destruct parts as [|[x|] [|[y|] [|? ?]]]; auto. }
        destruct parts as [|[x|] [|[y|] [|? ?]]];
          first [ apply hoare_ret; solve [auto]
                | apply hoare_raise; solve [auto] ].
  - intros e. apply hoare_bind with
      (R := fun _ w => watching P last c mx w /\ position_of s = (0, 0)).
    + apply hoare_logger. intros w [H Z]. split; auto.
      apply watching_emit; auto.
    + intros. apply hoare_ret. intros w [H Z]. auto.
Qed.

Lemma hoare_on_input_move env now P last c mx x y :
  (x >? 0) || (y >? 0) = true ->
  hoare env (watching P last c mx)
    (Recorder.macos_on_input now x y None None "move")
    (fun _ w => exists ts, watching (P ++ [move_event ts x y]) last c mx w)
    (fun _ _ => False).
Proof.
  intros Hxy w H. pose proof H as (T & _).
  destruct (macos_on_input_puts env now x y None None "move" T)
    as (e & E & _ & M).
  rewrite E. rewrite (M eq_refl Hxy). eexists. apply watching_put. exact H.
Qed.

Lemma hoare_on_input_sentinel env now P last c mx :
  hoare env (watching P last c mx)
    (Recorder.macos_on_input now 0 0 None None "sentinel")
    (fun _ w =>
       exists ts, watching (P ++ [sentinel_event ts "sentinel" now]) last c mx w)
    (fun _ _ => False).
Proof.
  intros w H. pose proof H as (T & _).
  destruct (macos_on_input_puts env now 0 0 None None "sentinel" T)
    as (e & E & S & _).
  rewrite E. rewrite (S eq_refl). eexists. apply watching_put. exact H.
Qed.

Lemma hoare_self_watching env P last c mx :
  hoare env (watching P last c mx) MacOSInputMonitor.self
    (fun m w => (permission_check_count m = c
                 /\ max_permission_checks m = mx
                 /\ mon_last_sentinel_time m = last)
                /\ watching P last c mx w)
    (fun _ _ => False).
Proof.
  apply hoare_self. intros w H.
  pose proof H as (_ & _ & m & Hm & _ & Hc & Hmx & Hl). exists m. auto.
Qed.

Lemma watching_clock P last c mx t w :
  watching P last c mx w ->
  watching P t c mx
    match macos_monitor w with
    | Some m =>
        set_macos_monitor
          (Some (MacOSInputMonitor.set_last_sentinel_time t m)) w
    | None => w
    end.
Proof.
  unfold watching, taking_input. intros (T & Hp & m & Hm & H).
  rewrite Hm. destruct w, m; cbn in *.
  repeat split; try tauto. eexists. split; [reflexivity|]. cbn. tauto.
Qed.

(** A turn of the monitor in a session that takes input. *)
Lemma run_monitor_enqueues env now s P last c mx :
  c < mx ->
  hoare env (watching P last c mx)
    (MacOSInputMonitor._run_monitor (Some Recorder.macos_on_input) now s)
    (fun _ w => exists ts ts',
       watching (P ++ moved_record s ts ++ monitor_sentinel now last ts')
         (if now - last >? seconds 2 then now else last) c mx w)
    (fun _ _ => False).
Proof.
  intros Hlt. unfold MacOSInputMonitor._run_monitor.
  apply hoare_try_except with (R := fun _ _ => False);
    [|intros; apply hoare_false].
  apply hoare_bind with
    (R := fun m w => (permission_check_count m = c
                      /\ max_permission_checks m = mx
                      /\ mon_last_sentinel_time m = last)
                     /\ watching P last c mx w);
    [apply hoare_self_watching|intros m].
  apply hoare_pure. intros (Hc & Hmx & _).
  apply hoare_bind with
    (R := fun _ w => exists ts, watching (P ++ moved_record s ts) last c mx w).
  { replace (permission_check_count m <? max_permission_checks m) with true
      by (symmetry; apply Z.ltb_lt; lia).
    cbn [when].
    apply hoare_try_except with (R := fun _ _ => False);
      [|intros; apply hoare_false].
    apply hoare_bind with
      (R := fun xy w => xy = position_of s /\ watching P last c mx w);
      [apply get_mouse_position_position|intros xy].
    apply hoare_pure. intros ->. unfold moved_record.
    destruct ((fst (position_of s) >? 0) || (snd (position_of s) >? 0))
      eqn:Hxy; cbn [when].
    - apply hoare_on_input_move. exact Hxy.
    - apply hoare_ret. intros w H. exists 0. rewrite app_nil_r. exact H. }
  intros [].
  apply hoare_bind with
    (R := fun m' w =>
            mon_last_sentinel_time m' = last
            /\ exists ts, watching (P ++ moved_record s ts) last c mx w).
  { intros w (ts & H).
    pose proof (@hoare_self_watching env _ _ _ _ w H) as K.
    destruct (MacOSInputMonitor.self env w) as [[m'|x] w']; [|destruct K].
    destruct K as [(_ & _ & L) K]. eauto. }
  intros m'. apply hoare_pure. intros ->.
  apply hoare_bind with
    (R := fun _ w => exists ts ts',
            watching (P ++ moved_record s ts
                        ++ monitor_sentinel now last ts')
              (if now - last >? seconds 2
               then now else last) c mx w).
  { unfold monitor_sentinel.
    destruct (now - last >? seconds 2); cbn [when].
    - apply hoare_bind with
        (R := fun _ w => exists ts ts',
                watching ((P ++ moved_record s ts)
                            ++ [sentinel_event ts' "sentinel" now])
                  last c mx w).
      + intros w (ts & H).
        pose proof (@hoare_on_input_sentinel env now _ _ _ _ w H) as K.
        destruct (Recorder.macos_on_input now 0 0 None None "sentinel" env w)
          as [[[]|x] w']; [|destruct K].
        destruct K as (ts' & K). eauto.
      + intros []. apply hoare_modify. intros w (ts & ts' & H).
        exists ts, ts'. rewrite app_assoc. eapply watching_clock. exact H.
    - apply hoare_ret. intros w (ts & H). exists ts, 0.
      rewrite app_nil_r. exact H. }
  intros []. apply hoare_modify. intros w (ts & ts' & H). exists ts, ts'.
  apply watching_emit; auto.
Qed.

(** X12.  A turn of the fallback monitor in a session that takes input,
    with its failure counter below the limit: it enqueues a [move] exactly
    if the subprocess returned 0 and printed two integers of which one is
    positive (every other outcome counts as the origin and enqueues no
    move), and then a [sentinel] exactly if its last sentinel was made more
    than 2 s before; nothing else is enqueued, and the sentinel clock is
    reset only when a sentinel is made. *)
Theorem monitor_turn_enqueues env now s P last c mx w :
  c < mx -> watching P last c mx w ->
  exists ts ts',
    watching (P ++ moved_record s ts ++ monitor_sentinel now last ts')
      (if now - last >? seconds 2 then now else last) c mx
      (Recorder.background (Recorder.MonitorTurn now s) env w).
Proof.
  intros Hlt H. pose proof H as (_ & _ & m & Hm & Hr & _).
  cbn [Recorder.background]. rewrite Hm, Hr. unfold Recorder.in_thread.
  pose proof (@run_monitor_enqueues env now s P last c mx Hlt w H) as K.
  destruct (MacOSInputMonitor._run_monitor _ now s env w) as [[[]|e] w'];
    [exact K|destruct K].
Qed.

Lemma fallback_session_watching : watching [] 0 0 3 fallback_session.
Proof.
  unfold watching, taking_input. vm_compute.
  repeat split. eexists. repeat split.
Qed.

Lemma monitor_turn_enqueues_witness :
  exists ts ts',
    watching
      ([] ++ moved_record (Completed 0 [Some 7; Some 9]) ts
          ++ monitor_sentinel 2500 0 ts')
      (if 2500 - 0 >? seconds 2 then 2500 else 0) 0 3
      (Recorder.background
         (Recorder.MonitorTurn 2500 (Completed 0 [Some 7; Some 9]))
         darwin_listener_failure fallback_session).
Proof.
  apply (@monitor_turn_enqueues darwin_listener_failure 2500
           (Completed 0 [Some 7; Some 9]) [] 0 0 3 fallback_session);
    [lia|apply fallback_session_watching].
Defined.

(** ** Pause and Resume, whatever the client does *)

Lemma pause_recording_pauses env w :
  _is_recording w = true ->
  _is_paused (snd (Recorder.pause_recording env w)) = true
  /\ _is_recording (snd (Recorder.pause_recording env w)) = true.
Proof.
  intros Hr. destruct (_is_paused w) eqn:Hp.
  - rewrite pause_recording_no_op; auto.
  - rewrite pause_recording_eq; auto.
    destruct (faults env _ _); cbn; destruct w; cbn in *; auto.
Qed.

Lemma resume_recording_resumes env w :
  _is_recording w = true ->
  _is_paused (snd (Recorder.resume_recording env w)) = false
  /\ _is_recording (snd (Recorder.resume_recording env w)) = true.
Proof.
  intros Hr. destruct (_is_paused w) eqn:Hp.
  - rewrite resume_recording_eq; auto.
    destruct (faults env _ _); cbn; destruct w; cbn in *; auto.
  - rewrite resume_recording_no_op; auto.
Qed.

(** X13.  In a recording session Pause always leaves the session paused
    and Resume always leaves it taking input, also when the client's call
    raises (the flag is set before the call): Pause then Resume ends
    unpaused, Resume then Pause ends paused, from either state. *)
Theorem pause_and_resume_set_the_flag env w :
  _is_recording w = true ->
  _is_paused (steps [Pause] env w) = true
  /\ _is_paused (steps [Resume] env w) = false
  /\ taking_input (steps [Pause; Resume] env w)
  /\ _is_paused (steps [Resume; Pause] env w) = true.
Proof.
  intros Hr. cbn [steps fold_left step]. unfold control, taking_input.
  destruct (pause_recording_pauses env w Hr) as [P1 P2].
  destruct (resume_recording_resumes env w Hr) as [R1 R2].
  destruct (resume_recording_resumes env _ P2) as [A1 A2].
  destruct (pause_recording_pauses env _ R2) as [B1 B2].
  auto.
Qed.

Lemma pause_and_resume_set_the_flag_witness :
  taking_input (steps [Pause; Resume] pause_fails recording_world).
Proof.
  apply (@pause_and_resume_set_the_flag pause_fails recording_world).
  reflexivity.
Defined.

(** ** The pause control of the window *)

(** X14.  [toggle_pause] of the window, on a recorder that is recording
    and with texts that say what the next click does: when the recorder's
    call returns, the session's paused state is flipped and the texts
    still say what the next click does; when it raises, the paused state
    is flipped all the same but the texts are left as they were, so they
    no longer do.  On a recorder that is not recording the click changes
    the texts and nothing else. *)
Theorem toggle_pause_texts env a w :
  MainInterface.recorder_thread a = Some w ->
  MainInterface.truthful a ->
  (_is_recording w = true ->
   MainInterface.paused (snd (MainInterface.toggle_pause env a))
   = negb (_is_paused w)
   /\ (fst (MainInterface.toggle_pause env a) = Ok tt ->
       MainInterface.truthful (snd (MainInterface.toggle_pause env a)))
   /\ (forall e,
         fst (MainInterface.toggle_pause env a) = Raise e ->
         ~ MainInterface.truthful (snd (MainInterface.toggle_pause env a))))
  /\ (_is_recording w = false ->
      MainInterface.toggle_pause env a
      = (Ok tt,
         MainInterface.setText
           (if _is_paused w then "Pause Recording" else "Resume Recording")
           w)).
Proof.
  intros Ha (w0 & Hw0 & Ht & Hb). rewrite Ha in Hw0. injection Hw0 as <-.
  unfold MainInterface.toggle_pause, MainInterface.paused. rewrite Ha.
  split.
  - intros Hr. destruct (_is_paused w) eqn:Hp.
    + rewrite resume_recording_eq; auto.
      destruct (faults env _ _) as [e|]; cbn.
      * split; [destruct w; reflexivity|]. split; [discriminate|].
        intros e' _ (w1 & E1 & T1 & _). cbn in *. injection E1 as <-.
        rewrite Ht in T1. destruct w; cbn in *. discriminate.
      * split; [destruct w; reflexivity|]. split; [|discriminate].
        intros _. eexists. split; [reflexivity|]. cbn.
        destruct w; cbn in *. auto.
    + rewrite pause_recording_eq; auto.
      destruct (faults env _ _) as [e|]; cbn.
      * split; [destruct w; reflexivity|]. split; [discriminate|].
        intros e' _ (w1 & E1 & T1 & _). cbn in *. injection E1 as <-.
        rewrite Ht in T1. destruct w; cbn in *. discriminate.
      * split; [destruct w; reflexivity|]. split; [|discriminate].
        intros _. eexists. split; [reflexivity|]. cbn.
        destruct w; cbn in *. auto.
  - intros Hr. destruct (_is_paused w) eqn:Hp.
    + rewrite resume_recording_no_op; auto.
    + rewrite pause_recording_no_op; auto.
Qed.

Lemma toggle_pause_texts_witness :
  MainInterface.paused
    (snd (MainInterface.toggle_pause pause_fails recording_window))
  = negb (_is_paused recording_world).
Proof.
  apply (@toggle_pause_texts pause_fails recording_window recording_world).
  - reflexivity.
  - exists recording_world. repeat split.
  - reflexivity.
Defined.

(** ** The writer's loop survives *)

Ltac the_loop_leaf :=
  unfold quiet, in_the_loop; intros;
  repeat match goal with
         | H : _ /\ _ |- _ => destruct H
         | H : exists _, _ |- _ => destruct H
         end;
  repeat match goal with w : World |- _ => destruct w end; cbn in *;
  repeat (match goal with
          | |- context [match ?x with _ => _ end] =>
              is_var x; destruct x; cbn in *
          end);
  subst; cbn in *;
  try solve [ intuition (try congruence); eauto ].

Lemma quiet_in_the_loop : quiet in_the_loop.
Proof. the_loop_leaf. Qed.

Lemma in_the_loop_writer_only : writer_only in_the_loop.
Proof.
  intros w w' F R B H. unfold in_the_loop in *. rewrite R, B. exact H.
Qed.

Lemma run_iteration_keeps_in_the_loop env now :
  hoare env in_the_loop (Recorder.run_iteration now)
    (fun _ => in_the_loop) (fun _ _ => False).
Proof.
  apply keeps_no_raise; [|apply run_iteration_returns].
  keeps_auto; try apply quiet_in_the_loop; the_loop_leaf.
Qed.

Lemma background_keeps_in_the_loop env b w :
  in_the_loop w -> in_the_loop (Recorder.background b env w).
Proof.
  revert b w. apply background_keeps.
  - intros now w [_ [l R]] E. congruence.
  - intros now w l H _ _.
    pose proof (@run_iteration_keeps_in_the_loop env now w H) as K.
    unfold Recorder.in_run_thread.
    destruct (Recorder.run_iteration now env w) as [[[]|e] w'];
      [exact K|destruct K].
  - intros w l [F _] _ R. congruence.
  - intros i. apply keeps_writer_only;
      [intros; apply deliver_keeps_frame|apply in_the_loop_writer_only].
  - intros now s. apply keeps_writer_only;
      [intros; apply run_monitor_keeps_frame|apply in_the_loop_writer_only].
Qed.

(** X15.  While the flag is up the writer's thread does not leave its
    loop: no exception of a turn (a write or flush that raises, a log
    that cannot be written at all) ends the thread, and neither does
    anything the other threads or Pause and Resume do.  Only Stop ends the
    loop. *)
Theorem writer_loop_survives env ss w :
  in_the_loop w -> existsb is_stop ss = false ->
  in_the_loop (steps ss env w).
Proof.
  intros H. revert w H. unfold steps.
  induction ss as [|s ss IH]; intros w H Hs; cbn; auto.
  cbn in Hs. apply orb_false_iff in Hs as [Hs1 Hs2].
  apply IH; auto.
  destruct s; [| | |discriminate]; cbn [step].
  - apply background_keeps_in_the_loop; auto.
  - unfold control. apply keeps_sound; auto.
    apply keeps_writer_only;
      [intros; apply pause_recording_keeps_frame
      |apply in_the_loop_writer_only].
  - unfold control. apply keeps_sound; auto.
    apply keeps_writer_only;
      [intros; apply resume_recording_keeps_frame
      |apply in_the_loop_writer_only].
Qed.

Lemma writer_loop_survives_witness :
  in_the_loop
    (steps [Bg (Recorder.Listener (Recorder.Move 3 4));
            Bg (Recorder.RunTurn 100); Pause;
            Bg (Recorder.RunTurn 6000)]
       disk_full recording_world).
Proof.
  apply (@writer_loop_survives disk_full
           [Bg (Recorder.Listener (Recorder.Move 3 4));
            Bg (Recorder.RunTurn 100); Pause; Bg (Recorder.RunTurn 6000)]
           recording_world).
  - split; [reflexivity|]. vm_compute. eexists. reflexivity.
  - reflexivity.
Defined.

(** ** Errors of the client's constructor *)

Lemma connect_never_raises_request_error env n :
  hoare env (fun _ => True) (OBSClient.connect n)
    (fun _ _ => True) (fun e _ => is_OBSSDKRequestError e = false).
Proof.
  induction n as [|n IH]; cbn [OBSClient.connect].
  - apply hoare_ret. auto.
  - apply hoare_try_except with (R := fun _ _ => True).
    + apply hoare_call. intros w _. destruct (faults env _ _); auto.
    + intros e.
      apply hoare_bind with (R := fun _ _ => True);
        [apply hoare_logger; auto|intros []].
      destruct n.
      * apply hoare_bind with (R := fun _ _ => True);
          [apply hoare_logger; auto|intros []].
        apply hoare_raise. auto.
      * apply hoare_bind with (R := fun _ _ => True); [|intros []; exact IH].
        apply hoare_modify. auto.
Qed.

(** X16.  The client's constructor never lets a request error out: what
    it raises is the connection failure after the last attempt or an
    error of another class raised while the profile is read or
    configured; a request error there is logged and the constructor
    returns. *)
Theorem client_constructor_swallows_request_errors env w e :
  fst (OBSClient.__init__ env w) = Raise e ->
  is_OBSSDKRequestError e = false.
Proof.
  assert (H : hoare env (fun _ => True) OBSClient.__init__
                (fun _ _ => True)
                (fun e _ => is_OBSSDKRequestError e = false)).
  { unfold OBSClient.__init__.
    apply hoare_bind with (R := fun _ _ => True);
      [apply connect_never_raises_request_error|intros []].
    unfold try_except_class.
    apply hoare_try_except with (R := fun _ _ => True).
    - repeat total_rule.
    - intros x. destruct (is_OBSSDKRequestError x) eqn:X.
      + apply hoare_logger. auto.
      + apply hoare_raise. auto. }
  intros E. specialize (H w Logic.I).
  destruct (OBSClient.__init__ env w) as [[[]|x] w']; cbn in E;
    [discriminate|]. injection E as <-. exact H.
Qed.

Lemma client_constructor_swallows_request_errors_witness :
  is_OBSSDKRequestError connect_failed = false.
Proof.
  apply (@client_constructor_swallows_request_errors unreachable blank
           connect_failed).
  reflexivity.
Defined.

(** ** Looking for OBS *)

Lemma scan_passes_over before rest :
  Forall passed_over before ->
  scan_processes (before ++ rest) = scan_processes rest.
Proof.
  induction 1 as [|p before (n & -> & Hn) _ IH]; cbn; [reflexivity|].
  rewrite Hn. exact IH.
Qed.

Lemma scan_false ps :
  scan_processes ps = Ok false <-> Forall passed_over ps.
Proof.
  induction ps as [|[n| |e] ps IH]; cbn.
  - split; auto.
  - destruct (contains "obs" (lower n)) eqn:Hn.
    + split; [discriminate|]. intros H. inversion H as [|? ? (m & E & Hm)].
      injection E as <-. congruence.
    + rewrite IH. split.
      * intros H. constructor; auto. exists n. auto.
      * intros H. inversion H. assumption.
  - split; [discriminate|]. intros H. inversion H as [|? ? (m & E & _)].
    discriminate.
  - split; [discriminate|]. intros H. inversion H as [|? ? (m & E & _)].
    discriminate.
Qed.

(** X17.  [is_obs_running] answers [True] as soon as a process name
    contains "obs" in any letter case, whatever comes after it in the
    process table; it answers [False] exactly if every process has a name
    and none contains it; and whatever goes wrong while it looks, the one
    exception it raises is its own. *)
Theorem is_obs_running_answers :
  (forall before n rest,
     Forall passed_over before ->
     contains "obs" (lower n) = true ->
     is_obs_running (before ++ Named n :: rest) = Ok true)
  /\ (forall ps, is_obs_running ps = Ok false <-> Forall passed_over ps)
  /\ (forall ps e, is_obs_running ps = Raise e -> e = could_not_check)
  /\ is_obs_running [Named "Finder"; Named "OBS"] = Ok true
  /\ is_obs_running [Named "jobs"] = Ok true.
Proof.
  split; [|split; [|split; [|split; reflexivity]]].
  - intros before n rest Hb Hn. unfold is_obs_running.
    rewrite scan_passes_over by assumption. cbn. rewrite Hn. reflexivity.
  - intros ps. unfold is_obs_running. rewrite <- scan_false.
    destruct (scan_processes ps) as [[|]|e]; split; congruence.
  - intros ps e. unfold is_obs_running.
    destruct (scan_processes ps); congruence.
Qed.

Lemma is_obs_running_answers_witness :
  is_obs_running ([Named "Finder"] ++ Named "obs64.exe" :: [Nameless])
  = Ok true.
Proof.
  apply (proj1 is_obs_running_answers [Named "Finder"] "obs64.exe"
           [Nameless]).
  - constructor; [|constructor]. exists "Finder". split; reflexivity.
  - reflexivity.
Defined.

(** X18.  [find_obs] returns a path that exists or, failing that, the
    bare command name [obs]; the first common path of the system that
    exists wins, and the shell is then not asked at all; a
    [CalledProcessError] of the shell is absorbed. *)
Theorem find_obs_returns_an_existing_path sys path_exists located :
  (forall p,
     find_obs sys path_exists located = Ok p ->
     p = "obs" \/ path_exists p = true)
  /\ (forall p,
        find path_exists (common_paths sys) = Some p ->
        forall located', find_obs sys path_exists located' = Ok p)
  /\ (exists p, find_obs sys path_exists CalledProcessError = Ok p)
  /\ (forall e, find_obs sys path_exists located = Raise e ->
        located = Broke e
        /\ Forall (fun p => path_exists p = false) (common_paths sys)).
Proof.
  unfold find_obs. split; [|split; [|split]].
  - intros p. destruct (find path_exists (common_paths sys)) as [q|] eqn:F.
    + intros [= <-]. right. apply find_some in F. apply F.
    + destruct located as [q| |e].
      * destruct (path_exists q) eqn:Q; intros [= <-]; auto.
      * intros [= <-]. auto.
      * discriminate.
  - intros p F located'. rewrite F. reflexivity.
  - destruct (find path_exists (common_paths sys)); eauto.
  - intros e. destruct (find path_exists (common_paths sys)) as [q|] eqn:F;
      [discriminate|].
    destruct located as [q| |x].
    + destruct (path_exists q); discriminate.
    + discriminate.
    + intros [= <-]. split; [reflexivity|].
      apply Forall_forall. intros p Hp.
      apply (find_none _ _ F p Hp).
Qed.
